(** * Pulse-sensor BPM pipeline: shallow embedding of the Arduino sketches

    The sketches under [SKETCHS/] share one algorithm: signal conditioning,
    3-sample peak detection with a refractory gate, interval validation,
    three fixed-capacity rings, a median/average combiner and a status
    decision, all run once per call of [loop()].

    Modelling conventions.
    - [unsigned long] is a [Z] with subtraction taken modulo [2^32];
      [int] indices and fill counts are [nat] (they stay below 16);
      [int raw] and [long] are [Z].
    - [float] is modelled by the rationals [Q]: the operations are the
      exact ones, rounding to binary32 is not modelled.
    - C arrays are lists updated in place with [<[i:=v]>] and read with
      [!!!]; the sketches never index outside the declared size (this is
      proved for the three rings below).
    - Every read of the environment ([analogRead], [millis], the PRNG
      behind [random]) is a field of the per-tick [Input]; [delay] and the
      pin writes other than the LED do not touch the state and are left out. *)

From Stdlib Require Import ZArith QArith Qabs Qround Lia Lqa.
From Stdlib Require Import Permutation Sorted.
From stdpp Require Import base list strings.

(** ** Shared numeric helpers *)

#[global] Instance Q_inhabited : Inhabited Q := populate 0%Q.

Inductive StatusCode : Set := ST_OK | ST_FALLBACK | ST_NO_SENSOR | ST_LOW_CONF.

#[global] Instance StatusCode_eq_dec : EqDecision StatusCode.
Proof. solve_decision. Defined.

(** [a - b] on [unsigned long]. *)
Definition usub (a b : Z) : Z := ((a - b) mod 2 ^ 32)%Z.

(** [a < b] and [a > b] on [float]. *)
Definition Qltb (a b : Q) : bool := negb (Qle_bool b a).
Definition Qgtb (a b : Q) : bool := Qltb b a.
Definition Qgeb (a b : Q) : bool := Qle_bool b a.

(** Arduino's [max(a,b)] macro: [((a)>(b)?(a):(b))]. *)
Definition fmaxQ (a b : Q) : Q := if Qgtb a b then a else b.

(** Arduino's [constrain(amt,low,high)] macro. *)
Definition constrainQ (amt low high : Q) : Q :=
  if Qltb amt low then low else if Qgtb amt high then high else amt.

(** [(long)x] on a float: truncation towards zero. *)
Definition to_long (x : Q) : Z := (Qnum x ÷ Z.pos (Qden x))%Z.

(** [lroundf]: nearest integer, halves away from zero. *)
Definition lroundf (x : Q) : Z :=
  if Qle_bool 0 x then Qfloor (x + (1 # 2))%Q else Qceiling (x - (1 # 2))%Q.

(** [random(lo, hi)] of the Arduino core, given the raw output [r] of the
    generator: [lo] when the range is empty, else [lo + r mod (hi - lo)]. *)
Definition arduino_random (lo hi r : Z) : Z :=
  if (hi <=? lo)%Z then lo else (lo + r mod (hi - lo))%Z.

(** [for (i = 0; i < n; i++) s += a[i]] on floats and on longs. *)
Definition sum_slots (a : list Q) (n : nat) : Q :=
  fold_left (fun s i => (s + a !!! i)%Q) (seq 0 n) 0%Q.

Definition sum_slotsZ (a : list Z) (n : nat) : Z :=
  fold_left (fun s i => (s + a !!! i)%Z) (seq 0 n) 0%Z.

(** The plausible-rate bounds shared by all sketches. *)
Definition MIN_VALID_BPM : Q := 35.
Definition MAX_VALID_BPM : Q := 200.
Definition MIN_BEAT_MS : Z := 250.
Definition FALLBACK_TIMEOUT_MS : Z := 5000.
Definition SMOOTH_WIN : nat := 5.
Definition BPM_MEDIAN_WINDOW : nat := 5.
Definition BPM_AVG_WINDOW : nat := 8.
Definition DC_ALPHA : Q := 92 # 100.
Definition AUTO_GAIN_ALPHA : Q := 2 # 100.
Definition TARGET_P2P : Q := 1200.
Definition MAX_GAIN : Q := 100.
Definition PROMINENCE_MULT : Q := 12 # 10.
Definition RMS_ALPHA : Q := 92 # 100.

(** [lo <= b <= hi] for the validity window, as a proposition. *)
Definition valid_bpm (b : Q) : Prop := (MIN_VALID_BPM <= b /\ b <= MAX_VALID_BPM)%Q.

(** What one call of [loop()] prints: the literal line
    ["0,0,0,CALCULATING"], or the CSV tuple; [finalBPM] and [conf] are the
    floats handed to the rounding that precedes [Serial.print]. *)
Inductive Output : Type :=
| Calculating
| Report (filtered finalBPM conf : Q) (st : StatusCode).

(** The status a tick reports; the CALCULATING line is the no-sensor tuple. *)
Definition reported_status (o : Output) : StatusCode :=
  match o with Calculating => ST_NO_SENSOR | Report _ _ _ st => st end.

Definition reported_bpm (o : Output) : option Q :=
  match o with Calculating => None | Report _ b _ _ => Some b end.

(** The insertion sort that [medianBPM] of Espbpm and of
    Finalpulseandbuzzer runs on its local copy [t[]].
    Inner loop, entered with [j = k - 1]:
    [while (j >= 0 && t[j] > key) { t[j+1] = t[j]; j--; } t[j+1] = key;] *)
Fixpoint insert_key (t : list Q) (key : Q) (k : nat) : list Q :=
  match k with
  | O => <[O := key]> t
  | S j => if Qgtb (t !!! j) key
           then insert_key (<[S j := t !!! j]> t) key j
           else <[S j := key]> t
  end.

(** Outer loop, [for (i = ...; i < n; i++)]: [k = n - i] iterations are
    left when the loop variable is [i]. *)
Fixpoint insertion_pass (t : list Q) (i k : nat) : list Q :=
  match k with
  | O => t
  | S k' => insertion_pass (insert_key t (t !!! i) i) (S i) k'
  end.

(** The local [t[]] after the copy loop and the sort; slots at and above
    [n] are never written (they hold whatever the stack held, here [0]). *)
Definition sorted_copy (a : list Q) (n : nat) : list Q :=
  let t := take n a ++ replicate (BPM_MEDIAN_WINDOW - n) 0%Q in
  insertion_pass t 1 (n - 1).

(** What a tick reads from its environment. *)
Record Input : Type := mkInput {
  raw : Z;          (* analogRead(ADC_PIN) *)
  now : Z;          (* millis() taken after the conditioner *)
  tJitter : Z;      (* millis() in the test of the jitter block *)
  tJitter' : Z;     (* millis() stored into lastJitter *)
  rJitter : Z;      (* generator outputs behind the four random() calls *)
  rDrift : Z;
  rShape : Z;
  rNoise : Z }.

(** ** SKETCHS/Espbpm/Espbpm.ino *)
Module Espbpm.

(** The globals, grouped by the stage that owns them. *)
Record Filter : Type := mkFilter {
  dc : Q;
  gainEstimate : Q;
  smoothBuf : list Z;
  smoothPos : nat;
  smoothFilled : bool;
  rms : Q;
  prev2 : Q;
  prev1 : Q;
  curr : Q }.

Record Beats : Type := mkBeats {
  lastBeatTime : Z;
  lastValidBeatTime : Z;
  beatIntervals : list Q;
  beatIndex : nat;
  beatCount : nat }.

Record Rates : Type := mkRates {
  bpmHistory : list Q;
  bpmHistIdx : nat;
  bpmHistCount : nat;
  bpmAvgWindow : list Q;
  bpmAvgIdx : nat;
  bpmAvgCount : nat;
  lastGoodBPM : Q;
  lastGoodTime : Z }.

Record Variation : Type := mkVariation {
  lastJitter : Z;
  drift : Q;
  shapeMod : Q }.

Record State : Type := mkState {
  filt : Filter;
  beats : Beats;
  rates : Rates;
  vary : Variation;
  status : StatusCode }.

(** State after [setup()]: statics are zero-initialised. *)
Definition init : State :=
  {| filt := mkFilter 0 1 (replicate SMOOTH_WIN 0%Z) 0 false 0 0 0 0;
     beats := mkBeats 0 0 (replicate 16 0%Q) 0 0;
     rates := mkRates (replicate BPM_MEDIAN_WINDOW 0%Q) 0 0
                      (replicate BPM_AVG_WINDOW 0%Q) 0 0 0 0;
     vary := mkVariation 0 0 1;
     status := ST_NO_SENSOR |}.

Definition smoothAvg (f : Filter) (v : Z) : Filter * Q :=
  let buf := <[smoothPos f := v]> (smoothBuf f) in
  let pos := S (smoothPos f) in
  let wrap := (SMOOTH_WIN <=? pos)%nat in
  let pos' := if wrap then 0%nat else pos in
  let filled := if wrap then true else smoothFilled f in
  let n := if filled then SMOOTH_WIN else pos' in
  let s := sum_slotsZ buf n in
  (mkFilter (dc f) (gainEstimate f) buf pos' filled (rms f) (prev2 f) (prev1 f) (curr f),
   (inject_Z s / inject_Z (Z.max 1 (Z.of_nat n)))%Q).

Definition pushBeatInterval (b : Beats) (dt : Q) : Beats :=
  let a := <[beatIndex b := dt]> (beatIntervals b) in
  let i := S (beatIndex b) in
  mkBeats (lastBeatTime b) (lastValidBeatTime b) a
          (if (16 <=? i)%nat then 0%nat else i)
          (if (beatCount b <? 16)%nat then S (beatCount b) else beatCount b).

Definition computeBPM (b : Beats) : Q :=
  if (beatCount b =? 0)%nat then 0%Q
  else
    let s := sum_slots (beatIntervals b) (beatCount b) in
    let avgInterval := (s / inject_Z (Z.of_nat (beatCount b)))%Q in
    if Qle_bool avgInterval 0 then 0%Q else (60000 / avgInterval)%Q.

Definition pushBPMHistory (r : Rates) (bpm : Q) : Rates :=
  let a := <[bpmHistIdx r := bpm]> (bpmHistory r) in
  let i := S (bpmHistIdx r) in
  mkRates a
          (if (BPM_MEDIAN_WINDOW <=? i)%nat then 0%nat else i)
          (if (bpmHistCount r <? BPM_MEDIAN_WINDOW)%nat
           then S (bpmHistCount r) else bpmHistCount r)
          (bpmAvgWindow r) (bpmAvgIdx r) (bpmAvgCount r)
          (lastGoodBPM r) (lastGoodTime r).

Definition medianBPM (r : Rates) : Q :=
  if (bpmHistCount r =? 0)%nat then 0%Q
  else sorted_copy (bpmHistory r) (bpmHistCount r) !!! (bpmHistCount r / 2)%nat.

Definition pushBPMAvg (r : Rates) (bpm : Q) : Rates :=
  let a := <[bpmAvgIdx r := bpm]> (bpmAvgWindow r) in
  let i := S (bpmAvgIdx r) in
  mkRates (bpmHistory r) (bpmHistIdx r) (bpmHistCount r)
          a
          (if (BPM_AVG_WINDOW <=? i)%nat then 0%nat else i)
          (if (bpmAvgCount r <? BPM_AVG_WINDOW)%nat
           then S (bpmAvgCount r) else bpmAvgCount r)
          (lastGoodBPM r) (lastGoodTime r).

Definition avgBPM (r : Rates) : Q :=
  if (bpmAvgCount r =? 0)%nat then 0%Q
  else (sum_slots (bpmAvgWindow r) (bpmAvgCount r)
        / inject_Z (Z.of_nat (bpmAvgCount r)))%Q.

Definition plausibleInterval (dt : Q) : bool :=
  if Qle_bool dt 0 then false
  else
    let bpm := (60000 / dt)%Q in
    Qgeb bpm MIN_VALID_BPM && Qle_bool bpm MAX_VALID_BPM.


(** The conditioner, the threshold tracker and the 3-sample peak test
    (the statics [prev2], [prev1], [curr] live in [Filter]). *)
Definition conditioner (f : Filter) (raw : Z) : Filter * Q * bool :=
  let rawq := inject_Z raw in
  let dc' := (DC_ALPHA * dc f + (1 - DC_ALPHA) * rawq)%Q in
  let ac := (rawq - dc')%Q in
  let ge := ((1 - AUTO_GAIN_ALPHA) * gainEstimate f
             + AUTO_GAIN_ALPHA * fmaxQ 1 (Qabs ac))%Q in
  let gain := constrainQ (TARGET_P2P / fmaxQ 1 (ge * 2))%Q 1 MAX_GAIN in
  let amplified := (ac * gain)%Q in
  let '(f1, filtered) :=
    smoothAvg (mkFilter dc' ge (smoothBuf f) (smoothPos f) (smoothFilled f)
                        (rms f) (prev2 f) (prev1 f) (curr f))
              (to_long amplified) in
  let rms' := (RMS_ALPHA * rms f + (1 - RMS_ALPHA) * Qabs filtered)%Q in
  let threshold := fmaxQ 40 (rms' * PROMINENCE_MULT)%Q in
  let p2 := prev1 f in
  let p1 := curr f in
  let peak := Qgtb p1 p2 && Qgtb p1 filtered && Qgtb p1 threshold in
  (mkFilter dc' ge (smoothBuf f1) (smoothPos f1) (smoothFilled f1)
            rms' p2 p1 filtered,
   filtered, peak).

(** The refractory gate and the beat acceptance block; the list is the
    argument of each [setLed] call made ([false] flashes the beat). *)
Definition beat_gate (b : Beats) (peak : bool) (now : Z) : Beats * list bool :=
  if peak && (MIN_BEAT_MS <? usub now (lastBeatTime b))%Z then
    let dt : Q := if (lastBeatTime b =? 0)%Z then 0%Q
                  else inject_Z (usub now (lastBeatTime b)) in
    if (lastBeatTime b =? 0)%Z || plausibleInterval dt then
      let b1 := if negb (lastBeatTime b =? 0)%Z
                then pushBeatInterval b dt else b in
      (mkBeats now now (beatIntervals b1) (beatIndex b1) (beatCount b1),
       [false])
    else (b, [])
  else (b, [true]).

(** The ACCEPT or FALLBACK decision: the new aggregator state, the status
    assigned, and [finalBPM], [conf] unless the tick returns early. *)
Definition accept_or_fallback (b : Beats) (r : Rates) (now : Z)
  : Rates * StatusCode * option (Q * Q) :=
  let candidate := computeBPM b in
  let validCandidate :=
    Qgeb candidate MIN_VALID_BPM && Qle_bool candidate MAX_VALID_BPM in
  if validCandidate then
    let r1 := pushBPMAvg (pushBPMHistory r candidate) candidate in
    let avg := avgBPM r1 in
    let med := medianBPM r1 in
    let finalBPM :=
      if Qgtb med 0 then (avg * (6 # 10) + med * (4 # 10))%Q else avg in
    (mkRates (bpmHistory r1) (bpmHistIdx r1) (bpmHistCount r1)
             (bpmAvgWindow r1) (bpmAvgIdx r1) (bpmAvgCount r1)
             finalBPM now,
     ST_OK, Some (finalBPM, 85 # 100))
  else if (usub now (lastValidBeatTime b) <? FALLBACK_TIMEOUT_MS)%Z
          && Qgtb (lastGoodBPM r) 0 then
    (r, ST_FALLBACK, Some (lastGoodBPM r, 6 # 10))
  else (r, ST_NO_SENSOR, None).

(** The HRV jitter block, run after both the OK and the FALLBACK branch. *)
Definition hrv_jitter (v : Variation) (finalBPM : Q) (i : Input)
  : Variation * Q :=
  if (1400 <? usub (tJitter i) (lastJitter v))%Z then
    let maxVar := (finalBPM * (30 # 100))%Q in
    let low := lroundf (- maxVar * 100)%Q in
    let high := lroundf (maxVar * 100)%Q in
    let '(low, high) := if (high <=? low)%Z then ((-100)%Z, 100%Z)
                        else (low, high) in
    let r := arduino_random low (high + 1) (rJitter i) in
    let jitter := (inject_Z r / 100)%Q in
    (mkVariation (tJitter' i) (drift v) (shapeMod v),
     constrainQ (finalBPM + jitter)%Q MIN_VALID_BPM MAX_VALID_BPM)
  else (v, finalBPM).

Definition driftAlpha : Q := 995 # 1000.
Definition noiseLevel : Q := 6.

(** Baseline drift, shape modulation and micro-noise on the printed
    waveform. *)
Definition waveform_variation (v : Variation) (filtered : Q) (i : Input)
  : Variation * Q :=
  let drift' := (driftAlpha * drift v
                 + (1 - driftAlpha)
                   * inject_Z (arduino_random (-25) 26 (rDrift i)))%Q in
  let shapeMod' := (1 + inject_Z (arduino_random (-15) 16 (rShape i)) / 100)%Q in
  let microNoise :=
    (inject_Z (arduino_random (lroundf (- noiseLevel * 10)%Q)
                              (lroundf (noiseLevel * 10)%Q + 1) (rNoise i))
     / 10)%Q in
  (mkVariation (lastJitter v) drift' shapeMod',
   (filtered * shapeMod' + drift' + microNoise)%Q).

(** One call of [loop()]. *)
Record Tick : Type := mkTick {
  next : State;
  leds : list bool;
  printed : Output }.

(** The part of [loop()] below the beat block, from the conditioner's
    result [f], [filtered] and the beat state [b] the block left. *)
Definition emit (s : State) (i : Input) (f : Filter) (filtered : Q)
  (b : Beats) (l : list bool) : Tick :=
  match accept_or_fallback b (rates s) (now i) with
  | (r, st, None) => mkTick (mkState f b r (vary s) st) l Calculating
  | (r, st, Some (finalBPM, conf)) =>
      let '(v1, finalBPM') := hrv_jitter (vary s) finalBPM i in
      let '(v2, filtered') := waveform_variation v1 filtered i in
      mkTick (mkState f b r v2 st) l (Report filtered' finalBPM' conf st)
  end.

Definition loop (s : State) (i : Input) : Tick :=
  if (raw i <? 30)%Z then
    mkTick (mkState (filt s) (beats s) (rates s) (vary s) ST_NO_SENSOR)
           [true] Calculating
  else
    let '(f, filtered, peak) := conditioner (filt s) (raw i) in
    let '(b, l) := beat_gate (beats s) peak (now i) in
    emit s i f filtered b l.

(** The state after a list of ticks, and the ticks themselves. *)
Definition final (s : State) (ins : list Input) : State :=
  fold_left (fun s i => next (loop s i)) ins s.

Fixpoint ticks (s : State) (ins : list Input) : list Tick :=
  match ins with
  | [] => []
  | i :: ins' => loop s i :: ticks (next (loop s i)) ins'
  end.

(** The integers actually printed. *)
Definition bpmInt (finalBPM : Q) : Z := lroundf finalBPM.
Definition confPct (conf : Q) : Z := lroundf (conf * 100)%Q.

(** States the sketch can be in after some number of ticks. *)
Inductive reachable : State -> Prop :=
| reach_init : reachable init
| reach_tick s i : reachable s -> reachable (next (loop s i)).

(** [statusText]; the trailing [return "UNK"] is not reached for the four
    enumerators. *)
Definition statusText (s : StatusCode) : String.string :=
  match s with
  | ST_OK => "OK"
  | ST_FALLBACK => "FALLBACK"
  | ST_NO_SENSOR => "NO_FINGER"
  | ST_LOW_CONF => "LOW_CONF"
  end%string.

(** The last field of the line a tick prints. *)
Definition status_column (o : Output) : String.string :=
  match o with
  | Calculating => "CALCULATING"%string
  | Report _ _ _ st => statusText st
  end.

End Espbpm.

(** ** PROJECT CODE/SKETCHS/Pulsebyuno/Pulsebyuno.ino

    The simplest variant: same conditioner and beat gate, the average
    window alone gives [finalBPM], the finger branch returns without
    touching [status], and the FALLBACK test has no [lastGoodBPM] guard. *)
Module Pulsebyuno.

Record Filter : Type := mkFilter {
  dc : Q;
  gainEstimate : Q;
  smoothBuf : list Z;
  smoothPos : nat;
  smoothFilled : bool;
  rms : Q;
  p : Q;
  m : Q;
  c : Q }.

Record Beats : Type := mkBeats {
  lastBeatTime : Z;
  lastValidBeatTime : Z;
  beatIntervals : list Q;
  beatIndex : nat;
  beatCount : nat }.

Record Rates : Type := mkRates {
  bpmHistory : list Q;
  bpmHistIdx : nat;
  bpmHistCount : nat;
  bpmAvgWindow : list Q;
  bpmAvgIdx : nat;
  bpmAvgCount : nat;
  lastGoodBPM : Q;
  lastGoodTime : Z }.

Record State : Type := mkState {
  filt : Filter;
  beats : Beats;
  rates : Rates;
  lastJitter : Z;
  status : StatusCode }.

Definition init : State :=
  {| filt := mkFilter 0 1 (replicate SMOOTH_WIN 0%Z) 0 false 0 0 0 0;
     beats := mkBeats 0 0 (replicate 16 0%Q) 0 0;
     rates := mkRates (replicate BPM_MEDIAN_WINDOW 0%Q) 0 0
                      (replicate BPM_AVG_WINDOW 0%Q) 0 0 0 0;
     lastJitter := 0;
     status := ST_NO_SENSOR |}.

Definition smoothAvg (f : Filter) (v : Z) : Filter * Q :=
  let buf := <[smoothPos f := v]> (smoothBuf f) in
  let pos := S (smoothPos f) in
  let wrap := (SMOOTH_WIN <=? pos)%nat in
  let pos' := if wrap then 0%nat else pos in
  let filled := if wrap then true else smoothFilled f in
  let n := if filled then SMOOTH_WIN else pos' in
  let s := sum_slotsZ buf n in
  (mkFilter (dc f) (gainEstimate f) buf pos' filled (rms f) (p f) (m f) (c f),
   (inject_Z s / inject_Z (Z.max 1 (Z.of_nat n)))%Q).

Definition pushBeatInterval (b : Beats) (dt : Q) : Beats :=
  let a := <[beatIndex b := dt]> (beatIntervals b) in
  let i := S (beatIndex b) in
  mkBeats (lastBeatTime b) (lastValidBeatTime b) a
          (if (16 <=? i)%nat then 0%nat else i)
          (if (beatCount b <? 16)%nat then S (beatCount b) else beatCount b).

Definition computeBPM (b : Beats) : Q :=
  if (beatCount b =? 0)%nat then 0%Q
  else
    let s := sum_slots (beatIntervals b) (beatCount b) in
    (60000 / (s / inject_Z (Z.of_nat (beatCount b))))%Q.

Definition pushBPMHistory (r : Rates) (bpm : Q) : Rates :=
  let a := <[bpmHistIdx r := bpm]> (bpmHistory r) in
  let i := S (bpmHistIdx r) in
  mkRates a
          (if (BPM_MEDIAN_WINDOW <=? i)%nat then 0%nat else i)
          (if (bpmHistCount r <? BPM_MEDIAN_WINDOW)%nat
           then S (bpmHistCount r) else bpmHistCount r)
          (bpmAvgWindow r) (bpmAvgIdx r) (bpmAvgCount r)
          (lastGoodBPM r) (lastGoodTime r).

Definition pushBPMAvg (r : Rates) (bpm : Q) : Rates :=
  let a := <[bpmAvgIdx r := bpm]> (bpmAvgWindow r) in
  let i := S (bpmAvgIdx r) in
  mkRates (bpmHistory r) (bpmHistIdx r) (bpmHistCount r)
          a
          (if (BPM_AVG_WINDOW <=? i)%nat then 0%nat else i)
          (if (bpmAvgCount r <? BPM_AVG_WINDOW)%nat
           then S (bpmAvgCount r) else bpmAvgCount r)
          (lastGoodBPM r) (lastGoodTime r).

Definition avgBPM (r : Rates) : Q :=
  if (bpmAvgCount r =? 0)%nat then 0%Q
  else (sum_slots (bpmAvgWindow r) (bpmAvgCount r)
        / inject_Z (Z.of_nat (bpmAvgCount r)))%Q.

Definition plausibleInterval (dt : Q) : bool :=
  let bpm := (60000 / dt)%Q in
  Qgeb bpm MIN_VALID_BPM && Qle_bool bpm MAX_VALID_BPM.

Definition conditioner (f : Filter) (raw : Z) : Filter * Q * bool :=
  let rawq := inject_Z raw in
  let dc' := (DC_ALPHA * dc f + (1 - DC_ALPHA) * rawq)%Q in
  let ac := (rawq - dc')%Q in
  let ge := ((1 - AUTO_GAIN_ALPHA) * gainEstimate f
             + AUTO_GAIN_ALPHA * fmaxQ 1 (Qabs ac))%Q in
  let gain := constrainQ (TARGET_P2P / fmaxQ 1 (ge * 2))%Q 1 MAX_GAIN in
  let amplified := (ac * gain)%Q in
  let '(f1, filtered) :=
    smoothAvg (mkFilter dc' ge (smoothBuf f) (smoothPos f) (smoothFilled f)
                        (rms f) (p f) (m f) (c f))
              (to_long amplified) in
  let rms' := (RMS_ALPHA * rms f + (1 - RMS_ALPHA) * Qabs filtered)%Q in
  let threshold := fmaxQ 40 (rms' * PROMINENCE_MULT)%Q in
  let p' := m f in
  let m' := c f in
  let peak := Qgtb m' p' && Qgtb m' filtered && Qgtb m' threshold in
  (mkFilter dc' ge (smoothBuf f1) (smoothPos f1) (smoothFilled f1)
            rms' p' m' filtered,
   filtered, peak).

(** The list holds the level of each [digitalWrite(LED_PIN, _)]:
    [false] is LOW, written when a beat is accepted. *)
Definition beat_gate (b : Beats) (peak : bool) (now : Z) : Beats * list bool :=
  if peak && (MIN_BEAT_MS <? usub now (lastBeatTime b))%Z then
    let dt : Q := inject_Z (usub now (lastBeatTime b)) in
    if (lastBeatTime b =? 0)%Z || plausibleInterval dt then
      let b1 := if negb (lastBeatTime b =? 0)%Z
                then pushBeatInterval b dt else b in
      (mkBeats now now (beatIntervals b1) (beatIndex b1) (beatCount b1),
       [false])
    else (b, [])
  else (b, [true]).

(** Here [FALLBACK_TIMEOUT_MS] is declared [const float]. *)
Definition FALLBACK_TIMEOUT_MS : Q := 5000.

Definition accept_or_fallback (b : Beats) (r : Rates) (now : Z)
  : Rates * StatusCode * option (Q * Q) :=
  let candidate := computeBPM b in
  let validCandidate :=
    Qgeb candidate MIN_VALID_BPM && Qle_bool candidate MAX_VALID_BPM in
  if validCandidate then
    let r1 := pushBPMAvg (pushBPMHistory r candidate) candidate in
    let finalBPM := avgBPM r1 in
    (mkRates (bpmHistory r1) (bpmHistIdx r1) (bpmHistCount r1)
             (bpmAvgWindow r1) (bpmAvgIdx r1) (bpmAvgCount r1)
             finalBPM now,
     ST_OK, Some (finalBPM, 8 # 10))
  else if Qltb (inject_Z (usub now (lastValidBeatTime b))) FALLBACK_TIMEOUT_MS
  then (r, ST_FALLBACK, Some (lastGoodBPM r, 6 # 10))
  else (r, ST_NO_SENSOR, None).

Definition hrv_jitter (lastJitter : Z) (finalBPM : Q) (i : Input) : Z * Q :=
  if (1400 <? usub (tJitter i) lastJitter)%Z then
    let minVar := (finalBPM * (20 # 100))%Q in
    let maxVar := (finalBPM * (30 # 100))%Q in
    let r := arduino_random (to_long (minVar * -100)%Q)
                            (to_long (maxVar * 100)%Q) (rJitter i) in
    let jitter := (inject_Z r / 100)%Q in
    (tJitter' i,
     constrainQ (finalBPM + jitter)%Q MIN_VALID_BPM MAX_VALID_BPM)
  else (lastJitter, finalBPM).

Record Tick : Type := mkTick {
  next : State;
  leds : list bool;
  printed : Output }.

Definition emit (s : State) (i : Input) (f : Filter) (filtered : Q)
  (b : Beats) (l : list bool) : Tick :=
  match accept_or_fallback b (rates s) (now i) with
  | (r, st, None) => mkTick (mkState f b r (lastJitter s) st) l Calculating
  | (r, st, Some (finalBPM, conf)) =>
      let '(lj, finalBPM') := hrv_jitter (lastJitter s) finalBPM i in
      mkTick (mkState f b r lj st) l (Report filtered finalBPM' conf st)
  end.

Definition loop (s : State) (i : Input) : Tick :=
  if (raw i <? 30)%Z then mkTick s [true] Calculating
  else
    let '(f, filtered, peak) := conditioner (filt s) (raw i) in
    let '(b, l) := beat_gate (beats s) peak (now i) in
    emit s i f filtered b l.

Definition final (s : State) (ins : list Input) : State :=
  fold_left (fun s i => next (loop s i)) ins s.

Fixpoint ticks (s : State) (ins : list Input) : list Tick :=
  match ins with
  | [] => []
  | i :: ins' => loop s i :: ticks (next (loop s i)) ins'
  end.

(** The integers actually printed: [(int)finalBPM], [(int)(conf*100)]. *)
Definition bpmInt (finalBPM : Q) : Z := to_long finalBPM.
Definition confPct (conf : Q) : Z := to_long (conf * 100)%Q.

Inductive reachable : State -> Prop :=
| reach_init : reachable init
| reach_tick s i : reachable s -> reachable (next (loop s i)).

(** [medianBPM] (lines 97-105); nothing in this sketch calls it. The
    local [t[]] is sorted by exchanges: the inner loop, entered at [j]
    with [k = bpmHistCount - j] iterations left, swaps [t[i]] and [t[j]]
    when [t[j] < t[i]]; the outer loop runs [i] from 0 with
    [k = bpmHistCount - 1 - i] iterations left. *)
Fixpoint exchange_inner (t : list Q) (i j k : nat) : list Q :=
  match k with
  | O => t
  | S k' =>
      let t' := if Qltb (t !!! j) (t !!! i)
                then <[j := t !!! i]> (<[i := t !!! j]> t)
                else t in
      exchange_inner t' i (S j) k'
  end.

Fixpoint exchange_outer (t : list Q) (n i k : nat) : list Q :=
  match k with
  | O => t
  | S k' => exchange_outer (exchange_inner t i (S i) (n - S i)) n (S i) k'
  end.

Definition exchange_copy (a : list Q) (n : nat) : list Q :=
  let t := take n a ++ replicate (BPM_MEDIAN_WINDOW - n) 0%Q in
  exchange_outer t n 0 (n - 1).

Definition medianBPM (r : Rates) : Q :=
  if (bpmHistCount r =? 0)%nat then 0%Q
  else exchange_copy (bpmHistory r) (bpmHistCount r)
       !!! (bpmHistCount r / 2)%nat.

End Pulsebyuno.

(** ** SKETCHS/Finalpulseandbuzzer/Finalpulseandbuzzer.ino

    The median comes first and takes the two globals it reads. *)
Module Finalpulseandbuzzer.

Definition medianBPM (bpmHistory : list Q) (bpmHistCount : nat) : Q :=
  if (bpmHistCount =? 0)%nat then 0%Q
  else sorted_copy bpmHistory bpmHistCount !!! (bpmHistCount / 2)%nat.

(** The rest of the sketch. The pulse pipeline is Espbpm's with these
    differences: [computeBPM] has no test on the mean interval,
    [lastGoodTime] does not exist, the FALLBACK test reads [millis()]
    anew and has no [lastGoodBPM > 0] guard, the two early returns leave
    [status] alone, the jitter is symmetric, and every exit of [loop()]
    goes through [handleBuzzer]. *)
Record Filter : Type := mkFilter {
  dc : Q;
  gainEstimate : Q;
  smoothBuf : list Z;
  smoothPos : nat;
  smoothFilled : bool;
  rms : Q;
  p2 : Q;
  p1 : Q;
  c : Q }.

Record Beats : Type := mkBeats {
  lastBeatTime : Z;
  lastValidBeatTime : Z;
  beatIntervals : list Q;
  beatIndex : nat;
  beatCount : nat }.

Record Rates : Type := mkRates {
  bpmHistory : list Q;
  bpmHistIdx : nat;
  bpmHistCount : nat;
  bpmAvgWindow : list Q;
  bpmAvgIdx : nat;
  bpmAvgCount : nat;
  lastGoodBPM : Q }.

(** The buzzer: the two globals and the level last written to
    [BUZZER_PIN] ([true] is HIGH). *)
Record Buzzer : Type := mkBuzzer {
  buzzerCycleStart : Z;
  buzzerOn : bool;
  pin : bool }.

Record State : Type := mkState {
  filt : Filter;
  beats : Beats;
  rates : Rates;
  lastJitter : Z;
  drift : Q;
  bodyTemp : Q;
  buzz : Buzzer;
  status : StatusCode }.

(** State after [setup()]: [BUZZER_PIN] is written LOW. *)
Definition init : State :=
  {| filt := mkFilter 0 1 (replicate SMOOTH_WIN 0%Z) 0 false 0 0 0 0;
     beats := mkBeats 0 0 (replicate 16 0%Q) 0 0;
     rates := mkRates (replicate BPM_MEDIAN_WINDOW 0%Q) 0 0
                      (replicate BPM_AVG_WINDOW 0%Q) 0 0 0;
     lastJitter := 0;
     drift := 0;
     bodyTemp := 0;
     buzz := mkBuzzer 0 false false;
     status := ST_NO_SENSOR |}.

Definition driftAlpha : Q := 995 # 1000.
Definition noiseLevel : Q := 6.
Definition BPM_ALERT_LOW : Q := 50.
Definition BPM_ALERT_HIGH : Q := 120.
Definition TEMP_LOW_LIMIT : Q := 35.
Definition TEMP_HIGH_LIMIT : Q := 38.
Definition BUZZ_PERIOD_MS : Z := 1000.
Definition BUZZ_ON_MS : Z := 200.

(** The value DallasTemperature.h gives [DEVICE_DISCONNECTED_C]. *)
Definition DEVICE_DISCONNECTED_C : Q := - (127).

(** What a tick reads beyond the reads of the pulse pipeline. *)
Record Reads : Type := mkReads {
  pulse : Input;
  tFallback : Z;    (* millis() in the FALLBACK test *)
  tempC : Q;        (* sensors.getTempCByIndex(0) *)
  tBuzzer : Z }.    (* millis() inside handleBuzzer *)

(** [return (float)s / n]: [n] is at least 1 here. *)
Definition smoothAvg (f : Filter) (v : Z) : Filter * Q :=
  let buf := <[smoothPos f := v]> (smoothBuf f) in
  let pos := S (smoothPos f) in
  let wrap := (SMOOTH_WIN <=? pos)%nat in
  let pos' := if wrap then 0%nat else pos in
  let filled := if wrap then true else smoothFilled f in
  let n := if filled then SMOOTH_WIN else pos' in
  let s := sum_slotsZ buf n in
  (mkFilter (dc f) (gainEstimate f) buf pos' filled (rms f) (p2 f) (p1 f) (c f),
   (inject_Z s / inject_Z (Z.of_nat n))%Q).

Definition pushBeatInterval (b : Beats) (dt : Q) : Beats :=
  let a := <[beatIndex b := dt]> (beatIntervals b) in
  let i := S (beatIndex b) in
  mkBeats (lastBeatTime b) (lastValidBeatTime b) a
          (if (16 <=? i)%nat then 0%nat else i)
          (if (beatCount b <? 16)%nat then S (beatCount b) else beatCount b).

Definition computeBPM (b : Beats) : Q :=
  if (beatCount b =? 0)%nat then 0%Q
  else
    let s := sum_slots (beatIntervals b) (beatCount b) in
    (60000 / (s / inject_Z (Z.of_nat (beatCount b))))%Q.

Definition pushBPMHistory (r : Rates) (bpm : Q) : Rates :=
  let a := <[bpmHistIdx r := bpm]> (bpmHistory r) in
  let i := S (bpmHistIdx r) in
  mkRates a
          (if (BPM_MEDIAN_WINDOW <=? i)%nat then 0%nat else i)
          (if (bpmHistCount r <? BPM_MEDIAN_WINDOW)%nat
           then S (bpmHistCount r) else bpmHistCount r)
          (bpmAvgWindow r) (bpmAvgIdx r) (bpmAvgCount r)
          (lastGoodBPM r).

Definition pushBPMAvg (r : Rates) (bpm : Q) : Rates :=
  let a := <[bpmAvgIdx r := bpm]> (bpmAvgWindow r) in
  let i := S (bpmAvgIdx r) in
  mkRates (bpmHistory r) (bpmHistIdx r) (bpmHistCount r)
          a
          (if (BPM_AVG_WINDOW <=? i)%nat then 0%nat else i)
          (if (bpmAvgCount r <? BPM_AVG_WINDOW)%nat
           then S (bpmAvgCount r) else bpmAvgCount r)
          (lastGoodBPM r).

Definition avgBPM (r : Rates) : Q :=
  if (bpmAvgCount r =? 0)%nat then 0%Q
  else (sum_slots (bpmAvgWindow r) (bpmAvgCount r)
        / inject_Z (Z.of_nat (bpmAvgCount r)))%Q.

Definition plausibleInterval (dt : Q) : bool :=
  if Qle_bool dt 0 then false
  else
    let bpm := (60000 / dt)%Q in
    Qgeb bpm MIN_VALID_BPM && Qle_bool bpm MAX_VALID_BPM.

(** [handleBuzzer]; [now] is its own [millis()]. *)
Definition handleBuzzer (z : Buzzer) (alarm : bool) (now : Z) : Buzzer :=
  if negb alarm then mkBuzzer 0 false false
  else if (buzzerCycleStart z =? 0)%Z then mkBuzzer now true true
  else
    let dt := (usub now (buzzerCycleStart z) mod BUZZ_PERIOD_MS)%Z in
    if (dt <? BUZZ_ON_MS)%Z then
      if negb (buzzerOn z) then mkBuzzer (buzzerCycleStart z) true true else z
    else
      if buzzerOn z then mkBuzzer (buzzerCycleStart z) false false else z.

(** Lines 237-254: the conditioner and the peak test. *)
Definition conditioner (f : Filter) (raw : Z) : Filter * Q * bool :=
  let rawq := inject_Z raw in
  let dc' := (DC_ALPHA * dc f + (1 - DC_ALPHA) * rawq)%Q in
  let ac := (rawq - dc')%Q in
  let ge := ((1 - AUTO_GAIN_ALPHA) * gainEstimate f
             + AUTO_GAIN_ALPHA * fmaxQ 1 (Qabs ac))%Q in
  let gain := constrainQ (TARGET_P2P / fmaxQ 1 (ge * 2))%Q 1 MAX_GAIN in
  let '(f1, filtered) :=
    smoothAvg (mkFilter dc' ge (smoothBuf f) (smoothPos f) (smoothFilled f)
                        (rms f) (p2 f) (p1 f) (c f))
              (to_long (ac * gain)%Q) in
  let rms' := (RMS_ALPHA * rms f + (1 - RMS_ALPHA) * Qabs filtered)%Q in
  let threshold := fmaxQ 40 (rms' * PROMINENCE_MULT)%Q in
  let p2' := p1 f in
  let p1' := c f in
  let peak := Qgtb p1' p2' && Qgtb p1' filtered && Qgtb p1' threshold in
  (mkFilter dc' ge (smoothBuf f1) (smoothPos f1) (smoothFilled f1)
            rms' p2' p1' filtered,
   filtered, peak).

(** Lines 256-264; the list holds the argument of each [setLed] call. *)
Definition beat_gate (b : Beats) (peak : bool) (now : Z) : Beats * list bool :=
  if peak && (MIN_BEAT_MS <? usub now (lastBeatTime b))%Z then
    let dt : Q := inject_Z (usub now (lastBeatTime b)) in
    if (lastBeatTime b =? 0)%Z || plausibleInterval dt then
      let b1 := if negb (lastBeatTime b =? 0)%Z
                then pushBeatInterval b dt else b in
      (mkBeats now now (beatIntervals b1) (beatIndex b1) (beatCount b1),
       [false])
    else (b, [])
  else (b, [true]).

(** Lines 266-291: the new aggregator state, and [finalBPM], [conf] and
    the status assigned unless the tick returns early. *)
Definition accept_or_fallback (b : Beats) (r : Rates) (tFallback : Z)
  : Rates * option (Q * Q * StatusCode) :=
  let candidateBPM := computeBPM b in
  let valid :=
    Qgeb candidateBPM MIN_VALID_BPM && Qle_bool candidateBPM MAX_VALID_BPM in
  if valid then
    let r1 := pushBPMAvg (pushBPMHistory r candidateBPM) candidateBPM in
    let avg := avgBPM r1 in
    let med := medianBPM (bpmHistory r1) (bpmHistCount r1) in
    let finalBPM :=
      if Qgtb med 0 then ((6 # 10) * avg + (4 # 10) * med)%Q else avg in
    (mkRates (bpmHistory r1) (bpmHistIdx r1) (bpmHistCount r1)
             (bpmAvgWindow r1) (bpmAvgIdx r1) (bpmAvgCount r1) finalBPM,
     Some (finalBPM, 85 # 100, ST_OK))
  else if (usub tFallback (lastValidBeatTime b) <? FALLBACK_TIMEOUT_MS)%Z
  then (r, Some (lastGoodBPM r, 6 # 10, ST_FALLBACK))
  else (r, None).

(** Lines 294-300. *)
Definition hrv_jitter (lastJitter : Z) (finalBPM : Q) (i : Input) : Z * Q :=
  if (1400 <? usub (tJitter i) lastJitter)%Z then
    let jitter := fmaxQ 1 (finalBPM * (2 # 10))%Q in
    let r := arduino_random (to_long (- jitter * 100)%Q)
                            (to_long (jitter * 100)%Q) (rJitter i) in
    (tJitter' i,
     constrainQ (finalBPM + inject_Z r / 100)%Q MIN_VALID_BPM MAX_VALID_BPM)
  else (lastJitter, finalBPM).

(** Lines 303-306: the new [drift] and the varied sample. *)
Definition waveform_variation (drift : Q) (filtered : Q) (i : Input) : Q * Q :=
  let drift' := (driftAlpha * drift
                 + (1 - driftAlpha)
                   * inject_Z (arduino_random (-25) 26 (rDrift i)))%Q in
  let micro :=
    (inject_Z (arduino_random (to_long (- noiseLevel * 10)%Q)
                              (to_long (noiseLevel * 10)%Q) (rNoise i))
     / 10)%Q in
  let shape := (1 + inject_Z (arduino_random (-15) 16 (rShape i)) / 100)%Q in
  (drift', (filtered * shape + drift' + micro)%Q).

(** Lines 309-311. *)
Definition read_temperature (t : Q) : Q :=
  if Qeq_bool t DEVICE_DISCONNECTED_C then (- (100))%Q else t.

(** Lines 314-316. *)
Definition alarm_of (finalBPM bodyTemp : Q) : bool :=
  (Qltb finalBPM BPM_ALERT_LOW || Qgtb finalBPM BPM_ALERT_HIGH)
  || (Qltb bodyTemp TEMP_LOW_LIMIT || Qgtb bodyTemp TEMP_HIGH_LIMIT).

(** What one call of [loop()] prints: ["0,0,0,0,CALCULATING"] or the
    five-column line. *)
Inductive Line : Type :=
| Calculating5
| Report5 (filtered finalBPM conf temp : Q) (st : StatusCode).

Record Tick : Type := mkTick {
  next : State;
  leds : list bool;
  printed : Line }.

(** One call of [loop()]. *)
Definition loop (s : State) (i : Reads) : Tick :=
  if (raw (pulse i) <? 30)%Z then
    mkTick (mkState (filt s) (beats s) (rates s) (lastJitter s) (drift s)
                    (bodyTemp s) (handleBuzzer (buzz s) false (tBuzzer i))
                    (status s))
           [] Calculating5
  else
    let '(f, filtered, peak) := conditioner (filt s) (raw (pulse i)) in
    let '(b, l) := beat_gate (beats s) peak (now (pulse i)) in
    match accept_or_fallback b (rates s) (tFallback i) with
    | (r, None) =>
        mkTick (mkState f b r (lastJitter s) (drift s) (bodyTemp s)
                        (handleBuzzer (buzz s) false (tBuzzer i)) (status s))
               l Calculating5
    | (r, Some (finalBPM, conf, st)) =>
        let '(lj, finalBPM') := hrv_jitter (lastJitter s) finalBPM (pulse i) in
        let '(drift', filtered') :=
          waveform_variation (drift s) filtered (pulse i) in
        let temp := read_temperature (tempC i) in
        let alarm := alarm_of finalBPM' temp in
        mkTick (mkState f b r lj drift' temp
                        (handleBuzzer (buzz s) alarm (tBuzzer i)) st)
               l (Report5 filtered' finalBPM' conf temp st)
    end.

(** The integers printed: [(int)finalBPM], [(int)(conf*100)]. *)
Definition bpmInt (finalBPM : Q) : Z := to_long finalBPM.
Definition confPct (conf : Q) : Z := to_long (conf * 100)%Q.

Definition final (s : State) (ins : list Reads) : State :=
  fold_left (fun s i => next (loop s i)) ins s.

Inductive reachable : State -> Prop :=
| reach_init : reachable init
| reach_tick s i : reachable s -> reachable (next (loop s i)).

(** The buzzer under a standing alarm: one [handleBuzzer(true)] per
    element of [ts], the [millis()] it reads. *)
Definition alarm_run (z : Buzzer) (ts : list Z) : Buzzer :=
  fold_left (fun z t => handleBuzzer z true t) ts z.

End Finalpulseandbuzzer.

(** ** The ring discipline of the three push functions

    Each ring is an array, a write cursor and a fill count. *)
Definition Ring : Type := list Q * nat * nat.

Definition ring_push (cap : nat) (r : Ring) (v : Q) : Ring :=
  let '(a, i, n) := r in
  (<[i := v]> a,
   if (cap <=? S i)%nat then 0%nat else S i,
   if (n <? cap)%nat then S n else n).

(** The occupied slots read from the cursor on: oldest value first. *)
Definition ring_chrono (r : Ring) : list Q :=
  let '(a, i, n) := r in drop i (take n a) ++ take i a.

(** The [cap] most recent of the values [vs], oldest first. *)
Definition recent (cap : nat) (vs : list Q) : list Q :=
  drop (length vs - cap) vs.

(** Cursor inside the array, count bounded, and the cursor follows the
    count until the ring is full. *)
Definition ring_wf (cap : nat) (r : Ring) : Prop :=
  let '(a, i, n) := r in
  length a = cap /\ (i < cap)%nat /\ (n <= cap)%nat /\ ((n < cap)%nat -> i = n).

Definition beat_ring (b : Espbpm.Beats) : Ring :=
  (Espbpm.beatIntervals b, Espbpm.beatIndex b, Espbpm.beatCount b).

Definition hist_ring (r : Espbpm.Rates) : Ring :=
  (Espbpm.bpmHistory r, Espbpm.bpmHistIdx r, Espbpm.bpmHistCount r).

Definition avg_ring (r : Espbpm.Rates) : Ring :=
  (Espbpm.bpmAvgWindow r, Espbpm.bpmAvgIdx r, Espbpm.bpmAvgCount r).

(** ** Positions in a sorted window

    Zero-based positions in the sorted order of [n] values: for odd [n]
    both are the middle; for even [n] the two middle values sit at
    [lower_middle n] and [upper_middle n = lower_middle n + 1]. *)
Definition lower_middle (n : nat) : nat := ((n - 1) / 2)%nat.
Definition upper_middle (n : nat) : nat := (n / 2)%nat.

(** ** Invariants of the Espbpm state *)

(** Every slot below the fill count satisfies [P]. *)
Definition occupied (P : Q -> Prop) (r : Ring) : Prop :=
  Forall P (take r.2 r.1.1).

(** An interval in milliseconds whose rate is in the validity window. *)
Definition plausible_ms (x : Q) : Prop :=
  (0 < x)%Q /\ valid_bpm (60000 / x).

Definition beats_inv (b : Espbpm.Beats) : Prop :=
  ring_wf 16 (beat_ring b) /\ occupied plausible_ms (beat_ring b).

Definition rates_inv (r : Espbpm.Rates) : Prop :=
  ring_wf BPM_MEDIAN_WINDOW (hist_ring r)
  /\ occupied valid_bpm (hist_ring r)
  /\ ring_wf BPM_AVG_WINDOW (avg_ring r)
  /\ occupied valid_bpm (avg_ring r)
  /\ ((0 < Espbpm.lastGoodBPM r)%Q -> valid_bpm (Espbpm.lastGoodBPM r)).

Definition state_inv (s : Espbpm.State) : Prop :=
  beats_inv (Espbpm.beats s)
  /\ rates_inv (Espbpm.rates s)
  /\ ((0 < Espbpm.lastGoodBPM (Espbpm.rates s))%Q ->
      (0 < Espbpm.beatCount (Espbpm.beats s))%nat).

(** ** Worked executions *)

(** Inputs for worked examples: every clock read of the tick returns [t]
    and the generator returns [0]. *)
Definition sample (r t : Z) : Input := mkInput r t t t 0 0 0 0.

(** The state after the first sample, before any beat. *)
Definition Espbpm_cold : Espbpm.State :=
  Espbpm.final Espbpm.init [sample 100 1000].

Definition Pulsebyuno_cold : Pulsebyuno.State :=
  Pulsebyuno.final Pulsebyuno.init [sample 100 1000].

(** Four ticks after power-on: a first peak is registered at 1020 ms and
    the sample at 2000 ms sets up a second one. *)
Definition warm_up : list Input :=
  [sample 100 1000; sample 30 1020; sample 100 1040; sample 100 2000].

Definition Espbpm_warm : Espbpm.State := Espbpm.final Espbpm.init warm_up.

Definition Pulsebyuno_warm : Pulsebyuno.State :=
  Pulsebyuno.final Pulsebyuno.init warm_up.

(** Ten ticks, 20 ms apart, with raw = 20. *)
Definition ten_low : list Input :=
  map (fun k => sample 20 (3000 + 20 * Z.of_nat k)) (seq 0 10).

(** Seventeen values, one more than the largest ring holds. *)
Definition one_to_17 : list Q := map inject_Z (map Z.of_nat (seq 1 17)).

(** A median window holding two readings, 60 then 80. *)
Definition two_readings : Espbpm.Rates :=
  Espbpm.mkRates [60%Q; 80%Q; 0%Q; 0%Q; 0%Q] 2 2
                 (replicate BPM_AVG_WINDOW 0%Q) 0 0 0 0.




(** Pulsebyuno: the ticks after the first one at 50 ms, with the finger
    taken off; the finger branch waits 100 ms. *)
Definition ten_absent : list Input :=
  map (fun k => sample 20 (70 + 100 * Z.of_nat k)) (seq 0 10).

(** ** The median as the specification words it *)

(** The median as the specification words it: whatever sorted
    arrangement [l] of the occupied slots one takes, [medianBPM] is its
    middle element, the lower of the two middle ones for an even count. *)
Definition median_is_lower_middle : Prop :=
  forall (r : Espbpm.Rates) (l : list Q),
    let n := Espbpm.bpmHistCount r in
    (0 < n <= length (Espbpm.bpmHistory r))%nat ->
    l ≡ₚ take n (Espbpm.bpmHistory r) ->
    Sorted Qle l ->
    Espbpm.medianBPM r = l !!! lower_middle n.

(** ** The smoothing ring

    [smoothBuf], its write cursor and the [smoothFilled] flag, as both
    sketches keep them; the window is what the summation loop of
    [smoothAvg] covers, oldest sample first. *)
Definition SmoothRing : Type := list Z * nat * bool.

Definition smooth_window (r : SmoothRing) : list Z :=
  let '(a, i, filled) := r in
  if filled then drop i a ++ take i a else take i a.

Definition Espbpm_smooth_ring (f : Espbpm.Filter) : SmoothRing :=
  (Espbpm.smoothBuf f, Espbpm.smoothPos f, Espbpm.smoothFilled f).

Definition Pulsebyuno_smooth_ring (f : Pulsebyuno.Filter) : SmoothRing :=
  (Pulsebyuno.smoothBuf f, Pulsebyuno.smoothPos f, Pulsebyuno.smoothFilled f).

(** The array has its five slots and the cursor is inside it. *)
Definition smooth_wf (r : SmoothRing) : Prop :=
  length r.1.1 = SMOOTH_WIN /\ (r.1.2 < SMOOTH_WIN)%nat.

(** Feeding the samples [vs] to [smoothAvg], one call each. *)
Definition Espbpm_smoothed (f : Espbpm.Filter) (vs : list Z) : Espbpm.Filter :=
  fold_left (fun f v => (Espbpm.smoothAvg f v).1) vs f.

Definition Pulsebyuno_smoothed (f : Pulsebyuno.Filter) (vs : list Z)
  : Pulsebyuno.Filter :=
  fold_left (fun f v => (Pulsebyuno.smoothAvg f v).1) vs f.

Definition sumZ (l : list Z) : Z := fold_right Z.add 0%Z l.

(** The arithmetic mean of a list of longs, as a float. *)
Definition meanZ (l : list Z) : Q :=
  (inject_Z (sumZ l) / inject_Z (Z.of_nat (length l)))%Q.

(** ** The range of the conditioner's state

    With the ADC reading in [0, M] ([analogRead] returns 0..1023 on the
    ESP8266): the DC estimate stays in the ADC range, the gain estimate
    does not fall below 1, the running magnitude is not negative, and
    every long in the smoothing ring is at most [MAX_GAIN * M] in
    magnitude. *)
Definition Espbpm_filter_in_range (M : Z) (f : Espbpm.Filter) : Prop :=
  (0 <= Espbpm.dc f /\ Espbpm.dc f <= inject_Z M)%Q
  /\ (1 <= Espbpm.gainEstimate f)%Q
  /\ (0 <= Espbpm.rms f)%Q
  /\ smooth_wf (Espbpm_smooth_ring f)
  /\ Forall (fun x => (Z.abs x <= 100 * M)%Z) (Espbpm.smoothBuf f).

(** ** Counting in a window

    The number of elements of [l] that pass the test [f]. *)
Fixpoint countb (f : Q -> bool) (l : list Q) : nat :=
  match l with
  | [] => 0
  | x :: l' => (if f x then 1 else 0) + countb f l'
  end.

(** Ascending order, by positions. *)
Definition ascending (l : list Q) : Prop :=
  forall a b : nat, (a < b < length l)%nat -> (l !!! a <= l !!! b)%Q.

(** ** The average window of Pulsebyuno

    The ring behind [finalBPM] in Pulsebyuno, and what holds of it and
    of [lastGoodBPM] in every state: the ring is well formed, its
    occupied slots are in the validity window, and [lastGoodBPM] is
    still the initial 0 or lies in the window. *)
Definition Pulsebyuno_avg_ring (r : Pulsebyuno.Rates) : Ring :=
  (Pulsebyuno.bpmAvgWindow r, Pulsebyuno.bpmAvgIdx r, Pulsebyuno.bpmAvgCount r).

Definition Pulsebyuno_rates_inv (r : Pulsebyuno.Rates) : Prop :=
  ring_wf BPM_AVG_WINDOW (Pulsebyuno_avg_ring r)
  /\ occupied valid_bpm (Pulsebyuno_avg_ring r)
  /\ (Pulsebyuno.lastGoodBPM r = 0%Q \/ valid_bpm (Pulsebyuno.lastGoodBPM r)).

(** ** Invariants of the Pulsebyuno and Finalpulseandbuzzer states

    The interval ring is well formed and holds plausible intervals, and
    [lastGoodBPM] keeps its initial 0 as long as no interval is
    stored. *)
Definition Pulsebyuno_beat_ring (b : Pulsebyuno.Beats) : Ring :=
  (Pulsebyuno.beatIntervals b, Pulsebyuno.beatIndex b, Pulsebyuno.beatCount b).

Definition Pulsebyuno_state_inv (s : Pulsebyuno.State) : Prop :=
  ring_wf 16 (Pulsebyuno_beat_ring (Pulsebyuno.beats s))
  /\ occupied plausible_ms (Pulsebyuno_beat_ring (Pulsebyuno.beats s))
  /\ (Pulsebyuno.beatCount (Pulsebyuno.beats s) = 0%nat ->
      Pulsebyuno.lastGoodBPM (Pulsebyuno.rates s) = 0%Q).

Definition Finalpulseandbuzzer_beat_ring (b : Finalpulseandbuzzer.Beats)
  : Ring :=
  (Finalpulseandbuzzer.beatIntervals b, Finalpulseandbuzzer.beatIndex b,
   Finalpulseandbuzzer.beatCount b).

Definition Finalpulseandbuzzer_state_inv (s : Finalpulseandbuzzer.State)
  : Prop :=
  ring_wf 16 (Finalpulseandbuzzer_beat_ring (Finalpulseandbuzzer.beats s))
  /\ occupied plausible_ms
       (Finalpulseandbuzzer_beat_ring (Finalpulseandbuzzer.beats s))
  /\ (Finalpulseandbuzzer.beatCount (Finalpulseandbuzzer.beats s) = 0%nat ->
      Finalpulseandbuzzer.lastGoodBPM (Finalpulseandbuzzer.rates s) = 0%Q).

(** The smoothing ring of Finalpulseandbuzzer. *)
Definition Finalpulseandbuzzer_smooth_ring (f : Finalpulseandbuzzer.Filter)
  : SmoothRing :=
  (Finalpulseandbuzzer.smoothBuf f, Finalpulseandbuzzer.smoothPos f,
   Finalpulseandbuzzer.smoothFilled f).

Definition Finalpulseandbuzzer_smoothed (f : Finalpulseandbuzzer.Filter)
  (vs : list Z) : Finalpulseandbuzzer.Filter :=
  fold_left (fun f v => (Finalpulseandbuzzer.smoothAvg f v).1) vs f.

(** The number of slots the summation loop of [smoothAvg] covers, which
    is what Finalpulseandbuzzer divides by. *)
Definition smooth_divisor (r : SmoothRing) : nat :=
  let '(_, i, filled) := r in if filled then SMOOTH_WIN else i.

(** * Properties *)

(** ** Proof steps shared by the two sketches *)

Ltac unfold_gate :=
  first [progress unfold Espbpm.beat_gate
        | progress unfold Pulsebyuno.beat_gate].

(** The refractory test decided from a bound on [now - lastBeatTime]. *)
Ltac decide_gate v H :=
  match goal with
  | |- context [(MIN_BEAT_MS <? ?x)%Z] =>
      replace (MIN_BEAT_MS <? x)%Z with v
        by (symmetry; first [apply Z.ltb_ge | apply Z.ltb_lt];
            unfold MIN_BEAT_MS in *; first [exact H | lia])
  end.

Ltac gate_closed_tac :=
  let H := fresh "H" in
  intros H; unfold_gate; decide_gate false H; now rewrite andb_false_r.

Ltac gate_flash_tac :=
  unfold_gate;
  match goal with
  | |- context [if ?peak && (MIN_BEAT_MS <? ?x)%Z then _ else _] =>
      destruct peak; simpl;
      [| split; [discriminate | intros [? _]; discriminate]];
      let G := fresh "G" in
      destruct (MIN_BEAT_MS <? x)%Z eqn:G;
      [apply Z.ltb_lt in G | apply Z.ltb_ge in G; split; [discriminate | lia]]
  end;
  match goal with
  | |- context [(?l =? 0)%Z] =>
      let Z0 := fresh "Z0" in
      destruct (l =? 0)%Z eqn:Z0; simpl;
      [apply Z.eqb_eq in Z0; tauto | apply Z.eqb_neq in Z0]
  end;
  match goal with
  | |- context [if ?p then _ else _] =>
      let P := fresh "P" in
      destruct p eqn:P; simpl;
      [tauto | split; [discriminate | intros (_ & _ & [? | ?]); congruence]]
  end.

Ltac gate_anchor_tac :=
  unfold_gate;
  destruct (_ && _); [| discriminate];
  destruct (_ || _); [| discriminate];
  intros [= <-]; auto.

Ltac gate_first_tac :=
  let H := fresh "H" in
  intros H; unfold_gate; rewrite H; simpl; now destruct (_ && _).

(** ** Comparisons and the validity window *)

Lemma Qltb_lt (a b : Q) : Qltb a b = true <-> (a < b)%Q.
Proof.
  unfold Qltb. rewrite negb_true_iff, <- not_true_iff_false, Qle_bool_iff.
  split; [apply Qnot_le_lt | apply Qlt_not_le].
Qed.

Lemma Qgtb_gt (a b : Q) : Qgtb a b = true <-> (b < a)%Q.
Proof. apply Qltb_lt. Qed.

Lemma Qgeb_ge (a b : Q) : Qgeb a b = true <-> (b <= a)%Q.
Proof. apply Qle_bool_iff. Qed.

Lemma valid_bpm_test (b : Q) :
  Qgeb b MIN_VALID_BPM && Qle_bool b MAX_VALID_BPM = true <-> valid_bpm b.
Proof.
  unfold valid_bpm. rewrite andb_true_iff, Qgeb_ge, Qle_bool_iff. tauto.
Qed.

(** A rate [60000/dt] of a whole number of milliseconds lies in the
    window exactly when [300 <= dt <= 1714]. *)
Lemma valid_bpm_interval (d : Z) :
  valid_bpm (60000 / inject_Z d) <-> (300 <= d <= 1714)%Z.
Proof.
  unfold valid_bpm, MIN_VALID_BPM, MAX_VALID_BPM.
  destruct (Z.lt_trichotomy d 0) as [Hn | [-> | Hp]].
  - split; [| lia]. intros [H _]. exfalso.
    assert (Hd : (inject_Z d < 0)%Q) by (rewrite Zlt_Qlt in Hn; exact Hn).
    assert (Hi : (/ inject_Z d < 0)%Q).
    { destruct d; try lia. reflexivity. }
    unfold Qdiv in H. nra.
  - split; [| lia]. intros [H _]. exfalso. vm_compute in H. apply H. reflexivity.
  - assert (Hd : (0 < inject_Z d)%Q) by (rewrite Zlt_Qlt in Hp; exact Hp).
    rewrite <- (Qmult_le_r _ _ _ Hd), <- (Qmult_le_r (60000 / inject_Z d) _ _ Hd).
    assert (E : (60000 / inject_Z d * inject_Z d == 60000)%Q).
    { field. intros E. rewrite E in Hd. discriminate. }
    rewrite E. clear E.
    change 35%Q with (inject_Z 35). change 200%Q with (inject_Z 200).
    change 60000%Q with (inject_Z 60000).
    rewrite <- !inject_Z_mult, <- !Zle_Qle. lia.
Qed.

Lemma inject_Z_nonpos (d : Z) : Qle_bool (inject_Z d) 0 = true <-> (d <= 0)%Z.
Proof. rewrite Qle_bool_iff. change 0%Q with (inject_Z 0). now rewrite <- Zle_Qle. Qed.

Lemma Qle_bool_false (a b : Q) : Qle_bool a b = false <-> (b < a)%Q.
Proof.
  rewrite <- not_true_iff_false, Qle_bool_iff.
  split; [apply Qnot_le_lt | apply Qlt_not_le].
Qed.

(** ** The interval validator *)

Lemma Espbpm_plausible_iff (d : Z) :
  Espbpm.plausibleInterval (inject_Z d) = true <-> (300 <= d <= 1714)%Z.
Proof.
  unfold Espbpm.plausibleInterval.
  destruct (Qle_bool (inject_Z d) 0) eqn:E.
  - apply inject_Z_nonpos in E. split; [discriminate | lia].
  - rewrite valid_bpm_test. apply valid_bpm_interval.
Qed.

Lemma Pulsebyuno_plausible_iff (d : Z) :
  Pulsebyuno.plausibleInterval (inject_Z d) = true <-> (300 <= d <= 1714)%Z.
Proof.
  unfold Pulsebyuno.plausibleInterval.
  rewrite valid_bpm_test. apply valid_bpm_interval.
Qed.

(** ** What [loop()] does around the beat block *)

Section EspbpmLoop.
Import Espbpm.

Lemma Espbpm_emit_frame s i f filtered b l :
  filt (next (emit s i f filtered b l)) = f
  /\ beats (next (emit s i f filtered b l)) = b
  /\ leds (emit s i f filtered b l) = l.
Proof.
  unfold emit.
  destruct (accept_or_fallback b (rates s) (now i)) as [[r st] [[fb cf] |]];
    [destruct (hrv_jitter (vary s) fb i) as [v1 fb'];
     destruct (waveform_variation v1 filtered i) as [v2 filtered'] |];
    simpl; auto.
Qed.

Lemma Espbpm_loop_live s i :
  (raw i <? 30)%Z = false ->
  loop s i =
  emit s i (conditioner (filt s) (raw i)).1.1 (conditioner (filt s) (raw i)).1.2
       (beat_gate (beats s) (conditioner (filt s) (raw i)).2 (now i)).1
       (beat_gate (beats s) (conditioner (filt s) (raw i)).2 (now i)).2.
Proof.
  intros H. unfold loop. rewrite H.
  destruct (conditioner (filt s) (raw i)) as [[f filtered] peak]. simpl.
  destruct (beat_gate (beats s) peak (now i)) as [b l]. reflexivity.
Qed.

(** The beat state and the LED calls of a tick are those of the beat
    block, or nothing at all on a tick that stops at the finger test. *)
Lemma Espbpm_loop_beats s i :
  (beats (next (loop s i)), leds (loop s i)) =
  if (raw i <? 30)%Z then (beats s, [true])
  else beat_gate (beats s) (conditioner (filt s) (raw i)).2 (now i).
Proof.
  destruct (raw i <? 30)%Z eqn:H.
  - unfold loop. rewrite H. reflexivity.
  - rewrite (Espbpm_loop_live _ _ H).
    destruct (Espbpm_emit_frame s i (conditioner (filt s) (raw i)).1.1
                (conditioner (filt s) (raw i)).1.2
                (beat_gate (beats s) (conditioner (filt s) (raw i)).2 (now i)).1
                (beat_gate (beats s) (conditioner (filt s) (raw i)).2 (now i)).2)
      as (_ & -> & ->).
    now destruct (beat_gate _ _ _).
Qed.

(** The gate closed: nothing but [setLed(true)] happens. *)
Lemma Espbpm_gate_closed b peak t :
  (usub t (lastBeatTime b) <= MIN_BEAT_MS)%Z ->
  beat_gate b peak t = (b, [true]).
Proof.
  gate_closed_tac.
Qed.

(** A flash of the LED is an accepted beat: peak, open gate, and either
    the anchoring case or a plausible interval. *)
Lemma Espbpm_gate_flash b peak t :
  (beat_gate b peak t).2 = [false] <->
  peak = true /\ (MIN_BEAT_MS < usub t (lastBeatTime b))%Z
  /\ (lastBeatTime b = 0%Z
      \/ plausibleInterval (inject_Z (usub t (lastBeatTime b))) = true).
Proof.
  gate_flash_tac.
Qed.

End EspbpmLoop.

Section PulsebyunoLoop.
Import Pulsebyuno.

Lemma Pulsebyuno_emit_frame s i f filtered b l :
  filt (next (emit s i f filtered b l)) = f
  /\ beats (next (emit s i f filtered b l)) = b
  /\ leds (emit s i f filtered b l) = l.
Proof.
  unfold emit.
  destruct (accept_or_fallback b (rates s) (now i)) as [[r st] [[fb cf] |]];
    [destruct (hrv_jitter (lastJitter s) fb i) as [lj fb'] |];
    simpl; auto.
Qed.

Lemma Pulsebyuno_loop_beats s i :
  (beats (next (loop s i)), leds (loop s i)) =
  if (raw i <? 30)%Z then (beats s, [true])
  else beat_gate (beats s) (conditioner (filt s) (raw i)).2 (now i).
Proof.
  unfold loop. destruct (raw i <? 30)%Z; [reflexivity |].
  destruct (conditioner (filt s) (raw i)) as [[f filtered] peak]. simpl.
  destruct (beat_gate (beats s) peak (now i)) as [b l].
  now destruct (Pulsebyuno_emit_frame s i f filtered b l) as (_ & -> & ->).
Qed.

Lemma Pulsebyuno_gate_closed b peak t :
  (usub t (lastBeatTime b) <= MIN_BEAT_MS)%Z ->
  beat_gate b peak t = (b, [true]).
Proof.
  gate_closed_tac.
Qed.

Lemma Pulsebyuno_gate_flash b peak t :
  (beat_gate b peak t).2 = [false] <->
  peak = true /\ (MIN_BEAT_MS < usub t (lastBeatTime b))%Z
  /\ (lastBeatTime b = 0%Z
      \/ plausibleInterval (inject_Z (usub t (lastBeatTime b))) = true).
Proof.
  gate_flash_tac.
Qed.

End PulsebyunoLoop.

(** ** Interval validation (Espbpm) *)

Section IntervalValidator.
Import Espbpm.

(** C2. A peak whose interval [dt] to the last accepted beat gives a rate
    [60000/dt] outside [35, 200] changes nothing in the beat state (ring,
    cursor, count, both timestamps), flashes no beat, and the tick goes on
    to print exactly what it prints for a sample without a peak; a peak
    whose rate is inside [35, 200] is accepted: [dt] is written into the
    slot under the cursor and no other slot changes, the cursor moves on
    by one modulo 16, the fill count grows by one up to 16, and both
    timestamps become [now]. *)
Theorem implausible_interval_discarded (s : State) (i : Input)
  (Hfinger : (raw i <? 30)%Z = false)
  (Hpeak : (conditioner (filt s) (raw i)).2 = true)
  (Hprev : lastBeatTime (beats s) <> 0%Z) :
  let b := beats s in
  let dt := inject_Z (usub (now i) (lastBeatTime b)) in
  let t := loop s i in
  let quiet := emit s i (conditioner (filt s) (raw i)).1.1
                    (conditioner (filt s) (raw i)).1.2 b [true] in
  (~ valid_bpm (60000 / dt) ->
     beats (next t) = b /\ leds t <> [false]
     /\ next t = next quiet /\ printed t = printed quiet)
  /\ (valid_bpm (60000 / dt) ->
     beats (next t) =
       mkBeats (now i) (now i) (beatIntervals (pushBeatInterval b dt))
               (beatIndex (pushBeatInterval b dt))
               (beatCount (pushBeatInterval b dt))
     /\ beatIntervals (beats (next t)) = <[beatIndex b := dt]> (beatIntervals b)
     /\ leds t = [false]
     /\ lastBeatTime (beats (next t)) = now i
     /\ lastValidBeatTime (beats (next t)) = now i
     /\ ((beatIndex b < length (beatIntervals b))%nat ->
         beatIntervals (beats (next t)) !! beatIndex b = Some dt)
     /\ (forall j : nat, j <> beatIndex b ->
         beatIntervals (beats (next t)) !! j = beatIntervals b !! j)
     /\ ((beatIndex b < 16)%nat ->
         beatIndex (beats (next t)) = (S (beatIndex b) mod 16)%nat)
     /\ ((beatCount b <= 16)%nat ->
         beatCount (beats (next t)) = Nat.min (S (beatCount b)) 16)).
Proof.
  intros b dt t quiet.
  pose proof (Espbpm_loop_beats s i) as HB. rewrite Hfinger, Hpeak in HB.
  fold t b in HB.
  pose proof (Espbpm_gate_flash b true (now i)) as HF.
  pose proof (Espbpm_plausible_iff (usub (now i) (lastBeatTime b))) as HP.
  pose proof (valid_bpm_interval (usub (now i) (lastBeatTime b))) as HV.
  fold dt in HP, HV.
  split; intros Hv.
  - assert (Hno : (beat_gate b true (now i)).2 <> [false]).
    { rewrite HF. intros (_ & _ & [? | ?]); [contradiction | tauto]. }
    assert (Hsame : (beat_gate b true (now i)).1 = b).
    { revert Hno. unfold beat_gate. simpl.
      destruct (MIN_BEAT_MS <? usub (now i) (lastBeatTime b))%Z; [| reflexivity].
      destruct (lastBeatTime b =? 0)%Z; simpl; [congruence |].
      destruct (plausibleInterval _); simpl; congruence. }
    rewrite (surjective_pairing (beat_gate b true (now i))) in HB.
    injection HB as HB1 HB2. rewrite Hsame in HB1.
    split; [exact HB1 |]. split; [congruence |].
    subst t. rewrite (Espbpm_loop_live _ _ Hfinger), Hpeak. fold b.
    rewrite Hsame. unfold quiet, emit.
    destruct (accept_or_fallback b (rates s) (now i)) as [[r st] [[fb cf] |]];
      [destruct (hrv_jitter (vary s) fb i) as [v1 fb'];
       destruct (waveform_variation v1 _ i) as [v2 filtered'] |];
      simpl; auto.
  - assert (Hd : (300 <= usub (now i) (lastBeatTime b) <= 1714)%Z) by tauto.
    assert (HG : beat_gate b true (now i) =
                 (mkBeats (now i) (now i) (beatIntervals (pushBeatInterval b dt))
                          (beatIndex (pushBeatInterval b dt))
                          (beatCount (pushBeatInterval b dt)), [false])).
    { unfold beat_gate. simpl.
      replace (MIN_BEAT_MS <? usub (now i) (lastBeatTime b))%Z with true
        by (symmetry; apply Z.ltb_lt; unfold MIN_BEAT_MS; lia).
      replace (lastBeatTime b =? 0)%Z with false
        by (symmetry; apply Z.eqb_neq; exact Hprev).
      simpl. fold dt. replace (plausibleInterval dt) with true by (symmetry; tauto).
      reflexivity. }
    rewrite HG in HB.
    pose proof (f_equal fst HB) as HB1. pose proof (f_equal snd HB) as HB2.
    cbn [fst snd] in HB1, HB2. rewrite HB1.
    cbn [beatIntervals beatIndex beatCount lastBeatTime lastValidBeatTime].
    unfold pushBeatInterval.
    cbn [beatIntervals beatIndex beatCount lastBeatTime lastValidBeatTime].
    split; [reflexivity |]. split; [reflexivity |]. split; [exact HB2 |].
    split; [reflexivity |]. split; [reflexivity |].
    split; [intros Hl; now apply list_lookup_insert_eq |].
    split; [intros j Hj; now apply list_lookup_insert_ne |].
    split.
    + intros Hi. destruct (Nat.leb_spec 16 (S (beatIndex b))) as [L | L].
      * replace (S (beatIndex b)) with 16%nat by lia. reflexivity.
      * symmetry. apply Nat.mod_small. exact L.
    + intros Hc. destruct (Nat.ltb_spec (beatCount b) 16); lia.
Qed.

Lemma implausible_interval_discarded_witness :
  ((raw (sample 30 2020) <? 30)%Z = false
   /\ (Espbpm.conditioner (Espbpm.filt Espbpm_warm) (raw (sample 30 2020))).2
      = true
   /\ Espbpm.lastBeatTime (Espbpm.beats Espbpm_warm) = 1020%Z)
  /\ (* 3020 ms: the interval 2000 is 30 beats a minute, discarded *)
     (Espbpm.beats (Espbpm.next (Espbpm.loop Espbpm_warm (sample 30 3020)))
      = Espbpm.beats Espbpm_warm
      /\ Espbpm.leds (Espbpm.loop Espbpm_warm (sample 30 3020)) <> [false])
  /\ (* 2020 ms: the interval 1000 is 60 beats a minute, stored *)
     (Espbpm.leds (Espbpm.loop Espbpm_warm (sample 30 2020)) = [false]
      /\ Espbpm.beatIntervals
           (Espbpm.beats (Espbpm.next (Espbpm.loop Espbpm_warm (sample 30 2020))))
         !! 0%nat = Some (inject_Z 1000)
      /\ Espbpm.beatIndex
           (Espbpm.beats (Espbpm.next (Espbpm.loop Espbpm_warm (sample 30 2020))))
         = 1%nat
      /\ Espbpm.beatCount
           (Espbpm.beats (Espbpm.next (Espbpm.loop Espbpm_warm (sample 30 2020))))
         = 1%nat
      /\ Espbpm.lastBeatTime
           (Espbpm.beats (Espbpm.next (Espbpm.loop Espbpm_warm (sample 30 2020))))
         = 2020%Z).
Proof.
  assert (H1 : (raw (sample 30 2020) <? 30)%Z = false) by reflexivity.
  assert (H2 : (Espbpm.conditioner (Espbpm.filt Espbpm_warm)
                  (raw (sample 30 2020))).2 = true)
    by (vm_compute; reflexivity).
  assert (H3 : Espbpm.lastBeatTime (Espbpm.beats Espbpm_warm) = 1020%Z)
    by (vm_compute; reflexivity).
  assert (H3' : Espbpm.lastBeatTime (Espbpm.beats Espbpm_warm) <> 0%Z)
    by (rewrite H3; discriminate).
  assert (I0 : Espbpm.beatIndex (Espbpm.beats Espbpm_warm) = 0%nat)
    by (vm_compute; reflexivity).
  assert (C0 : Espbpm.beatCount (Espbpm.beats Espbpm_warm) = 0%nat)
    by (vm_compute; reflexivity).
  assert (L0 : length (Espbpm.beatIntervals (Espbpm.beats Espbpm_warm))
               = 16%nat) by (vm_compute; reflexivity).
  split; [auto |]. split.
  - pose proof (proj1 (implausible_interval_discarded Espbpm_warm
                         (sample 30 3020) H1 H2 H3')) as D.
    cbv zeta in D. rewrite H3 in D.
    destruct D as (D1 & D2 & _).
    { intros [V _]. vm_compute in V. apply V. reflexivity. }
    split; assumption.
  - pose proof (proj2 (implausible_interval_discarded Espbpm_warm
                         (sample 30 2020) H1 H2 H3')) as A.
    cbv zeta in A. rewrite H3, I0, C0, L0 in A.
    destruct A as (_ & _ & A3 & A4 & _ & A6 & _ & A8 & A9).
    { split; vm_compute; discriminate. }
    split; [exact A3 |]. split; [apply A6; lia |].
    split; [apply A8; lia |]. split; [apply A9; lia | exact A4].
Defined.

End IntervalValidator.

(** ** The refractory gate and the first beat *)

Lemma Espbpm_tick_closed (s : Espbpm.State) (i : Input) :
  (usub (now i) (Espbpm.lastBeatTime (Espbpm.beats s)) <= MIN_BEAT_MS)%Z ->
  Espbpm.beats (Espbpm.next (Espbpm.loop s i)) = Espbpm.beats s
  /\ Espbpm.leds (Espbpm.loop s i) = [true].
Proof.
  intros H. pose proof (Espbpm_loop_beats s i) as HB.
  rewrite (Espbpm_gate_closed _ _ _ H) in HB.
  destruct (raw i <? 30)%Z; injection HB; auto.
Qed.

Lemma Pulsebyuno_tick_closed (s : Pulsebyuno.State) (i : Input) :
  (usub (now i) (Pulsebyuno.lastBeatTime (Pulsebyuno.beats s)) <= MIN_BEAT_MS)%Z ->
  Pulsebyuno.beats (Pulsebyuno.next (Pulsebyuno.loop s i)) = Pulsebyuno.beats s
  /\ Pulsebyuno.leds (Pulsebyuno.loop s i) = [true].
Proof.
  intros H. pose proof (Pulsebyuno_loop_beats s i) as HB.
  rewrite (Pulsebyuno_gate_closed _ _ _ H) in HB.
  destruct (raw i <? 30)%Z; injection HB; auto.
Qed.

(** A tick that flashes the beat has a finger on the sensor, and its beat
    block is the one that flashed. *)
Lemma Espbpm_tick_flash (s : Espbpm.State) (i : Input) :
  Espbpm.leds (Espbpm.loop s i) = [false] ->
  (raw i <? 30)%Z = false
  /\ Espbpm.beat_gate (Espbpm.beats s)
       (Espbpm.conditioner (Espbpm.filt s) (raw i)).2 (now i)
     = (Espbpm.beats (Espbpm.next (Espbpm.loop s i)), [false]).
Proof.
  intros H. pose proof (Espbpm_loop_beats s i) as HB. rewrite H in HB.
  destruct (raw i <? 30)%Z; [discriminate | auto].
Qed.

Lemma Pulsebyuno_tick_flash (s : Pulsebyuno.State) (i : Input) :
  Pulsebyuno.leds (Pulsebyuno.loop s i) = [false] ->
  (raw i <? 30)%Z = false
  /\ Pulsebyuno.beat_gate (Pulsebyuno.beats s)
       (Pulsebyuno.conditioner (Pulsebyuno.filt s) (raw i)).2 (now i)
     = (Pulsebyuno.beats (Pulsebyuno.next (Pulsebyuno.loop s i)), [false]).
Proof.
  intros H. pose proof (Pulsebyuno_loop_beats s i) as HB. rewrite H in HB.
  destruct (raw i <? 30)%Z; [discriminate | auto].
Qed.

(** An accepted beat moves the refractory clock to [now]. *)
Lemma Espbpm_gate_anchor b peak t b' :
  Espbpm.beat_gate b peak t = (b', [false]) ->
  Espbpm.lastBeatTime b' = t /\ Espbpm.lastValidBeatTime b' = t.
Proof.
  gate_anchor_tac.
Qed.

Lemma Pulsebyuno_gate_anchor b peak t b' :
  Pulsebyuno.beat_gate b peak t = (b', [false]) ->
  Pulsebyuno.lastBeatTime b' = t /\ Pulsebyuno.lastValidBeatTime b' = t.
Proof.
  gate_anchor_tac.
Qed.

Lemma Espbpm_quiet_ticks (s : Espbpm.State) (t0 : Z) (mid : list Input) :
  Espbpm.lastBeatTime (Espbpm.beats s) = t0 ->
  Forall (fun k => (usub (now k) t0 <= MIN_BEAT_MS)%Z) mid ->
  Espbpm.beats (Espbpm.final s mid) = Espbpm.beats s.
Proof.
  intros H0 HF. revert s H0.
  induction HF as [| k mid Hk _ IH]; intros s H0; [reflexivity |].
  simpl. rewrite <- H0 in Hk.
  destruct (Espbpm_tick_closed s k Hk) as [E _].
  unfold Espbpm.final in *. simpl. rewrite IH; [exact E | now rewrite E].
Qed.

Lemma Pulsebyuno_quiet_ticks (s : Pulsebyuno.State) (t0 : Z) (mid : list Input) :
  Pulsebyuno.lastBeatTime (Pulsebyuno.beats s) = t0 ->
  Forall (fun k => (usub (now k) t0 <= MIN_BEAT_MS)%Z) mid ->
  Pulsebyuno.beats (Pulsebyuno.final s mid) = Pulsebyuno.beats s.
Proof.
  intros H0 HF. revert s H0.
  induction HF as [| k mid Hk _ IH]; intros s H0; [reflexivity |].
  simpl. rewrite <- H0 in Hk.
  destruct (Pulsebyuno_tick_closed s k Hk) as [E _].
  unfold Pulsebyuno.final in *. simpl. rewrite IH; [exact E | now rewrite E].
Qed.

(** C6. In both sketches a peak is accepted as a beat only with
    [now - lastBeatTime > MIN_BEAT_MS]; with the gate closed the beat state
    is untouched. Hence when a tick [iA] registers a beat and a tick [iB]
    comes 40 ms later (whatever ticks lie between, all within the
    refractory period), [iB] registers nothing: the ring and the beat clock
    are those left by [iA]. *)
Theorem refractory_gate_single_beat
  (sE : Espbpm.State) (sP : Pulsebyuno.State)
  (iA iB : Input) (mid : list Input)
  (Hgap : usub (now iB) (now iA) = 40%Z)
  (Hmid : Forall (fun k => (usub (now k) (now iA) <= MIN_BEAT_MS)%Z) mid) :
  ((forall b peak t,
      ((Espbpm.beat_gate b peak t).2 = [false] ->
       peak = true /\ (MIN_BEAT_MS < usub t (Espbpm.lastBeatTime b))%Z)
      /\ ((usub t (Espbpm.lastBeatTime b) <= MIN_BEAT_MS)%Z ->
          Espbpm.beat_gate b peak t = (b, [true])))
   /\ (Espbpm.leds (Espbpm.loop sE iA) = [false] ->
       let sA := Espbpm.next (Espbpm.loop sE iA) in
       let tB := Espbpm.loop (Espbpm.final sA mid) iB in
       Espbpm.beats (Espbpm.next tB) = Espbpm.beats sA
       /\ Espbpm.leds tB = [true]))
  /\
  ((forall b peak t,
      ((Pulsebyuno.beat_gate b peak t).2 = [false] ->
       peak = true /\ (MIN_BEAT_MS < usub t (Pulsebyuno.lastBeatTime b))%Z)
      /\ ((usub t (Pulsebyuno.lastBeatTime b) <= MIN_BEAT_MS)%Z ->
          Pulsebyuno.beat_gate b peak t = (b, [true])))
   /\ (Pulsebyuno.leds (Pulsebyuno.loop sP iA) = [false] ->
       let sA := Pulsebyuno.next (Pulsebyuno.loop sP iA) in
       let tB := Pulsebyuno.loop (Pulsebyuno.final sA mid) iB in
       Pulsebyuno.beats (Pulsebyuno.next tB) = Pulsebyuno.beats sA
       /\ Pulsebyuno.leds tB = [true])).
Proof.
  split; split.
  - intros b peak t. split.
    + rewrite Espbpm_gate_flash. tauto.
    + apply Espbpm_gate_closed.
  - intros HA sA tB.
    destruct (Espbpm_tick_flash _ _ HA) as [_ HG].
    apply Espbpm_gate_anchor in HG. destruct HG as [HL _]. fold sA in HL.
    pose proof (Espbpm_quiet_ticks sA (now iA) mid HL Hmid) as HQ.
    destruct (Espbpm_tick_closed (Espbpm.final sA mid) iB) as [E1 E2].
    { rewrite HQ, HL, Hgap. unfold MIN_BEAT_MS. lia. }
    subst tB. rewrite E1, HQ. auto.
  - intros b peak t. split.
    + rewrite Pulsebyuno_gate_flash. tauto.
    + apply Pulsebyuno_gate_closed.
  - intros HA sA tB.
    destruct (Pulsebyuno_tick_flash _ _ HA) as [_ HG].
    apply Pulsebyuno_gate_anchor in HG. destruct HG as [HL _]. fold sA in HL.
    pose proof (Pulsebyuno_quiet_ticks sA (now iA) mid HL Hmid) as HQ.
    destruct (Pulsebyuno_tick_closed (Pulsebyuno.final sA mid) iB) as [E1 E2].
    { rewrite HQ, HL, Hgap. unfold MIN_BEAT_MS. lia. }
    subst tB. rewrite E1, HQ. auto.
Qed.

Lemma refractory_gate_single_beat_witness :
  (usub (now (sample 30 1060)) (now (sample 30 1020)) = 40%Z
   /\ Forall (fun k => (usub (now k) (now (sample 30 1020)) <= MIN_BEAT_MS)%Z)
             [sample 100 1040])
  /\ (* Espbpm: a peak at 1020 ms, registered, and a peak at 1060 ms *)
     (let sA := Espbpm.next (Espbpm.loop Espbpm_cold (sample 30 1020)) in
      let sB := Espbpm.final sA [sample 100 1040] in
      ((Espbpm.conditioner (Espbpm.filt Espbpm_cold) 30).2 = true
       /\ Espbpm.leds (Espbpm.loop Espbpm_cold (sample 30 1020)) = [false]
       /\ (Espbpm.conditioner (Espbpm.filt sB) 30).2 = true)
      /\ Espbpm.beats (Espbpm.next (Espbpm.loop sB (sample 30 1060)))
         = Espbpm.beats sA
      /\ Espbpm.leds (Espbpm.loop sB (sample 30 1060)) = [true]
      /\ Espbpm.lastBeatTime (Espbpm.beats sA) = 1020%Z
      /\ Espbpm.beatCount (Espbpm.beats sA) = 0%nat)
  /\ (* Pulsebyuno: the same two peaks *)
     (let sA := Pulsebyuno.next (Pulsebyuno.loop Pulsebyuno_cold (sample 30 1020)) in
      let sB := Pulsebyuno.final sA [sample 100 1040] in
      ((Pulsebyuno.conditioner (Pulsebyuno.filt Pulsebyuno_cold) 30).2 = true
       /\ Pulsebyuno.leds (Pulsebyuno.loop Pulsebyuno_cold (sample 30 1020))
          = [false]
       /\ (Pulsebyuno.conditioner (Pulsebyuno.filt sB) 30).2 = true)
      /\ Pulsebyuno.beats (Pulsebyuno.next (Pulsebyuno.loop sB (sample 30 1060)))
         = Pulsebyuno.beats sA
      /\ Pulsebyuno.leds (Pulsebyuno.loop sB (sample 30 1060)) = [true]).
Proof.
  assert (H1 : usub (now (sample 30 1060)) (now (sample 30 1020)) = 40%Z)
    by reflexivity.
  assert (H2 : Forall (fun k => (usub (now k) (now (sample 30 1020))
                                 <= MIN_BEAT_MS)%Z) [sample 100 1040])
    by (repeat constructor; vm_compute; discriminate).
  pose proof (refractory_gate_single_beat Espbpm_cold Pulsebyuno_cold
                (sample 30 1020) (sample 30 1060) [sample 100 1040] H1 H2)
    as [[_ TE] [_ TP]].
  assert (PE : (Espbpm.conditioner (Espbpm.filt Espbpm_cold) 30).2 = true
               /\ Espbpm.leds (Espbpm.loop Espbpm_cold (sample 30 1020))
                  = [false]
               /\ (Espbpm.conditioner
                     (Espbpm.filt
                        (Espbpm.final
                           (Espbpm.next
                              (Espbpm.loop Espbpm_cold (sample 30 1020)))
                           [sample 100 1040])) 30).2 = true)
    by (vm_compute; repeat split; reflexivity).
  assert (PP : (Pulsebyuno.conditioner (Pulsebyuno.filt Pulsebyuno_cold) 30).2
               = true
               /\ Pulsebyuno.leds
                    (Pulsebyuno.loop Pulsebyuno_cold (sample 30 1020))
                  = [false]
               /\ (Pulsebyuno.conditioner
                     (Pulsebyuno.filt
                        (Pulsebyuno.final
                           (Pulsebyuno.next
                              (Pulsebyuno.loop Pulsebyuno_cold
                                 (sample 30 1020)))
                           [sample 100 1040])) 30).2 = true)
    by (vm_compute; repeat split; reflexivity).
  split; [auto |]. split.
  - destruct (TE (proj1 (proj2 PE))) as [B L].
    split; [exact PE |]. split; [exact B |]. split; [exact L |].
    split; vm_compute; reflexivity.
  - destruct (TP (proj1 (proj2 PP))) as [B L].
    split; [exact PP |]. split; [exact B | exact L].
Defined.

(** The first beat: with [lastBeatTime == 0] the block never pushes. *)
Lemma Espbpm_gate_first b peak t :
  Espbpm.lastBeatTime b = 0%Z ->
  Espbpm.beat_gate b peak t =
  if peak && (MIN_BEAT_MS <? usub t 0)%Z
  then (Espbpm.mkBeats t t (Espbpm.beatIntervals b) (Espbpm.beatIndex b)
                       (Espbpm.beatCount b), [false])
  else (b, [true]).
Proof.
  gate_first_tac.
Qed.

Lemma Pulsebyuno_gate_first b peak t :
  Pulsebyuno.lastBeatTime b = 0%Z ->
  Pulsebyuno.beat_gate b peak t =
  if peak && (MIN_BEAT_MS <? usub t 0)%Z
  then (Pulsebyuno.mkBeats t t (Pulsebyuno.beatIntervals b)
                           (Pulsebyuno.beatIndex b)
                           (Pulsebyuno.beatCount b), [false])
  else (b, [true]).
Proof.
  gate_first_tac.
Qed.

(** C8. In both sketches a tick entered with [lastBeatTime == 0] stores no
    interval: ring, cursor and fill count are unchanged. The beat is
    accepted exactly when a peak passes the refractory gate (the validator
    has no say), and then [lastBeatTime] and [lastValidBeatTime] become
    [now]; otherwise the beat state is untouched. *)
Theorem first_beat_anchors_clock
  (sE : Espbpm.State) (sP : Pulsebyuno.State) (i : Input)
  (HE : Espbpm.lastBeatTime (Espbpm.beats sE) = 0%Z)
  (HP : Pulsebyuno.lastBeatTime (Pulsebyuno.beats sP) = 0%Z) :
  (let b := Espbpm.beats sE in
   let t := Espbpm.loop sE i in
   let b' := Espbpm.beats (Espbpm.next t) in
   Espbpm.beatIntervals b' = Espbpm.beatIntervals b
   /\ Espbpm.beatIndex b' = Espbpm.beatIndex b
   /\ Espbpm.beatCount b' = Espbpm.beatCount b
   /\ (Espbpm.leds t = [false] <->
       (raw i <? 30)%Z = false
       /\ (Espbpm.conditioner (Espbpm.filt sE) (raw i)).2 = true
       /\ (MIN_BEAT_MS < usub (now i) 0)%Z)
   /\ (Espbpm.leds t = [false] ->
       Espbpm.lastBeatTime b' = now i /\ Espbpm.lastValidBeatTime b' = now i)
   /\ (Espbpm.leds t <> [false] -> b' = b))
  /\
  (let b := Pulsebyuno.beats sP in
   let t := Pulsebyuno.loop sP i in
   let b' := Pulsebyuno.beats (Pulsebyuno.next t) in
   Pulsebyuno.beatIntervals b' = Pulsebyuno.beatIntervals b
   /\ Pulsebyuno.beatIndex b' = Pulsebyuno.beatIndex b
   /\ Pulsebyuno.beatCount b' = Pulsebyuno.beatCount b
   /\ (Pulsebyuno.leds t = [false] <->
       (raw i <? 30)%Z = false
       /\ (Pulsebyuno.conditioner (Pulsebyuno.filt sP) (raw i)).2 = true
       /\ (MIN_BEAT_MS < usub (now i) 0)%Z)
   /\ (Pulsebyuno.leds t = [false] ->
       Pulsebyuno.lastBeatTime b' = now i
       /\ Pulsebyuno.lastValidBeatTime b' = now i)
   /\ (Pulsebyuno.leds t <> [false] -> b' = b)).
Proof.
  split.
  - intros b t b'.
    pose proof (Espbpm_loop_beats sE i) as HB. fold t b b' in HB.
    rewrite (Espbpm_gate_first _ _ _ HE) in HB. fold b in HB.
    destruct (raw i <? 30)%Z.
    { injection HB as -> ->. repeat split; try congruence; try tauto.
      intros (? & _); discriminate. }
    destruct ((Espbpm.conditioner (Espbpm.filt sE) (raw i)).2); simpl in HB.
    2:{ injection HB as -> ->. repeat split; try congruence; try tauto.
        intros (_ & ? & _); discriminate. }
    destruct (MIN_BEAT_MS <? usub (now i) 0)%Z eqn:G.
    + apply Z.ltb_lt in G. injection HB as -> ->. simpl.
      repeat split; auto; congruence.
    + apply Z.ltb_ge in G. injection HB as -> ->.
      repeat split; try congruence; try tauto. intros (_ & _ & ?). lia.
  - intros b t b'.
    pose proof (Pulsebyuno_loop_beats sP i) as HB. fold t b b' in HB.
    rewrite (Pulsebyuno_gate_first _ _ _ HP) in HB. fold b in HB.
    destruct (raw i <? 30)%Z.
    { injection HB as -> ->. repeat split; try congruence; try tauto.
      intros (? & _); discriminate. }
    destruct ((Pulsebyuno.conditioner (Pulsebyuno.filt sP) (raw i)).2);
      simpl in HB.
    2:{ injection HB as -> ->. repeat split; try congruence; try tauto.
        intros (_ & ? & _); discriminate. }
    destruct (MIN_BEAT_MS <? usub (now i) 0)%Z eqn:G.
    + apply Z.ltb_lt in G. injection HB as -> ->. simpl.
      repeat split; auto; congruence.
    + apply Z.ltb_ge in G. injection HB as -> ->.
      repeat split; try congruence; try tauto. intros (_ & _ & ?). lia.
Qed.

Lemma first_beat_anchors_clock_witness :
  (Espbpm.lastBeatTime (Espbpm.beats Espbpm_cold) = 0%Z
   /\ Pulsebyuno.lastBeatTime (Pulsebyuno.beats Pulsebyuno_cold) = 0%Z)
  /\ Espbpm.beatCount
       (Espbpm.beats (Espbpm.next (Espbpm.loop Espbpm_cold (sample 30 1020))))
     = Espbpm.beatCount (Espbpm.beats Espbpm_cold).
Proof.
  assert (H1 : Espbpm.lastBeatTime (Espbpm.beats Espbpm_cold) = 0%Z)
    by (vm_compute; reflexivity).
  assert (H2 : Pulsebyuno.lastBeatTime (Pulsebyuno.beats Pulsebyuno_cold) = 0%Z)
    by (vm_compute; reflexivity).
  split; [auto |].
  exact (proj1 (proj2 (proj2 (proj1
    (first_beat_anchors_clock Espbpm_cold Pulsebyuno_cold
       (sample 30 1020) H1 H2))))).
Defined.

(** ** Status assignments *)

Lemma Espbpm_decision_status b r t :
  match Espbpm.accept_or_fallback b r t with
  | (_, st, Some _) => st = ST_OK \/ st = ST_FALLBACK
  | (_, st, None) => st = ST_NO_SENSOR
  end.
Proof.
  unfold Espbpm.accept_or_fallback.
  destruct (Qgeb _ _ && Qle_bool _ _); [auto |].
  destruct ((_ <? _)%Z && Qgtb _ _); auto.
Qed.

Lemma Espbpm_emit_status s i f filtered b l :
  let t := Espbpm.emit s i f filtered b l in
  (Espbpm.status (Espbpm.next t) = ST_OK
   \/ Espbpm.status (Espbpm.next t) = ST_FALLBACK
   \/ Espbpm.status (Espbpm.next t) = ST_NO_SENSOR)
  /\ reported_status (Espbpm.printed t) = Espbpm.status (Espbpm.next t).
Proof.
  unfold Espbpm.emit.
  pose proof (Espbpm_decision_status b (Espbpm.rates s) (now i)) as H.
  destruct (Espbpm.accept_or_fallback b (Espbpm.rates s) (now i))
    as [[r st] [[fb cf] |]].
  - destruct (Espbpm.hrv_jitter (Espbpm.vary s) fb i) as [v1 fb'].
    destruct (Espbpm.waveform_variation v1 filtered i) as [v2 filtered'].
    simpl. tauto.
  - simpl. auto.
Qed.

Lemma Espbpm_loop_status (s : Espbpm.State) (i : Input) :
  let t := Espbpm.loop s i in
  (Espbpm.status (Espbpm.next t) = ST_OK
   \/ Espbpm.status (Espbpm.next t) = ST_FALLBACK
   \/ Espbpm.status (Espbpm.next t) = ST_NO_SENSOR)
  /\ reported_status (Espbpm.printed t) = Espbpm.status (Espbpm.next t).
Proof.
  destruct (raw i <? 30)%Z eqn:H.
  - unfold Espbpm.loop. rewrite H. simpl. auto.
  - rewrite (Espbpm_loop_live _ _ H). apply Espbpm_emit_status.
Qed.

(** C9. In every state Espbpm can reach, [status] is not [ST_LOW_CONF],
    and whatever the next tick reads, the status it assigns and reports is
    one of OK, FALLBACK, NO_SENSOR. *)
Theorem status_never_low_conf (s : Espbpm.State) (H : Espbpm.reachable s) :
  Espbpm.status s <> ST_LOW_CONF
  /\ forall i : Input,
       let t := Espbpm.loop s i in
       (reported_status (Espbpm.printed t) = ST_OK
        \/ reported_status (Espbpm.printed t) = ST_FALLBACK
        \/ reported_status (Espbpm.printed t) = ST_NO_SENSOR)
       /\ Espbpm.status (Espbpm.next t) = reported_status (Espbpm.printed t)
       /\ Espbpm.status (Espbpm.next t) <> ST_LOW_CONF.
Proof.
  split.
  - destruct H as [| s0 i0 _]; [discriminate |].
    destruct (Espbpm_loop_status s0 i0) as [[E | [E | E]] _];
      rewrite E; discriminate.
  - intros i t. destruct (Espbpm_loop_status s i) as [D E]. fold t in D, E.
    rewrite E. repeat split; auto.
    destruct D as [D | [D | D]]; rewrite D; discriminate.
Qed.

Lemma status_never_low_conf_witness :
  Espbpm.reachable Espbpm.init /\ Espbpm.status Espbpm.init <> ST_LOW_CONF.
Proof.
  split; [constructor |].
  exact (proj1 (status_never_low_conf Espbpm.init Espbpm.reach_init)).
Defined.

(** ** The finger test *)

Lemma Espbpm_no_finger (s : Espbpm.State) (i : Input) :
  (raw i < 30)%Z ->
  Espbpm.loop s i =
  Espbpm.mkTick
    (Espbpm.mkState (Espbpm.filt s) (Espbpm.beats s) (Espbpm.rates s)
                    (Espbpm.vary s) ST_NO_SENSOR)
    [true] Calculating.
Proof.
  intros H. unfold Espbpm.loop.
  now replace (raw i <? 30)%Z with true by (symmetry; apply Z.ltb_lt; exact H).
Qed.

Lemma Pulsebyuno_no_finger (s : Pulsebyuno.State) (i : Input) :
  (raw i < 30)%Z ->
  Pulsebyuno.loop s i = Pulsebyuno.mkTick s [true] Calculating.
Proof.
  intros H. unfold Pulsebyuno.loop.
  now replace (raw i <? 30)%Z with true by (symmetry; apply Z.ltb_lt; exact H).
Qed.

(** What a run of ticks below the presence floor leaves alone (ten ticks
    with raw = 20 for one): every tick prints the zeroed CALCULATING line
    and runs nothing else. In Espbpm conditioner, beat state, rate windows
    and variation state are those the run started with; in Pulsebyuno the
    whole state is. No tick of Pulsebyuno reads the stored [status]: what
    a tick prints, its LED writes and the rest of its next state do not
    depend on it. *)
Lemma no_finger_frame
  (sE : Espbpm.State) (sP : Pulsebyuno.State) (ins : list Input)
  (Hlow : Forall (fun i => (raw i < 30)%Z) ins) :
  Forall (fun t =>
            Espbpm.printed t = Calculating
            /\ reported_status (Espbpm.printed t) = ST_NO_SENSOR
            /\ Espbpm.status (Espbpm.next t) = ST_NO_SENSOR
            /\ Espbpm.filt (Espbpm.next t) = Espbpm.filt sE
            /\ Espbpm.beats (Espbpm.next t) = Espbpm.beats sE
            /\ Espbpm.rates (Espbpm.next t) = Espbpm.rates sE
            /\ Espbpm.vary (Espbpm.next t) = Espbpm.vary sE)
         (Espbpm.ticks sE ins)
  /\ length (Espbpm.ticks sE ins) = length ins
  /\ Forall (fun t =>
               Pulsebyuno.printed t = Calculating
               /\ reported_status (Pulsebyuno.printed t) = ST_NO_SENSOR
               /\ Pulsebyuno.next t = sP)
            (Pulsebyuno.ticks sP ins)
  /\ length (Pulsebyuno.ticks sP ins) = length ins
  /\ (forall (st0 : StatusCode) (i : Input),
        let s0 := Pulsebyuno.mkState (Pulsebyuno.filt sP) (Pulsebyuno.beats sP)
                    (Pulsebyuno.rates sP) (Pulsebyuno.lastJitter sP) st0 in
        let t0 := Pulsebyuno.loop s0 i in
        let t := Pulsebyuno.loop sP i in
        Pulsebyuno.printed t0 = Pulsebyuno.printed t
        /\ Pulsebyuno.leds t0 = Pulsebyuno.leds t
        /\ Pulsebyuno.filt (Pulsebyuno.next t0) = Pulsebyuno.filt (Pulsebyuno.next t)
        /\ Pulsebyuno.beats (Pulsebyuno.next t0) = Pulsebyuno.beats (Pulsebyuno.next t)
        /\ Pulsebyuno.rates (Pulsebyuno.next t0) = Pulsebyuno.rates (Pulsebyuno.next t)
        /\ Pulsebyuno.lastJitter (Pulsebyuno.next t0)
           = Pulsebyuno.lastJitter (Pulsebyuno.next t)).
Proof.
  split; [| split; [| split; [| split]]].
  - assert (G : forall s, Espbpm.filt s = Espbpm.filt sE ->
                 Espbpm.beats s = Espbpm.beats sE ->
                 Espbpm.rates s = Espbpm.rates sE ->
                 Espbpm.vary s = Espbpm.vary sE ->
                 Forall (fun t =>
                   Espbpm.printed t = Calculating
                   /\ reported_status (Espbpm.printed t) = ST_NO_SENSOR
                   /\ Espbpm.status (Espbpm.next t) = ST_NO_SENSOR
                   /\ Espbpm.filt (Espbpm.next t) = Espbpm.filt sE
                   /\ Espbpm.beats (Espbpm.next t) = Espbpm.beats sE
                   /\ Espbpm.rates (Espbpm.next t) = Espbpm.rates sE
                   /\ Espbpm.vary (Espbpm.next t) = Espbpm.vary sE)
                 (Espbpm.ticks s ins)).
    { induction Hlow as [| i ins Hi _ IH]; intros s F B R V; simpl;
        constructor.
      - rewrite (Espbpm_no_finger s i Hi). simpl. auto 10.
      - rewrite (Espbpm_no_finger s i Hi). simpl. apply IH; auto. }
    apply G; reflexivity.
  - clear Hlow. revert sE. induction ins; intros; simpl; auto.
  - induction Hlow as [| i ins Hi _ IH]; simpl; constructor.
    + rewrite (Pulsebyuno_no_finger sP i Hi). simpl. auto.
    + rewrite (Pulsebyuno_no_finger sP i Hi). simpl. exact IH.
  - clear Hlow. revert sP. induction ins; intros; simpl; auto.
  - intros st0 i s0 t0 t. subst t0 t s0. unfold Pulsebyuno.loop.
    destruct (raw i <? 30)%Z; [repeat split; reflexivity |].
    cbn [Pulsebyuno.filt Pulsebyuno.beats].
    destruct (Pulsebyuno.conditioner (Pulsebyuno.filt sP) (raw i))
      as [[f filtered] peak].
    destruct (Pulsebyuno.beat_gate (Pulsebyuno.beats sP) peak (now i)) as [b l].
    unfold Pulsebyuno.emit. cbn [Pulsebyuno.rates Pulsebyuno.lastJitter].
    destruct (Pulsebyuno.accept_or_fallback b (Pulsebyuno.rates sP) (now i))
      as [[r st] [[fb cf] |]];
      [destruct (Pulsebyuno.hrv_jitter (Pulsebyuno.lastJitter sP) fb i) |];
      repeat split; reflexivity.
Qed.

(** C4. Below the presence floor both sketches print the CALCULATING
    line and return. Espbpm assigns [status = ST_NO_SENSOR] first.
    Pulsebyuno does not: its finger branch (lines 151-156) leaves every
    global as it was, [status] included, although its other CALCULATING
    exit (lines 217-221) does assign [ST_NO_SENSOR]. After the first
    [loop()] at 50 ms with a reading of 100 has set [status] to
    [ST_FALLBACK], ten ticks with a reading of 20 each print the
    CALCULATING line and each leaves [status] at [ST_FALLBACK]. *)
Theorem Pulsebyuno_no_finger_keeps_status :
  (forall (sE : Espbpm.State) (i : Input),
     (raw i < 30)%Z ->
     Espbpm.printed (Espbpm.loop sE i) = Calculating
     /\ Espbpm.status (Espbpm.next (Espbpm.loop sE i)) = ST_NO_SENSOR)
  /\ (forall (sP : Pulsebyuno.State) (i : Input),
        (raw i < 30)%Z ->
        Pulsebyuno.printed (Pulsebyuno.loop sP i) = Calculating
        /\ Pulsebyuno.status (Pulsebyuno.next (Pulsebyuno.loop sP i))
           = Pulsebyuno.status sP)
  /\ (forall (sP : Pulsebyuno.State) (i : Input),
        (30 <= raw i)%Z ->
        Pulsebyuno.printed (Pulsebyuno.loop sP i) = Calculating ->
        Pulsebyuno.status (Pulsebyuno.next (Pulsebyuno.loop sP i))
        = ST_NO_SENSOR)
  /\ (let s1 := Pulsebyuno.next
                  (Pulsebyuno.loop Pulsebyuno.init (sample 100 50)) in
      Pulsebyuno.status s1 = ST_FALLBACK
      /\ map (fun t => (Pulsebyuno.printed t,
                        Pulsebyuno.status (Pulsebyuno.next t)))
             (Pulsebyuno.ticks s1 ten_absent)
         = replicate 10 (Calculating, ST_FALLBACK))
  /\ Forall (fun i => raw i = 20%Z) ten_absent.
Proof.
  split; [| split; [| split; [| split]]].
  - intros sE i H. now rewrite (Espbpm_no_finger sE i H).
  - intros sP i H. now rewrite (Pulsebyuno_no_finger sP i H).
  - intros sP i H. unfold Pulsebyuno.loop.
    replace (raw i <? 30)%Z with false by (symmetry; apply Z.ltb_ge; exact H).
    destruct (Pulsebyuno.conditioner (Pulsebyuno.filt sP) (raw i))
      as [[f filtered] peak].
    destruct (Pulsebyuno.beat_gate (Pulsebyuno.beats sP) peak (now i))
      as [b l].
    unfold Pulsebyuno.emit, Pulsebyuno.accept_or_fallback.
    destruct (Qgeb _ _ && Qle_bool _ _).
    + destruct (Pulsebyuno.hrv_jitter _ _ i). discriminate.
    + destruct (Qltb _ _).
      * destruct (Pulsebyuno.hrv_jitter _ _ i). discriminate.
      * reflexivity.
  - vm_compute. split; reflexivity.
  - repeat constructor.
Qed.

(** ** Ring buffers *)

Section RingTheory.
Variable cap : nat.
Hypothesis cap_pos : (0 < cap)%nat.

Lemma ring_push_wf (r : Ring) (v : Q) :
  ring_wf cap r -> ring_wf cap (ring_push cap r v).
Proof using cap_pos.
  destruct r as [[a i] n]. simpl. intros (La & Hi & Hn & Hin).
  rewrite length_insert.
  destruct (Nat.leb_spec cap (S i)), (Nat.ltb_spec n cap); lia.
Qed.

Lemma ring_push_count (r : Ring) (v : Q) :
  (ring_push cap r v).2 = if (r.2 <? cap)%nat then S r.2 else r.2.
Proof. now destruct r as [[a i] n]. Qed.

(** Pushing appends to the chronological view, dropping the oldest value
    once the ring is full. *)
Lemma ring_push_chrono (r : Ring) (v : Q) :
  ring_wf cap r ->
  ring_chrono (ring_push cap r v) =
  if (r.2 <? cap)%nat then ring_chrono r ++ [v]
  else tail (ring_chrono r) ++ [v].
Proof using cap_pos.
  destruct r as [[a i] n]. simpl. intros (La & Hi & Hn & Hin).
  assert (Hl : <[i:=v]> a !! i = Some v)
    by (apply list_lookup_insert_eq; lia).
  assert (Ht : take (S i) (<[i:=v]> a) = take i a ++ [v]).
  { rewrite (take_S_r _ _ _ Hl). now rewrite take_insert_ge by lia. }
  destruct (Nat.ltb_spec n cap) as [Hlt | Hge].
  - specialize (Hin Hlt). subst i.
    rewrite (drop_ge (take n a)) by (rewrite length_take; lia). simpl.
    destruct (Nat.leb_spec cap (S n)).
    + rewrite drop_0, take_0, app_nil_r. exact Ht.
    + rewrite (drop_ge (take (S n) _)) by (rewrite length_take; lia).
      simpl. exact Ht.
  - assert (n = cap) by lia. subst n.
    rewrite (take_ge (<[i:=v]> a) cap) by (rewrite length_insert; lia).
    rewrite (take_ge a cap) by lia.
    destruct (lookup_lt_is_Some_2 a i ltac:(lia)) as [x Hx].
    rewrite (drop_S _ _ _ Hx). simpl.
    destruct (Nat.leb_spec cap (S i)).
    + rewrite drop_0, take_0, app_nil_r.
      rewrite (drop_ge a (S i)) by lia. simpl.
      rewrite insert_take_drop by lia.
      now rewrite (drop_ge a (S i)) by lia.
    + rewrite drop_insert_lt by lia. rewrite Ht. now rewrite app_assoc.
Qed.

Lemma recent_snoc (vs : list Q) (v : Q) :
  recent cap (vs ++ [v]) =
  if (length vs <? cap)%nat then recent cap vs ++ [v]
  else tail (recent cap vs) ++ [v].
Proof using cap_pos.
  unfold recent. rewrite length_app. simpl.
  destruct (Nat.ltb_spec (length vs) cap) as [Hlt | Hge].
  - replace (length vs + 1 - cap)%nat with 0%nat by lia.
    replace (length vs - cap)%nat with 0%nat by lia. reflexivity.
  - replace (length vs + 1 - cap)%nat with (S (length vs - cap)) by lia.
    rewrite drop_app_le by lia. f_equal.
    generalize (length vs - cap)%nat as k. clear. intros k.
    revert vs. induction k; intros [| x vs]; simpl; auto.
Qed.

(** After any sequence of pushes into an empty ring: the cursor is inside
    the array, the fill count is [min (length vs) cap], and from the cursor
    on the ring reads as the [cap] most recent values, oldest first. *)
Lemma ring_pushes (junk : list Q) (vs : list Q) :
  length junk = cap ->
  let r := fold_left (ring_push cap) vs (junk, 0%nat, 0%nat) in
  ring_wf cap r
  /\ r.2 = Nat.min (length vs) cap
  /\ ring_chrono r = recent cap vs.
Proof using cap_pos.
  intros Hj. induction vs as [| v vs IH] using rev_ind.
  - simpl. unfold recent. simpl. repeat split; auto; lia.
  - rewrite fold_left_app. simpl.
    set (r0 := fold_left (ring_push cap) vs (junk, 0%nat, 0%nat)) in *.
    destruct IH as (W & C & E).
    split; [now apply ring_push_wf |].
    rewrite ring_push_count, (ring_push_chrono _ _ W), recent_snoc, C, E.
    rewrite length_app. simpl.
    destruct (Nat.ltb_spec (Nat.min (length vs) cap) cap),
             (Nat.ltb_spec (length vs) cap); try lia; split; auto; lia.
Qed.

(** A full ring is a rotation of its chronological view. *)
Lemma ring_full_perm (r : Ring) :
  ring_wf cap r -> r.2 = cap -> r.1.1 ≡ₚ ring_chrono r.
Proof.
  destruct r as [[a i] n]. simpl. intros (La & _) ->.
  rewrite take_ge by lia.
  rewrite <- (take_drop i a) at 1. apply Permutation_app_comm.
Qed.

End RingTheory.

(** Before wrap-around the occupied slots are the pushed values in order. *)
Lemma ring_not_wrapped (cap : nat) (r : Ring) (vs : list Q) :
  ring_wf cap r -> r.2 = Nat.min (length vs) cap ->
  ring_chrono r = recent cap vs ->
  (length vs < cap)%nat -> r.1.2 = r.2 /\ take r.2 r.1.1 = vs.
Proof.
  destruct r as [[a i] n]. simpl. intros (La & Hi & Hn & Hin) C E Hlt.
  unfold recent in E. replace (length vs - cap)%nat with 0%nat in E by lia.
  rewrite drop_0 in E. rewrite <- E.
  rewrite Hin by lia. split; [reflexivity |].
  rewrite (drop_ge (take n a)) by (rewrite length_take; lia). reflexivity.
Qed.

Lemma beat_ring_push (b : Espbpm.Beats) (v : Q) :
  beat_ring (Espbpm.pushBeatInterval b v) = ring_push 16 (beat_ring b) v.
Proof. reflexivity. Qed.

Lemma hist_ring_push (r : Espbpm.Rates) (v : Q) :
  hist_ring (Espbpm.pushBPMHistory r v) = ring_push 5 (hist_ring r) v
  /\ avg_ring (Espbpm.pushBPMHistory r v) = avg_ring r
  /\ Espbpm.lastGoodBPM (Espbpm.pushBPMHistory r v) = Espbpm.lastGoodBPM r.
Proof. auto. Qed.

Lemma avg_ring_push (r : Espbpm.Rates) (v : Q) :
  avg_ring (Espbpm.pushBPMAvg r v) = ring_push 8 (avg_ring r) v
  /\ hist_ring (Espbpm.pushBPMAvg r v) = hist_ring r
  /\ Espbpm.lastGoodBPM (Espbpm.pushBPMAvg r v) = Espbpm.lastGoodBPM r.
Proof. auto. Qed.

Lemma fold_ring {S : Type} (view : S -> Ring) (push : S -> Q -> S) (cap : nat) :
  (forall s v, view (push s v) = ring_push cap (view s) v) ->
  forall vs s, view (fold_left push vs s) = fold_left (ring_push cap) vs (view s).
Proof.
  intros H vs. induction vs as [| v vs IH]; intros s; simpl; [reflexivity |].
  now rewrite IH, H.
Qed.

(** The summation loops read the slots below their bound only. *)
Lemma sum_slots_S (a : list Q) (n : nat) :
  sum_slots a (S n) = (sum_slots a n + a !!! n)%Q.
Proof. unfold sum_slots. now rewrite seq_S, fold_left_app. Qed.

Lemma sum_slots_take (a a' : list Q) (n : nat) :
  take n a = take n a' -> sum_slots a n = sum_slots a' n.
Proof.
  intros E.
  assert (H : forall j, (j < n)%nat -> a !!! j = a' !!! j).
  { intros j Hj. rewrite <- (lookup_total_take_lt a n j Hj), E.
    now apply lookup_total_take_lt. }
  clear E. induction n as [| n IH]; [reflexivity |].
  rewrite !sum_slots_S, IH, (H n) by auto with lia. reflexivity.
Qed.

(** What the three rings guarantee, for a ring of capacity [cap] reached
    from an empty one by pushing [vs]. *)
Lemma ring_after_pushes (cap : nat) (r0 : Ring) (vs : list Q) :
  (0 < cap)%nat -> length r0.1.1 = cap -> r0.1.2 = 0%nat -> r0.2 = 0%nat ->
  let r := fold_left (ring_push cap) vs r0 in
  (r.1.2 < cap)%nat
  /\ (r.2 <= cap)%nat
  /\ r.2 = Nat.min (length vs) cap
  /\ length r.1.1 = cap
  /\ ring_chrono r = recent cap vs
  /\ ((length vs < cap)%nat -> r.1.2 = r.2 /\ take r.2 r.1.1 = vs)
  /\ ((cap <= length vs)%nat -> r.1.1 ≡ₚ recent cap vs)
  /\ (length vs = S cap -> r.1.1 ≡ₚ drop 1 vs).
Proof.
  destruct r0 as [[junk i0] n0]. simpl. intros Hc Hj -> ->.
  destruct (ring_pushes cap Hc junk vs Hj) as (W & C & E).
  set (r := fold_left (ring_push cap) vs (junk, 0%nat, 0%nat)) in *.
  assert (Hperm : (cap <= length vs)%nat -> r.1.1 ≡ₚ recent cap vs).
  { intros Hge. rewrite <- E. apply (ring_full_perm cap Hc); [exact W | lia]. }
  pose proof (ring_not_wrapped cap r vs W C E) as NW.
  destruct r as [[a i] n]. simpl in *. destruct W as (La & Hi & Hn & _).
  split; [exact Hi |]. split; [exact Hn |]. split; [exact C |].
  split; [exact La |]. split; [exact E |]. split; [exact NW |].
  split; [exact Hperm |].
  intros HS. rewrite Hperm by lia. unfold recent. rewrite HS.
  now replace (S cap - cap)%nat with 1%nat by lia.
Qed.

Lemma Espbpm_computeBPM_reads (b : Espbpm.Beats) (a' : list Q) :
  take (Espbpm.beatCount b) a' = take (Espbpm.beatCount b) (Espbpm.beatIntervals b) ->
  Espbpm.computeBPM
    (Espbpm.mkBeats (Espbpm.lastBeatTime b) (Espbpm.lastValidBeatTime b) a'
                    (Espbpm.beatIndex b) (Espbpm.beatCount b))
  = Espbpm.computeBPM b.
Proof.
  intros E. unfold Espbpm.computeBPM. simpl.
  now rewrite (sum_slots_take _ _ _ E).
Qed.

Lemma Espbpm_medianBPM_reads (r : Espbpm.Rates) (a' : list Q) :
  take (Espbpm.bpmHistCount r) a' = take (Espbpm.bpmHistCount r) (Espbpm.bpmHistory r) ->
  Espbpm.medianBPM
    (Espbpm.mkRates a' (Espbpm.bpmHistIdx r) (Espbpm.bpmHistCount r)
                    (Espbpm.bpmAvgWindow r) (Espbpm.bpmAvgIdx r)
                    (Espbpm.bpmAvgCount r) (Espbpm.lastGoodBPM r)
                    (Espbpm.lastGoodTime r))
  = Espbpm.medianBPM r.
Proof.
  intros E. unfold Espbpm.medianBPM, sorted_copy. simpl. now rewrite E.
Qed.

Lemma Espbpm_avgBPM_reads (r : Espbpm.Rates) (a' : list Q) :
  take (Espbpm.bpmAvgCount r) a' = take (Espbpm.bpmAvgCount r) (Espbpm.bpmAvgWindow r) ->
  Espbpm.avgBPM
    (Espbpm.mkRates (Espbpm.bpmHistory r) (Espbpm.bpmHistIdx r)
                    (Espbpm.bpmHistCount r) a' (Espbpm.bpmAvgIdx r)
                    (Espbpm.bpmAvgCount r) (Espbpm.lastGoodBPM r)
                    (Espbpm.lastGoodTime r))
  = Espbpm.avgBPM r.
Proof.
  intros E. unfold Espbpm.avgBPM. simpl.
  now rewrite (sum_slots_take _ _ _ E).
Qed.


(** ** The insertion sort of [medianBPM] *)

Lemma ssorted_snoc (l : list Q) (x : Q) :
  StronglySorted Qle (l ++ [x]) <->
  StronglySorted Qle l /\ Forall (fun y => (y <= x)%Q) l.
Proof.
  induction l as [| a l IH]; simpl.
  - split; [intros _; split; constructor | intros _; repeat constructor].
  - split.
    + intros H. inversion H as [| ? ? Hs Hf]; subst.
      apply IH in Hs. destruct Hs as [Hs Hl].
      apply Forall_app in Hf. destruct Hf as [Hf Hx].
      inversion Hx; subst.
      split; constructor; auto.
    + intros [H Hf]. inversion H as [| ? ? Hs Ha]; subst.
      inversion Hf; subst. constructor.
      * apply IH. auto.
      * apply Forall_app. split; [exact Ha | repeat constructor; auto].
Qed.

Lemma take_snoc_lookup (t : list Q) (j : nat) :
  (j < length t)%nat -> take (S j) t = take j t ++ [t !!! j].
Proof.
  intros H. apply take_S_r. now apply list_lookup_lookup_total_lt.
Qed.

(** The inner loop: with [t[0..k)] sorted, the key ends up in place among
    the first [k + 1] slots and nothing above them moves. *)
Lemma insert_key_sorted (k : nat) :
  forall (t : list Q) (key : Q),
    (k < length t)%nat ->
    StronglySorted Qle (take k t) ->
    let t' := insert_key t key k in
    length t' = length t
    /\ drop (S k) t' = drop (S k) t
    /\ take (S k) t' ≡ₚ take k t ++ [key]
    /\ StronglySorted Qle (take (S k) t').
Proof.
  induction k as [| j IH]; intros t key Hk Hs; simpl.
  - rewrite length_insert. split; [reflexivity |].
    split; [now rewrite drop_insert_lt by lia |].
    destruct t as [| x t]; [simpl in Hk; lia |]. simpl.
    split; [reflexivity | repeat constructor].
  - set (x := t !!! j).
    assert (Hx : take (S j) t = take j t ++ [x])
      by (apply take_snoc_lookup; lia).
    rewrite Hx in Hs. apply ssorted_snoc in Hs. destruct Hs as [Hs Hle].
    destruct (Qgtb x key) eqn:G.
    + apply Qgtb_gt in G.
      set (t1 := <[S j := x]> t).
      assert (L1 : length t1 = length t) by apply length_insert.
      destruct (IH t1 key) as (L & D & P & S').
      { lia. }
      { unfold t1. now rewrite take_insert_ge by lia. }
      unfold t1 in D, P. rewrite take_insert_ge in P by lia.
      assert (D1 : drop (S j) (<[S j := x]> t) = x :: drop (S (S j)) t).
      { rewrite (drop_S _ x (S j)) by (apply list_lookup_insert_eq; lia).
        now rewrite drop_insert_lt by lia. }
      rewrite D1 in D. fold t1 in D, P, S' |- *.
      set (t' := insert_key t1 key j) in *.
      assert (Hl : t' !! S j = Some x).
      { rewrite <- (Nat.add_0_r (S j)), <- lookup_drop, D. reflexivity. }
      split; [lia |]. split.
      { assert (E : drop (S (S j)) t' = drop 1 (drop (S j) t'))
          by (rewrite drop_drop; f_equal; lia).
        rewrite E, D. reflexivity. }
      rewrite (take_S_r _ _ _ Hl). split.
      * rewrite P, Hx, <- !app_assoc.
        apply Permutation_app_head, Permutation_app_comm.
      * apply ssorted_snoc. split; [exact S' |].
        rewrite P. apply Forall_app. split; [exact Hle |].
        repeat constructor. now apply Qlt_le_weak.
    + assert (Hxk : (x <= key)%Q).
      { apply Qnot_lt_le. intros C. apply Qgtb_gt in C. congruence. }
      rewrite length_insert. split; [reflexivity |].
      split; [now rewrite drop_insert_lt by lia |].
      rewrite (take_S_r _ (S j) key)
        by (apply list_lookup_insert_eq; lia).
      rewrite take_insert_ge by lia. split; [reflexivity |].
      apply ssorted_snoc. rewrite Hx. split.
      * apply ssorted_snoc. auto.
      * apply Forall_app. split; [| repeat constructor; exact Hxk].
        eapply Forall_impl; [exact Hle |].
        simpl. intros y Hy. eapply Qle_trans; eauto.
Qed.

Lemma take_add_split (l : list Q) (n m : nat) :
  take (n + m) l = take n l ++ take m (drop n l).
Proof.
  revert l. induction n as [| n IH]; intros [| x l]; simpl; auto.
  - now rewrite take_nil.
  - now rewrite IH.
Qed.

(** The outer loop, entered at [i] with [t[0..i)] sorted. *)
Lemma insertion_pass_sorted (k : nat) :
  forall (t : list Q) (i : nat),
    (i + k <= length t)%nat ->
    StronglySorted Qle (take i t) ->
    let t' := insertion_pass t i k in
    length t' = length t
    /\ take (i + k) t' ≡ₚ take (i + k) t
    /\ StronglySorted Qle (take (i + k) t').
Proof.
  induction k as [| k IH]; intros t i Hlen Hs; simpl.
  - rewrite Nat.add_0_r. auto.
  - destruct (insert_key_sorted i t (t !!! i)) as (L & D & P & S'); auto with lia.
    set (t1 := insert_key t (t !!! i) i) in *.
    destruct (IH t1 (S i)) as (L' & P' & S''); [lia | exact S' |].
    replace (i + S k)%nat with (S i + k)%nat by lia.
    split; [lia |]. split; [| exact S''].
    rewrite P', !take_add_split, D, P.
    now rewrite <- take_snoc_lookup by lia.
Qed.

(** The sorted copy: its first [n] slots are the occupied slots of the
    window in non-decreasing order. *)
Lemma sorted_copy_sorted (a : list Q) (n : nat) :
  (0 < n <= length a)%nat ->
  take n (sorted_copy a n) ≡ₚ take n a
  /\ Sorted Qle (take n (sorted_copy a n)).
Proof.
  intros [Hn Hl]. unfold sorted_copy.
  set (t := take n a ++ replicate (BPM_MEDIAN_WINDOW - n) 0%Q).
  assert (Lt : (n <= length t)%nat).
  { unfold t. rewrite length_app, length_take. lia. }
  destruct (insertion_pass_sorted (n - 1) t 1) as (L & P & S').
  - lia.
  - destruct t as [| x t']; [simpl in Lt; lia |]. repeat constructor.
  - replace (1 + (n - 1))%nat with n in * by lia.
    split; [| now apply StronglySorted_Sorted].
    rewrite P. unfold t. rewrite take_app_le by (rewrite length_take; lia).
    now rewrite take_take, Nat.min_id.
Qed.

Lemma middle_positions (n : nat) :
  (0 < n)%nat ->
  (upper_middle n < n)%nat
  /\ (Nat.Even n -> upper_middle n = S (lower_middle n))
  /\ (Nat.Odd n -> upper_middle n = lower_middle n).
Proof.
  intros Hn. unfold upper_middle, lower_middle. split.
  - apply Nat.div_lt; lia.
  - split.
    + intros [k ->]. destruct k as [| k]; [lia |].
      replace (2 * S k - 1)%nat with (1 + k * 2)%nat by lia.
      replace (2 * S k)%nat with (S k * 2)%nat by lia.
      rewrite Nat.div_mul, Nat.div_add by lia. reflexivity.
    + intros [k ->].
      replace (2 * k + 1 - 1)%nat with (k * 2)%nat by lia.
      replace (2 * k + 1)%nat with (1 + k * 2)%nat by lia.
      rewrite Nat.div_mul, Nat.div_add by lia. reflexivity.
Qed.

(** C5, as the code has it. With [n > 0] occupied slots, [medianBPM] (the
    same in Espbpm and Finalpulseandbuzzer) insertion-sorts a copy of the
    occupied slots and returns element [n / 2] of the sorted order: the
    middle element for odd [n], and for even [n] the upper of the two
    middle elements. *)
Theorem median_is_upper_middle
  (r : Espbpm.Rates) (bpmHistory : list Q) (bpmHistCount : nat)
  (Hr : (0 < Espbpm.bpmHistCount r <= length (Espbpm.bpmHistory r))%nat)
  (Hn : (0 < bpmHistCount <= length bpmHistory)%nat) :
  (let n := Espbpm.bpmHistCount r in
   let l := take n (sorted_copy (Espbpm.bpmHistory r) n) in
   l ≡ₚ take n (Espbpm.bpmHistory r)
   /\ Sorted Qle l
   /\ Espbpm.medianBPM r = l !!! upper_middle n
   /\ (Nat.Even n -> upper_middle n = S (lower_middle n))
   /\ (Nat.Odd n -> upper_middle n = lower_middle n))
  /\
  (let n := bpmHistCount in
   let l := take n (sorted_copy bpmHistory n) in
   l ≡ₚ take n bpmHistory
   /\ Sorted Qle l
   /\ Finalpulseandbuzzer.medianBPM bpmHistory n = l !!! upper_middle n
   /\ (Nat.Even n -> upper_middle n = S (lower_middle n))
   /\ (Nat.Odd n -> upper_middle n = lower_middle n)).
Proof.
  split.
  - intros n l. destruct (sorted_copy_sorted (Espbpm.bpmHistory r) n Hr) as [P S'].
    destruct (middle_positions n (proj1 Hr)) as (Hm & He & Ho).
    repeat split; auto.
    unfold Espbpm.medianBPM. fold n.
    replace (n =? 0)%nat with false by (symmetry; apply Nat.eqb_neq; lia).
    unfold l. now rewrite lookup_total_take_lt by exact Hm.
  - intros n l. destruct (sorted_copy_sorted bpmHistory n Hn) as [P S'].
    destruct (middle_positions n (proj1 Hn)) as (Hm & He & Ho).
    repeat split; auto.
    unfold Finalpulseandbuzzer.medianBPM. fold n.
    replace (n =? 0)%nat with false by (symmetry; apply Nat.eqb_neq; lia).
    unfold l. now rewrite lookup_total_take_lt by exact Hm.
Qed.

Lemma median_is_upper_middle_witness :
  ((0 < Espbpm.bpmHistCount two_readings
      <= length (Espbpm.bpmHistory two_readings))%nat
   /\ (0 < 2 <= length [60%Q; 80%Q; 0%Q; 0%Q; 0%Q])%nat)
  /\ Espbpm.medianBPM two_readings
     = take 2 (sorted_copy (Espbpm.bpmHistory two_readings) 2) !!! upper_middle 2.
Proof.
  assert (H1 : (0 < Espbpm.bpmHistCount two_readings
                  <= length (Espbpm.bpmHistory two_readings))%nat)
    by (simpl; lia).
  assert (H2 : (0 < 2 <= length [60%Q; 80%Q; 0%Q; 0%Q; 0%Q])%nat)
    by (simpl; lia).
  split; [split; assumption |].
  exact (proj1 (proj2 (proj2 (proj1
    (median_is_upper_middle two_readings
       [60%Q; 80%Q; 0%Q; 0%Q; 0%Q] 2 H1 H2))))).
Defined.

(** C5 as worded fails: on the window holding 60 and 80 the sorted
    occupied slots are [60; 80], the lower middle is 60, and [medianBPM]
    returns 80. *)
Lemma median_lower_middle_fails : ~ median_is_lower_middle.
Proof.
  intros H.
  specialize (H two_readings [60%Q; 80%Q]). simpl in H.
  assert (E : Espbpm.medianBPM two_readings = 80%Q) by reflexivity.
  rewrite E in H.
  assert (C : 80%Q = 60%Q); [| discriminate C].
  apply H.
  - lia.
  - reflexivity.
  - repeat constructor. discriminate.
Qed.

(** ** Bounds on sums, means and the blend *)

Lemma ring_push_keeps (cap : nat) (P : Q -> Prop) (r : Ring) (v : Q) :
  ring_wf cap r -> occupied P r -> P v -> occupied P (ring_push cap r v).
Proof.
  destruct r as [[a i] n]. unfold occupied. simpl.
  intros (La & Hi & Hn & Hin) HP Hv.
  destruct (Nat.ltb_spec n cap) as [Hlt | Hge].
  - rewrite (Hin Hlt).
    rewrite (take_S_r _ n v) by (apply list_lookup_insert_eq; lia).
    rewrite take_insert_ge by lia. apply Forall_app. split; auto.
  - rewrite take_insert_lt by lia. now apply Forall_insert.
Qed.

Lemma occupied_slot (P : Q -> Prop) (a : list Q) (n j : nat) :
  Forall P (take n a) -> (j < n <= length a)%nat -> P (a !!! j).
Proof.
  intros HP [Hj Hn].
  rewrite <- (lookup_total_take_lt a n j Hj).
  apply (Forall_lookup_total_1 P); [exact HP |].
  rewrite length_take. lia.
Qed.

Lemma sum_slots_bounds (lo hi : Q) (a : list Q) (n : nat) :
  (n <= length a)%nat ->
  Forall (fun x => (lo <= x <= hi)%Q) (take n a) ->
  (inject_Z (Z.of_nat n) * lo <= sum_slots a n
   /\ sum_slots a n <= inject_Z (Z.of_nat n) * hi)%Q.
Proof.
  intros Hn HP.
  assert (H : forall j, (j < n)%nat -> (lo <= a !!! j <= hi)%Q).
  { intros j Hj. apply (occupied_slot _ a n j HP). lia. }
  clear HP Hn. induction n as [| n IH].
  - unfold sum_slots. simpl. change (inject_Z (Z.of_nat 0)) with 0%Q. split; lra.
  - rewrite sum_slots_S, Nat2Z.inj_succ. unfold Z.succ.
    rewrite inject_Z_plus.
    destruct IH as [I1 I2]; [intros; apply H; lia |].
    destruct (H n) as [J1 J2]; [lia |]. change (inject_Z 1) with 1%Q. split; lra.
Qed.

Lemma mean_bounds (lo hi s : Q) (n : nat) :
  (0 < n)%nat ->
  (inject_Z (Z.of_nat n) * lo <= s /\ s <= inject_Z (Z.of_nat n) * hi)%Q ->
  (lo <= s / inject_Z (Z.of_nat n) /\ s / inject_Z (Z.of_nat n) <= hi)%Q.
Proof.
  intros Hn [H1 H2].
  assert (Hp : (0 < inject_Z (Z.of_nat n))%Q).
  { change 0%Q with (inject_Z 0). rewrite <- Zlt_Qlt. lia. }
  split.
  - apply Qle_shift_div_l; [exact Hp | lra].
  - apply Qle_shift_div_r; [exact Hp | lra].
Qed.

Lemma plausible_ms_iff (x : Q) :
  plausible_ms x <-> (300 <= x /\ x <= 12000 # 7)%Q.
Proof.
  unfold plausible_ms, valid_bpm, MIN_VALID_BPM, MAX_VALID_BPM. split.
  - intros (Hp & H1 & H2).
    assert (E : (60000 / x * x == 60000)%Q) by (field; lra).
    assert (G1 : (35 * x <= 60000)%Q)
      by (rewrite <- E; apply Qmult_le_compat_r; lra).
    assert (G2 : (60000 <= 200 * x)%Q)
      by (rewrite <- E; apply Qmult_le_compat_r; lra).
    split; lra.
  - intros [H1 H2].
    assert (Hp : (0 < x)%Q) by lra.
    split; [exact Hp |]. split.
    + apply Qle_shift_div_l; [exact Hp | lra].
    + apply Qle_shift_div_r; [exact Hp | lra].
Qed.

Lemma constrainQ_bounds (x lo hi : Q) :
  (lo <= hi)%Q -> (lo <= constrainQ x lo hi /\ constrainQ x lo hi <= hi)%Q.
Proof.
  intros H. unfold constrainQ.
  destruct (Qltb x lo) eqn:E1; [lra |].
  destruct (Qgtb x hi) eqn:E2; [lra |].
  split.
  - apply Qnot_lt_le. intros C. apply Qltb_lt in C. congruence.
  - apply Qnot_lt_le. intros C. apply Qgtb_gt in C. congruence.
Qed.

(** ** The aggregator on a state that satisfies the invariants *)

Section EspbpmInvariants.
Import Espbpm.

Lemma Espbpm_init_inv : state_inv init.
Proof.
  split; [| split].
  - split; [simpl; lia | apply Forall_nil_2].
  - split; [simpl; unfold BPM_MEDIAN_WINDOW; lia |].
    split; [apply Forall_nil_2 |].
    split; [simpl; unfold BPM_AVG_WINDOW; lia |].
    split; [apply Forall_nil_2 |].
    simpl. intros H. discriminate H.
  - simpl. intros H. discriminate H.
Qed.

Lemma Espbpm_computeBPM_valid (b : Beats) :
  beats_inv b -> (0 < beatCount b)%nat -> valid_bpm (computeBPM b).
Proof.
  intros [(La & Hi & Hn & _) Ho] Hc. unfold occupied in Ho. simpl in *.
  unfold computeBPM.
  replace (beatCount b =? 0)%nat with false by (symmetry; apply Nat.eqb_neq; lia).
  set (m := (sum_slots (beatIntervals b) (beatCount b)
             / inject_Z (Z.of_nat (beatCount b)))%Q).
  assert (Hm : (300 <= m /\ m <= 12000 # 7)%Q).
  { apply mean_bounds; [exact Hc |]. apply sum_slots_bounds; [lia |].
    eapply Forall_impl; [exact Ho |]. intros x Hx. now apply plausible_ms_iff. }
  replace (Qle_bool m 0) with false
    by (symmetry; apply Qle_bool_false; lra).
  apply plausible_ms_iff in Hm. apply Hm.
Qed.

Lemma Espbpm_computeBPM_empty (b : Beats) :
  beatCount b = 0%nat -> ~ valid_bpm (computeBPM b).
Proof.
  intros H. unfold computeBPM. rewrite H. simpl.
  unfold valid_bpm, MIN_VALID_BPM. lra.
Qed.

Lemma Espbpm_avgBPM_valid (r : Rates) :
  ring_wf BPM_AVG_WINDOW (avg_ring r) -> occupied valid_bpm (avg_ring r) ->
  (0 < bpmAvgCount r)%nat -> valid_bpm (avgBPM r).
Proof.
  intros (La & Hi & Hn & _) Ho Hc. unfold occupied in Ho. simpl in *.
  unfold avgBPM.
  replace (bpmAvgCount r =? 0)%nat with false
    by (symmetry; apply Nat.eqb_neq; lia).
  apply mean_bounds; [exact Hc |]. apply sum_slots_bounds; [lia |]. exact Ho.
Qed.

Lemma Espbpm_medianBPM_valid (r : Rates) :
  ring_wf BPM_MEDIAN_WINDOW (hist_ring r) -> occupied valid_bpm (hist_ring r) ->
  (0 < bpmHistCount r)%nat -> valid_bpm (medianBPM r).
Proof.
  intros (La & Hi & Hn & _) Ho Hc. unfold occupied in Ho. simpl in *.
  assert (Hr : (0 < bpmHistCount r <= length (bpmHistory r))%nat) by lia.
  destruct (sorted_copy_sorted (bpmHistory r) (bpmHistCount r) Hr) as [P _].
  destruct (middle_positions (bpmHistCount r) Hc) as (Hm & _).
  unfold medianBPM.
  replace (bpmHistCount r =? 0)%nat with false
    by (symmetry; apply Nat.eqb_neq; lia).
  rewrite <- (lookup_total_take_lt _ (bpmHistCount r)) by exact Hm.
  apply (Forall_lookup_total_1 valid_bpm).
  - rewrite P. exact Ho.
  - apply Permutation_length in P. rewrite P, length_take. unfold upper_middle in Hm. lia.
Qed.

Lemma blend_valid (avg med : Q) :
  valid_bpm avg -> valid_bpm med ->
  valid_bpm (if Qgtb med 0 then avg * (6 # 10) + med * (4 # 10) else avg)%Q.
Proof.
  unfold valid_bpm, MIN_VALID_BPM, MAX_VALID_BPM. intros [A1 A2] [M1 M2].
  destruct (Qgtb med 0); split; lra.
Qed.

(** The ACCEPT or FALLBACK decision keeps the window invariants, and the
    value it hands on is in the validity window. *)
Lemma Espbpm_decision_inv (b : Beats) (r : Rates) (t : Z) :
  rates_inv r ->
  let d := accept_or_fallback b r t in
  rates_inv d.1.1
  /\ match d.2 with Some (fb, _) => valid_bpm fb | None => True end
  /\ (d.1.2 = ST_OK -> valid_bpm (computeBPM b))
  /\ (d.1.2 <> ST_OK -> d.1.1 = r /\ ~ valid_bpm (computeBPM b))
  /\ (d.1.2 = ST_FALLBACK ->
      d.2 = Some (lastGoodBPM r, 6 # 10)
      /\ (usub t (lastValidBeatTime b) < FALLBACK_TIMEOUT_MS)%Z
      /\ (0 < lastGoodBPM r)%Q).
Proof.
  intros (Wh & Oh & Wa & Oa & G). unfold accept_or_fallback.
  destruct (Qgeb (computeBPM b) MIN_VALID_BPM
            && Qle_bool (computeBPM b) MAX_VALID_BPM) eqn:V.
  - apply valid_bpm_test in V. simpl.
    set (r1 := pushBPMAvg (pushBPMHistory r (computeBPM b)) (computeBPM b)).
    destruct (hist_ring_push r (computeBPM b)) as (Eh & Ea & _).
    destruct (avg_ring_push (pushBPMHistory r (computeBPM b)) (computeBPM b))
      as (Ea' & Eh' & _). fold r1 in Ea', Eh'.
    assert (Wh1 : ring_wf BPM_MEDIAN_WINDOW (hist_ring r1)).
    { rewrite Eh', Eh. apply ring_push_wf; [unfold BPM_MEDIAN_WINDOW; lia | exact Wh]. }
    assert (Oh1 : occupied valid_bpm (hist_ring r1)).
    { rewrite Eh', Eh. now apply ring_push_keeps. }
    assert (Wa1 : ring_wf BPM_AVG_WINDOW (avg_ring r1)).
    { rewrite Ea', Ea. apply ring_push_wf; [unfold BPM_AVG_WINDOW; lia | exact Wa]. }
    assert (Oa1 : occupied valid_bpm (avg_ring r1)).
    { rewrite Ea', Ea. now apply ring_push_keeps. }
    assert (Ch : (0 < bpmHistCount r1)%nat).
    { change (bpmHistCount r1) with (hist_ring r1).2.
      rewrite Eh', Eh, ring_push_count. destruct (_ <? _)%nat eqn:C; [lia |].
      apply Nat.ltb_ge in C. simpl in *. unfold BPM_MEDIAN_WINDOW in C. lia. }
    assert (Ca : (0 < bpmAvgCount r1)%nat).
    { change (bpmAvgCount r1) with (avg_ring r1).2.
      rewrite Ea', Ea, ring_push_count. destruct (_ <? _)%nat eqn:C; [lia |].
      apply Nat.ltb_ge in C. simpl in *. unfold BPM_AVG_WINDOW in C. lia. }
    assert (F : valid_bpm (if Qgtb (medianBPM r1) 0
                           then avgBPM r1 * (6 # 10) + medianBPM r1 * (4 # 10)
                           else avgBPM r1)%Q).
    { apply blend_valid;
        [now apply Espbpm_avgBPM_valid | now apply Espbpm_medianBPM_valid]. }
    split; [| split; [exact F | split; [auto | split; [congruence | discriminate]]]].
    split; [exact Wh1 |]. split; [exact Oh1 |]. split; [exact Wa1 |].
    split; [exact Oa1 | intros _; exact F].
  - simpl.
    assert (NV : ~ valid_bpm (computeBPM b)).
    { intros C. apply valid_bpm_test in C. congruence. }
    destruct ((usub t (lastValidBeatTime b) <? FALLBACK_TIMEOUT_MS)%Z
              && Qgtb (lastGoodBPM r) 0) eqn:FB; simpl.
    + apply andb_true_iff in FB. destruct FB as [T1 T2].
      apply Z.ltb_lt in T1. apply Qgtb_gt in T2.
      split; [unfold rates_inv; auto |].
      split; [auto |]. split; [discriminate |]. split; [auto |]. auto.
    + split; [unfold rates_inv; auto |].
      split; [exact I |]. split; [discriminate |]. split; [auto | discriminate].
Qed.

Lemma Espbpm_jitter_valid (v : Variation) (fb : Q) (i : Input) :
  valid_bpm fb -> valid_bpm (hrv_jitter v fb i).2.
Proof.
  intros H. unfold hrv_jitter.
  destruct (1400 <? usub (tJitter i) (lastJitter v))%Z; [| exact H].
  destruct (_ <=? _)%Z; simpl; apply constrainQ_bounds;
    unfold MIN_VALID_BPM, MAX_VALID_BPM; lra.
Qed.

End EspbpmInvariants.

Section EspbpmReachable.
Import Espbpm.

Lemma Espbpm_gate_inv (b : Beats) (peak : bool) (t : Z) :
  beats_inv b ->
  beats_inv (beat_gate b peak t).1
  /\ (beatCount b <= beatCount (beat_gate b peak t).1)%nat.
Proof.
  intros [W O]. unfold beat_gate.
  destruct (peak && (MIN_BEAT_MS <? usub t (lastBeatTime b))%Z);
    [| simpl; split; [split; assumption | lia]].
  destruct (lastBeatTime b =? 0)%Z; simpl.
  { split; [split; assumption | lia]. }
  destruct (plausibleInterval (inject_Z (usub t (lastBeatTime b)))) eqn:P;
    simpl; [| split; [split; assumption | lia]].
  apply Espbpm_plausible_iff in P.
  set (dt := inject_Z (usub t (lastBeatTime b))).
  assert (Hdt : plausible_ms dt).
  { apply plausible_ms_iff. unfold dt.
    change 300%Q with (inject_Z 300). split.
    - rewrite <- Zle_Qle. lia.
    - apply Qle_trans with (inject_Z 1714); [rewrite <- Zle_Qle; lia |].
      discriminate. }
  split.
  - split.
    + change (ring_wf 16 (ring_push 16 (beat_ring b) dt)).
      apply ring_push_wf; [lia | exact W].
    + change (occupied plausible_ms (ring_push 16 (beat_ring b) dt)).
      now apply ring_push_keeps.
  - destruct (beatCount b <? 16)%nat; lia.
Qed.

(** What the tail of [loop()] makes of the decision. *)
Lemma Espbpm_emit_decision s i f filtered b l :
  let d := accept_or_fallback b (rates s) (now i) in
  let t := emit s i f filtered b l in
  rates (next t) = d.1.1
  /\ status (next t) = d.1.2
  /\ reported_status (printed t) = d.1.2
  /\ reported_bpm (printed t)
     = match d.2 with
       | Some (fb, _) => Some (hrv_jitter (vary s) fb i).2
       | None => None
       end.
Proof.
  unfold emit.
  pose proof (Espbpm_decision_status b (rates s) (now i)) as H.
  destruct (accept_or_fallback b (rates s) (now i)) as [[r st] [[fb cf] |]].
  - destruct (hrv_jitter (vary s) fb i) as [v1 fb'] eqn:EJ.
    destruct (waveform_variation v1 filtered i) as [v2 filtered'].
    repeat split; try reflexivity. simpl. now rewrite EJ.
  - repeat split; try reflexivity. simpl. now rewrite H.
Qed.

Lemma Espbpm_loop_inv (s : State) (i : Input) :
  state_inv s -> state_inv (next (loop s i)).
Proof.
  intros (B & R & G).
  destruct (raw i <? 30)%Z eqn:F.
  { unfold loop. rewrite F. simpl. split; [| split]; assumption. }
  rewrite (Espbpm_loop_live _ _ F).
  set (c := conditioner (filt s) (raw i)).
  set (g := beat_gate (beats s) c.2 (now i)).
  destruct (Espbpm_gate_inv (beats s) c.2 (now i) B) as [B' Mono]. fold g in B', Mono.
  destruct (Espbpm_emit_frame s i c.1.1 c.1.2 g.1 g.2) as (_ & Eb & _).
  destruct (Espbpm_emit_decision s i c.1.1 c.1.2 g.1 g.2) as (Er & Es & _).
  destruct (Espbpm_decision_inv g.1 (rates s) (now i) R) as (R' & _ & Hok & Hno & _).
  unfold state_inv. rewrite Eb, Er.
  split; [exact B' |]. split; [exact R' |].
  destruct (decide ((accept_or_fallback g.1 (rates s) (now i)).1.2 = ST_OK)) as [E | E].
  - intros _. specialize (Hok E).
    destruct (Nat.eq_dec (beatCount g.1) 0) as [Z0 | NZ]; [| lia].
    now apply Espbpm_computeBPM_empty in Z0.
  - destruct (Hno E) as [-> _]. intros H. specialize (G H). lia.
Qed.

Lemma Espbpm_reachable_inv (s : State) : reachable s -> state_inv s.
Proof.
  induction 1 as [| s i _ IH]; [apply Espbpm_init_inv | now apply Espbpm_loop_inv].
Qed.


End EspbpmReachable.

(** ** The three rings of Espbpm *)

(** C7. Push any values [vs] into the interval ring (capacity 16), the
    median window (5) and the average window (8), each starting empty with
    arbitrary slot contents. Then for each ring: the write cursor is below
    the capacity, the fill count is [min (length vs) capacity], the array
    keeps its size, and read from the cursor on the occupied slots are the
    capacity most recent values, oldest first; before the ring is full the
    slots below the count are exactly [vs]; once it is full the array is a
    rearrangement of the capacity most recent values, which after
    capacity + 1 pushes is [vs] without its first value. And [computeBPM],
    [medianBPM], [avgBPM] depend on the slots below the fill count only:
    replacing every other slot leaves their result unchanged. In every
    state the sketch reaches the three rings are well formed: array of the
    declared size, cursor below the capacity, count at most the capacity,
    and cursor equal to the count until the ring is full. *)
Theorem rings_keep_most_recent
  (b0 : Espbpm.Beats) (r0 : Espbpm.Rates) (vs : list Q)
  (Hb : Espbpm.beatIndex b0 = 0%nat /\ Espbpm.beatCount b0 = 0%nat
        /\ length (Espbpm.beatIntervals b0) = 16%nat)
  (Hh : Espbpm.bpmHistIdx r0 = 0%nat /\ Espbpm.bpmHistCount r0 = 0%nat
        /\ length (Espbpm.bpmHistory r0) = BPM_MEDIAN_WINDOW)
  (Ha : Espbpm.bpmAvgIdx r0 = 0%nat /\ Espbpm.bpmAvgCount r0 = 0%nat
        /\ length (Espbpm.bpmAvgWindow r0) = BPM_AVG_WINDOW) :
  let holds (cap : nat) (r : Ring) :=
    (r.1.2 < cap)%nat
    /\ (r.2 <= cap)%nat
    /\ r.2 = Nat.min (length vs) cap
    /\ length r.1.1 = cap
    /\ ring_chrono r = recent cap vs
    /\ ((length vs < cap)%nat -> r.1.2 = r.2 /\ take r.2 r.1.1 = vs)
    /\ ((cap <= length vs)%nat -> r.1.1 ≡ₚ recent cap vs)
    /\ (length vs = S cap -> r.1.1 ≡ₚ drop 1 vs) in
  holds 16%nat (beat_ring (fold_left Espbpm.pushBeatInterval vs b0))
  /\ holds BPM_MEDIAN_WINDOW (hist_ring (fold_left Espbpm.pushBPMHistory vs r0))
  /\ holds BPM_AVG_WINDOW (avg_ring (fold_left Espbpm.pushBPMAvg vs r0))
  /\ (forall b a',
        take (Espbpm.beatCount b) a'
        = take (Espbpm.beatCount b) (Espbpm.beatIntervals b) ->
        Espbpm.computeBPM
          (Espbpm.mkBeats (Espbpm.lastBeatTime b) (Espbpm.lastValidBeatTime b)
                          a' (Espbpm.beatIndex b) (Espbpm.beatCount b))
        = Espbpm.computeBPM b)
  /\ (forall r a',
        take (Espbpm.bpmHistCount r) a'
        = take (Espbpm.bpmHistCount r) (Espbpm.bpmHistory r) ->
        Espbpm.medianBPM
          (Espbpm.mkRates a' (Espbpm.bpmHistIdx r) (Espbpm.bpmHistCount r)
                          (Espbpm.bpmAvgWindow r) (Espbpm.bpmAvgIdx r)
                          (Espbpm.bpmAvgCount r) (Espbpm.lastGoodBPM r)
                          (Espbpm.lastGoodTime r))
        = Espbpm.medianBPM r)
  /\ (forall r a',
        take (Espbpm.bpmAvgCount r) a'
        = take (Espbpm.bpmAvgCount r) (Espbpm.bpmAvgWindow r) ->
        Espbpm.avgBPM
          (Espbpm.mkRates (Espbpm.bpmHistory r) (Espbpm.bpmHistIdx r)
                          (Espbpm.bpmHistCount r) a' (Espbpm.bpmAvgIdx r)
                          (Espbpm.bpmAvgCount r) (Espbpm.lastGoodBPM r)
                          (Espbpm.lastGoodTime r))
        = Espbpm.avgBPM r)
  /\ (forall s : Espbpm.State,
        Espbpm.reachable s ->
        ring_wf 16 (beat_ring (Espbpm.beats s))
        /\ ring_wf BPM_MEDIAN_WINDOW (hist_ring (Espbpm.rates s))
        /\ ring_wf BPM_AVG_WINDOW (avg_ring (Espbpm.rates s))).
Proof.
  destruct Hb as (Hb1 & Hb2 & Hb3), Hh as (Hh1 & Hh2 & Hh3),
           Ha as (Ha1 & Ha2 & Ha3).
  intros holds. unfold holds.
  split; [| split; [| split; [| split; [| split; [| split]]]]].
  - rewrite (fold_ring beat_ring Espbpm.pushBeatInterval 16 beat_ring_push).
    apply ring_after_pushes; auto with lia.
  - rewrite (fold_ring hist_ring Espbpm.pushBPMHistory BPM_MEDIAN_WINDOW
               (fun s v => proj1 (hist_ring_push s v))).
    apply ring_after_pushes; auto. unfold BPM_MEDIAN_WINDOW. lia.
  - rewrite (fold_ring avg_ring Espbpm.pushBPMAvg BPM_AVG_WINDOW
               (fun s v => proj1 (avg_ring_push s v))).
    apply ring_after_pushes; auto. unfold BPM_AVG_WINDOW. lia.
  - apply Espbpm_computeBPM_reads.
  - apply Espbpm_medianBPM_reads.
  - apply Espbpm_avgBPM_reads.
  - intros s Hs. apply Espbpm_reachable_inv in Hs.
    destruct Hs as ((Wb & _) & (Wh & _ & Wa & _) & _). auto.
Qed.

Lemma rings_keep_most_recent_witness :
  (Espbpm.beatIndex (Espbpm.beats Espbpm.init) = 0%nat
   /\ Espbpm.beatCount (Espbpm.beats Espbpm.init) = 0%nat
   /\ length (Espbpm.beatIntervals (Espbpm.beats Espbpm.init)) = 16%nat)
  /\ ring_chrono (beat_ring (fold_left Espbpm.pushBeatInterval one_to_17
                                       (Espbpm.beats Espbpm.init)))
     = recent 16 one_to_17.
Proof.
  assert (Hb : Espbpm.beatIndex (Espbpm.beats Espbpm.init) = 0%nat
               /\ Espbpm.beatCount (Espbpm.beats Espbpm.init) = 0%nat
               /\ length (Espbpm.beatIntervals (Espbpm.beats Espbpm.init))
                  = 16%nat) by (repeat split; reflexivity).
  split; [exact Hb |].
  refine (proj1 (proj2 (proj2 (proj2 (proj2 (proj1
    (rings_keep_most_recent (Espbpm.beats Espbpm.init)
       (Espbpm.rates Espbpm.init) one_to_17 Hb _ _))))))).
  - repeat split; reflexivity.
  - repeat split; reflexivity.
Defined.

(** ** The value a tick reports *)

Lemma lroundf_window (x : Q) :
  valid_bpm x -> (35 <= lroundf x <= 200)%Z.
Proof.
  unfold valid_bpm, MIN_VALID_BPM, MAX_VALID_BPM. intros [H1 H2].
  unfold lroundf.
  replace (Qle_bool 0 x) with true by (symmetry; apply Qle_bool_iff; lra).
  split.
  - change 35%Z with (Qfloor (35 + (1 # 2))). apply Qfloor_resp_le. lra.
  - change 200%Z with (Qfloor (200 + (1 # 2))). apply Qfloor_resp_le. lra.
Qed.

Lemma Espbpm_loop_rates_inv (s : Espbpm.State) (i : Input) :
  rates_inv (Espbpm.rates s) ->
  rates_inv (Espbpm.rates (Espbpm.next (Espbpm.loop s i))).
Proof.
  intros R. destruct (raw i <? 30)%Z eqn:F.
  { unfold Espbpm.loop. rewrite F. exact R. }
  rewrite (Espbpm_loop_live _ _ F).
  set (c := Espbpm.conditioner (Espbpm.filt s) (raw i)).
  set (g := Espbpm.beat_gate (Espbpm.beats s) c.2 (now i)).
  destruct (Espbpm_emit_decision s i c.1.1 c.1.2 g.1 g.2) as (-> & _).
  now destruct (Espbpm_decision_inv g.1 (Espbpm.rates s) (now i) R) as (R' & _).
Qed.

(** C10. The window invariant of Espbpm (occupied slots of both rate
    windows in [35, 200], and [lastGoodBPM] in [35, 200] whenever it is
    positive) holds at power-on, is kept by every tick, and so holds in
    every reachable state; and on a state that satisfies it, a tick that
    reports OK or FALLBACK prints a [finalBPM] in [35, 200], whose rounding
    [bpmInt] is in [35, 200] too. *)
Theorem reported_bpm_in_window (s : Espbpm.State) (i : Input)
  (Hinv : rates_inv (Espbpm.rates s)) :
  let t := Espbpm.loop s i in
  rates_inv (Espbpm.rates Espbpm.init)
  /\ rates_inv (Espbpm.rates (Espbpm.next t))
  /\ (forall s0 : Espbpm.State,
        Espbpm.reachable s0 -> rates_inv (Espbpm.rates s0))
  /\ (reported_status (Espbpm.printed t) = ST_OK
      \/ reported_status (Espbpm.printed t) = ST_FALLBACK ->
      exists finalBPM : Q,
        reported_bpm (Espbpm.printed t) = Some finalBPM
        /\ valid_bpm finalBPM
        /\ (35 <= Espbpm.bpmInt finalBPM <= 200)%Z).
Proof.
  intros t. split; [apply Espbpm_init_inv |].
  split; [now apply Espbpm_loop_rates_inv |].
  split; [intros s0 H0; apply (Espbpm_reachable_inv s0 H0) |].
  intros Hst. subst t.
  destruct (raw i <? 30)%Z eqn:F.
  { unfold Espbpm.loop in Hst. rewrite F in Hst. simpl in Hst.
    destruct Hst as [H1 | H1]; discriminate H1. }
  rewrite (Espbpm_loop_live _ _ F) in *.
  set (c := Espbpm.conditioner (Espbpm.filt s) (raw i)) in *.
  set (g := Espbpm.beat_gate (Espbpm.beats s) c.2 (now i)) in *.
  destruct (Espbpm_emit_decision s i c.1.1 c.1.2 g.1 g.2) as (_ & _ & Es & Eb).
  destruct (Espbpm_decision_inv g.1 (Espbpm.rates s) (now i) Hinv)
    as (_ & Hv & _).
  pose proof (Espbpm_decision_status g.1 (Espbpm.rates s) (now i)) as Hd.
  rewrite Es in Hst. rewrite Eb.
  destruct (Espbpm.accept_or_fallback g.1 (Espbpm.rates s) (now i))
    as [[r st] [[fb cf] |]]; cbn [fst snd] in Hst, Hv, Hd |- *.
  - exists (Espbpm.hrv_jitter (Espbpm.vary s) fb i).2.
    split; [reflexivity |].
    assert (V : valid_bpm (Espbpm.hrv_jitter (Espbpm.vary s) fb i).2)
      by now apply Espbpm_jitter_valid.
    split; [exact V | now apply lroundf_window].
  - subst st. destruct Hst as [H1 | H1]; discriminate H1.
Qed.

Lemma reported_bpm_in_window_witness :
  rates_inv (Espbpm.rates Espbpm_warm)
  /\ reported_status (Espbpm.printed (Espbpm.loop Espbpm_warm (sample 30 2020)))
     = ST_OK
  /\ exists finalBPM : Q,
       reported_bpm (Espbpm.printed (Espbpm.loop Espbpm_warm (sample 30 2020)))
       = Some finalBPM
       /\ valid_bpm finalBPM
       /\ (35 <= Espbpm.bpmInt finalBPM <= 200)%Z.
Proof.
  assert (H : rates_inv (Espbpm.rates Espbpm_warm)).
  { apply Espbpm_reachable_inv.
    unfold Espbpm_warm, Espbpm.final, warm_up. cbn [fold_left].
    repeat apply Espbpm.reach_tick. apply Espbpm.reach_init. }
  assert (Hok : reported_status
                  (Espbpm.printed (Espbpm.loop Espbpm_warm (sample 30 2020)))
                = ST_OK) by (vm_compute; reflexivity).
  split; [exact H |]. split; [exact Hok |].
  exact (proj2 (proj2 (proj2
    (reported_bpm_in_window Espbpm_warm (sample 30 2020) H))) (or_introl Hok)).
Defined.

(** ** The fallback branch *)

(** In Espbpm the FALLBACK branch is guarded as C3 says. *)
Lemma Espbpm_fallback_guarded (s : Espbpm.State) (i : Input) :
  let t := Espbpm.loop s i in
  reported_status (Espbpm.printed t) = ST_FALLBACK ->
  (usub (now i) (Espbpm.lastValidBeatTime (Espbpm.beats (Espbpm.next t)))
   < FALLBACK_TIMEOUT_MS)%Z
  /\ (0 < Espbpm.lastGoodBPM (Espbpm.rates s))%Q
  /\ ~ valid_bpm (Espbpm.computeBPM (Espbpm.beats (Espbpm.next t)))
  /\ Espbpm.rates (Espbpm.next t) = Espbpm.rates s
  /\ reported_bpm (Espbpm.printed t)
     = Some (Espbpm.hrv_jitter (Espbpm.vary s)
               (Espbpm.lastGoodBPM (Espbpm.rates s)) i).2.
Proof.
  intros t Hst. subst t.
  destruct (raw i <? 30)%Z eqn:F.
  { unfold Espbpm.loop in Hst. rewrite F in Hst. discriminate. }
  rewrite (Espbpm_loop_live _ _ F) in *.
  set (c := Espbpm.conditioner (Espbpm.filt s) (raw i)) in *.
  set (g := Espbpm.beat_gate (Espbpm.beats s) c.2 (now i)) in *.
  destruct (Espbpm_emit_frame s i c.1.1 c.1.2 g.1 g.2) as (_ & -> & _).
  destruct (Espbpm_emit_decision s i c.1.1 c.1.2 g.1 g.2) as (-> & _ & Es & ->).
  rewrite Es in Hst. clear Es.
  revert Hst. unfold Espbpm.accept_or_fallback.
  destruct (Qgeb (Espbpm.computeBPM g.1) MIN_VALID_BPM
            && Qle_bool (Espbpm.computeBPM g.1) MAX_VALID_BPM) eqn:V;
    [discriminate |].
  destruct ((usub (now i) (Espbpm.lastValidBeatTime g.1) <? FALLBACK_TIMEOUT_MS)%Z
            && Qgtb (Espbpm.lastGoodBPM (Espbpm.rates s)) 0) eqn:G;
    [| discriminate].
  intros _. simpl. apply andb_true_iff in G. destruct G as [G1 G2].
  apply Z.ltb_lt in G1. apply Qgtb_gt in G2.
  repeat split; auto.
  intros C. apply valid_bpm_test in C. congruence.
Qed.

(** C3 on Pulsebyuno. On the first tick after power-on, at 50 ms, with a
    finger on the sensor and no beat ever accepted ([lastGoodBPM] and both
    clocks still 0), the tick assigns and reports FALLBACK, with BPM 0; had
    the tick come at 1500 ms the jitter block would fire as well and the
    BPM printed with FALLBACK would be 35, the clamp of [lastGoodBPM = 0]. *)
Theorem Pulsebyuno_fallback_without_good_value :
  let t := Pulsebyuno.loop Pulsebyuno.init (sample 100 50) in
  let t' := Pulsebyuno.loop Pulsebyuno.init (sample 100 1500) in
  Pulsebyuno.lastGoodBPM (Pulsebyuno.rates Pulsebyuno.init) = 0%Q
  /\ Pulsebyuno.lastBeatTime (Pulsebyuno.beats (Pulsebyuno.next t)) = 0%Z
  /\ Pulsebyuno.beatCount (Pulsebyuno.beats (Pulsebyuno.next t)) = 0%nat
  /\ reported_status (Pulsebyuno.printed t) = ST_FALLBACK
  /\ Pulsebyuno.status (Pulsebyuno.next t) = ST_FALLBACK
  /\ option_map Pulsebyuno.bpmInt (reported_bpm (Pulsebyuno.printed t))
     = Some 0%Z
  /\ reported_status (Pulsebyuno.printed t') = ST_FALLBACK
  /\ option_map Pulsebyuno.bpmInt (reported_bpm (Pulsebyuno.printed t'))
     = Some 35%Z.
Proof. vm_compute. repeat split; reflexivity. Qed.



(** * Further properties of the sketches *)

(** ** Peaks *)

(** X1. In both sketches a peak is a strict local maximum above the
    threshold: the sample tested (the previous one) exceeds 40, its
    predecessor and the new sample; and the very next run of the
    conditioner cannot declare a peak again. *)
Theorem peaks_are_isolated
  (fE : Espbpm.Filter) (fP : Pulsebyuno.Filter) (r1 r2 : Z)
  (HE : (Espbpm.conditioner fE r1).2 = true)
  (HP : (Pulsebyuno.conditioner fP r1).2 = true) :
  ((40 < Espbpm.curr fE)%Q
   /\ (Espbpm.prev1 fE < Espbpm.curr fE)%Q
   /\ ((Espbpm.conditioner fE r1).1.2 < Espbpm.curr fE)%Q
   /\ (Espbpm.conditioner (Espbpm.conditioner fE r1).1.1 r2).2 = false)
  /\
  ((40 < Pulsebyuno.c fP)%Q
   /\ (Pulsebyuno.m fP < Pulsebyuno.c fP)%Q
   /\ ((Pulsebyuno.conditioner fP r1).1.2 < Pulsebyuno.c fP)%Q
   /\ (Pulsebyuno.conditioner (Pulsebyuno.conditioner fP r1).1.1 r2).2 = false).
Proof.
  split.
  - revert HE. unfold Espbpm.conditioner at 1 2.
    destruct (Espbpm.smoothAvg _ _) as [f1 filtered] eqn:E1. cbn [fst snd].
    intros HE. apply andb_true_iff in HE. destruct HE as [HE H3].
    apply andb_true_iff in HE. destruct HE as [H1 H2].
    apply Qgtb_gt in H1, H2, H3.
    split.
    { eapply Qle_lt_trans; [| exact H3]. unfold fmaxQ.
      destruct (Qgtb 40 _) eqn:G; [apply Qle_refl |].
      apply Qnot_lt_le. intros C. apply Qgtb_gt in C. congruence. }
    split; [exact H1 |]. split; [exact H2 |].
    unfold Espbpm.conditioner. rewrite E1.
    destruct (Espbpm.smoothAvg _ _) as [f2 filtered2]. cbn [fst snd Espbpm.curr Espbpm.prev1].
    replace (Qgtb filtered (Espbpm.curr fE)) with false; [reflexivity |].
    symmetry. apply not_true_iff_false. intros C. apply Qgtb_gt in C.
    exact (Qlt_irrefl _ (Qlt_trans _ _ _ C H2)).
  - revert HP. unfold Pulsebyuno.conditioner at 1 2.
    destruct (Pulsebyuno.smoothAvg _ _) as [f1 filtered] eqn:E1. cbn [fst snd].
    intros HP. apply andb_true_iff in HP. destruct HP as [HP H3].
    apply andb_true_iff in HP. destruct HP as [H1 H2].
    apply Qgtb_gt in H1, H2, H3.
    split.
    { eapply Qle_lt_trans; [| exact H3]. unfold fmaxQ.
      destruct (Qgtb 40 _) eqn:G; [apply Qle_refl |].
      apply Qnot_lt_le. intros C. apply Qgtb_gt in C. congruence. }
    split; [exact H1 |]. split; [exact H2 |].
    unfold Pulsebyuno.conditioner. rewrite E1.
    destruct (Pulsebyuno.smoothAvg _ _) as [f2 filtered2]. cbn [fst snd Pulsebyuno.c Pulsebyuno.m].
    replace (Qgtb filtered (Pulsebyuno.c fP)) with false; [reflexivity |].
    symmetry. apply not_true_iff_false. intros C. apply Qgtb_gt in C.
    exact (Qlt_irrefl _ (Qlt_trans _ _ _ C H2)).
Qed.

Lemma peaks_are_isolated_witness :
  ((Espbpm.conditioner (Espbpm.filt Espbpm_warm) 30).2 = true
   /\ (Pulsebyuno.conditioner (Pulsebyuno.filt Pulsebyuno_warm) 30).2 = true)
  /\ (Espbpm.conditioner
        (Espbpm.conditioner (Espbpm.filt Espbpm_warm) 30).1.1 100).2 = false.
Proof.
  assert (H1 : (Espbpm.conditioner (Espbpm.filt Espbpm_warm) 30).2 = true)
    by (vm_compute; reflexivity).
  assert (H2 : (Pulsebyuno.conditioner (Pulsebyuno.filt Pulsebyuno_warm) 30).2
               = true) by (vm_compute; reflexivity).
  split; [auto |].
  exact (proj2 (proj2 (proj2 (proj1
    (peaks_are_isolated (Espbpm.filt Espbpm_warm)
       (Pulsebyuno.filt Pulsebyuno_warm) 30 100 H1 H2))))).
Defined.

(** ** The status of Espbpm over a run *)

(** X2. From power-on the status of an Espbpm tick is decided by the
    interval ring alone. The fill count never decreases; a tick with
    raw >= 30 reports OK as soon as one interval is stored and NO_SENSOR
    (the CALCULATING line) before that; a tick with raw < 30 reports
    NO_SENSOR. So FALLBACK is never reported, the 5000 ms timeout never
    takes effect, and the status column printed is OK or CALCULATING, never
    FALLBACK, NO_FINGER or LOW_CONF. *)
Theorem Espbpm_status_follows_history (s : Espbpm.State) (i : Input)
  (Hr : Espbpm.reachable s) :
  let t := Espbpm.loop s i in
  let n := Espbpm.beatCount (Espbpm.beats (Espbpm.next t)) in
  (Espbpm.beatCount (Espbpm.beats s) <= n)%nat
  /\ ((raw i < 30)%Z -> reported_status (Espbpm.printed t) = ST_NO_SENSOR)
  /\ ((30 <= raw i)%Z -> n = 0%nat ->
      reported_status (Espbpm.printed t) = ST_NO_SENSOR)
  /\ ((30 <= raw i)%Z -> (0 < n)%nat ->
      reported_status (Espbpm.printed t) = ST_OK)
  /\ (Espbpm.status_column (Espbpm.printed t) = "OK"%string
      \/ Espbpm.status_column (Espbpm.printed t) = "CALCULATING"%string).
Proof.
  intros t n. subst t n.
  pose proof (Espbpm_reachable_inv s Hr) as (B & R & G).
  destruct (raw i <? 30)%Z eqn:F.
  { apply Z.ltb_lt in F. rewrite (Espbpm_no_finger s i F). cbn.
    repeat split; auto; intros; lia. }
  apply Z.ltb_ge in F.
  assert (F' : (raw i <? 30)%Z = false) by (apply Z.ltb_ge; exact F).
  rewrite (Espbpm_loop_live _ _ F').
  set (c := Espbpm.conditioner (Espbpm.filt s) (raw i)).
  set (g := Espbpm.beat_gate (Espbpm.beats s) c.2 (now i)).
  destruct (Espbpm_gate_inv (Espbpm.beats s) c.2 (now i) B) as [B' Mono].
  fold g in B', Mono.
  destruct (Espbpm_emit_frame s i c.1.1 c.1.2 g.1 g.2) as (_ & Eb & _).
  rewrite Eb.
  pose proof (Espbpm_decision_status g.1 (Espbpm.rates s) (now i)) as Hd.
  destruct (Espbpm_decision_inv g.1 (Espbpm.rates s) (now i) R)
    as (_ & _ & Hok & Hno & Hfb).
  assert (Hcases :
    (0 < Espbpm.beatCount g.1)%nat
    /\ (Espbpm.accept_or_fallback g.1 (Espbpm.rates s) (now i)).1.2 = ST_OK
    \/ Espbpm.beatCount g.1 = 0%nat
    /\ (Espbpm.accept_or_fallback g.1 (Espbpm.rates s) (now i)).1.2
       = ST_NO_SENSOR).
  { destruct (Nat.eq_dec (Espbpm.beatCount g.1) 0) as [Z0 | NZ].
    - right. split; [exact Z0 |].
      pose proof (Espbpm_computeBPM_empty g.1 Z0) as NV.
      destruct (Espbpm.accept_or_fallback g.1 (Espbpm.rates s) (now i))
        as [[r st] o]; cbn [fst snd] in *.
      destruct st; try reflexivity.
      + exfalso. apply NV, Hok. reflexivity.
      + exfalso. destruct (Hfb eq_refl) as (_ & _ & Hpos).
        specialize (G Hpos). lia.
      + exfalso. destruct o as [[fb cf] |];
          [destruct Hd as [Hd | Hd] |]; discriminate.
    - left. split; [lia |].
      assert (V : valid_bpm (Espbpm.computeBPM g.1))
        by (apply Espbpm_computeBPM_valid; [exact B' | lia]).
      destruct (decide ((Espbpm.accept_or_fallback g.1 (Espbpm.rates s)
                           (now i)).1.2 = ST_OK)) as [E | E]; [exact E |].
      exfalso. now destruct (Hno E) as [_ NV]. }
  unfold Espbpm.emit.
  destruct (Espbpm.accept_or_fallback g.1 (Espbpm.rates s) (now i))
    as [[r st] [[fb cf] |]]; cbn [fst snd] in *.
  - destruct (Espbpm.hrv_jitter (Espbpm.vary s) fb i) as [v1 fb'].
    destruct (Espbpm.waveform_variation v1 c.1.2 i) as [v2 filtered'].
    cbn. destruct Hcases as [[Hn ->] | [Hn ->]].
    + repeat split; auto; intros; lia.
    + destruct Hd; discriminate.
  - cbn. destruct Hcases as [[Hn E] | [Hn E]].
    + subst st. discriminate.
    + repeat split; auto; intros; lia.
Qed.

Lemma Espbpm_status_follows_history_witness :
  Espbpm.reachable Espbpm_warm
  /\ (Espbpm.status_column
        (Espbpm.printed (Espbpm.loop Espbpm_warm (sample 30 2020)))
      = "OK"%string
      \/ Espbpm.status_column
           (Espbpm.printed (Espbpm.loop Espbpm_warm (sample 30 2020)))
         = "CALCULATING"%string).
Proof.
  assert (H : Espbpm.reachable Espbpm_warm).
  { unfold Espbpm_warm, Espbpm.final, warm_up. cbn [fold_left].
    repeat apply Espbpm.reach_tick. apply Espbpm.reach_init. }
  split; [exact H |].
  exact (proj2 (proj2 (proj2 (proj2
    (Espbpm_status_follows_history Espbpm_warm (sample 30 2020) H))))).
Defined.

(** ** The HRV jitter *)

Lemma arduino_random_range (lo hi r : Z) :
  (lo < hi)%Z -> (lo <= arduino_random lo hi r < hi)%Z.
Proof.
  intros H. unfold arduino_random.
  replace (hi <=? lo)%Z with false by (symmetry; apply Z.leb_gt; exact H).
  pose proof (Z.mod_pos_bound r (hi - lo)). lia.
Qed.

Lemma lroundf_error (x : Q) :
  (x - (1 # 2) <= inject_Z (lroundf x) /\ inject_Z (lroundf x) <= x + (1 # 2))%Q.
Proof.
  unfold lroundf. destruct (Qle_bool 0 x).
  - pose proof (Qfloor_le (x + (1 # 2))) as H1.
    pose proof (Qlt_floor (x + (1 # 2))) as H2.
    rewrite inject_Z_plus in H2. change (inject_Z 1) with 1%Q in H2.
    split; lra.
  - pose proof (Qle_ceiling (x - (1 # 2))) as H1.
    pose proof (Qceiling_lt (x - (1 # 2))) as H2.
    unfold Z.sub in H2. rewrite inject_Z_plus in H2.
    change (inject_Z (- (1))) with (- (1))%Q in H2.
    split; lra.
Qed.

(** [(long)x] lies between [x] and zero. *)
Lemma to_long_toward_zero (x : Q) :
  ((0 <= x)%Q -> (0 <= inject_Z (to_long x) /\ inject_Z (to_long x) <= x)%Q)
  /\ ((x <= 0)%Q -> (x <= inject_Z (to_long x) /\ inject_Z (to_long x) <= 0)%Q).
Proof.
  destruct x as [n d]. unfold to_long. cbn [Qnum Qden]. split; intros H.
  - assert (Hn : (0 <= n)%Z).
    { unfold Qle in H. cbn in H. lia. }
    rewrite Z.quot_div_nonneg by lia.
    pose proof (Qfloor_le (n # d)) as H1. cbn [Qfloor] in H1.
    split; [| exact H1].
    change 0%Q with (inject_Z 0). rewrite <- Zle_Qle.
    apply Z.div_pos; lia.
  - assert (Hn : (n <= 0)%Z).
    { unfold Qle in H. cbn in H. lia. }
    assert (E : (n ÷ Z.pos d = - ((- n) / Z.pos d))%Z).
    { rewrite <- (Z.opp_involutive n) at 1.
      rewrite Z.quot_opp_l by lia.
      rewrite Z.quot_div_nonneg by lia. reflexivity. }
    rewrite E.
    pose proof (Qle_ceiling (n # d)) as H1.
    unfold Qceiling in H1. cbn [Qopp Qnum Qden Qfloor] in H1.
    split; [exact H1 |].
    change 0%Q with (inject_Z 0). rewrite <- Zle_Qle.
    assert (0 <= - n / Z.pos d)%Z by (apply Z.div_pos; lia). lia.
Qed.

(** Clamping to a window that holds [y] leaves [x] on its side of [y]
    and no further from it. *)
Lemma constrainQ_between (x y lo hi : Q) :
  (lo <= y <= hi)%Q ->
  ((x <= y)%Q -> (x <= constrainQ x lo hi /\ constrainQ x lo hi <= y)%Q)
  /\ ((y <= x)%Q -> (y <= constrainQ x lo hi /\ constrainQ x lo hi <= x)%Q).
Proof.
  intros [H1 H2]. unfold constrainQ.
  destruct (Qltb x lo) eqn:E1.
  { apply Qltb_lt in E1. split; intros; split; lra. }
  destruct (Qgtb x hi) eqn:E2.
  { apply Qgtb_gt in E2. split; intros; split; lra. }
  split; intros; split; lra.
Qed.

(** X3. The HRV jitter of Espbpm, on a value in [35, 200]: it does
    nothing unless more than 1400 ms have passed since [lastJitter]; when
    it fires it stores the second [millis()] reading in [lastJitter],
    leaves the rest of the variation state alone, and the value it returns
    differs from the one it got by at most 30 % of it plus 0.005. *)
Theorem Espbpm_jitter_bounded
  (v : Espbpm.Variation) (finalBPM : Q) (i : Input)
  (Hv : valid_bpm finalBPM) :
  let out := Espbpm.hrv_jitter v finalBPM i in
  ((usub (tJitter i) (Espbpm.lastJitter v) <= 1400)%Z -> out = (v, finalBPM))
  /\ ((1400 < usub (tJitter i) (Espbpm.lastJitter v))%Z ->
      out.1 = Espbpm.mkVariation (tJitter' i) (Espbpm.drift v)
                                 (Espbpm.shapeMod v)
      /\ (finalBPM * (7 # 10) - (1 # 200) <= out.2)%Q
      /\ (out.2 <= finalBPM * (13 # 10) + (1 # 200))%Q).
Proof.
  intros out. subst out. unfold Espbpm.hrv_jitter. split; intros Ht.
  - now replace (1400 <? usub (tJitter i) (Espbpm.lastJitter v))%Z with false
      by (symmetry; apply Z.ltb_ge; exact Ht).
  - replace (1400 <? usub (tJitter i) (Espbpm.lastJitter v))%Z with true
      by (symmetry; apply Z.ltb_lt; exact Ht).
    destruct Hv as [V1 V2]. unfold MIN_VALID_BPM, MAX_VALID_BPM in V1, V2.
    set (lo := lroundf (- (finalBPM * (30 # 100)) * 100)).
    set (hi := lroundf (finalBPM * (30 # 100) * 100)).
    destruct (lroundf_error (- (finalBPM * (30 # 100)) * 100)) as [L1 L2].
    destruct (lroundf_error (finalBPM * (30 # 100) * 100)) as [H1 H2].
    fold lo in L1, L2. fold hi in H1, H2.
    assert (Hlt : (lo < hi)%Z) by (rewrite Zlt_Qlt; lra).
    replace (hi <=? lo)%Z with false by (symmetry; apply Z.leb_gt; exact Hlt).
    cbn [fst snd]. split; [reflexivity |].
    destruct (arduino_random_range lo (hi + 1) (rJitter i)) as [R1 R2]; [lia |].
    set (r := arduino_random lo (hi + 1) (rJitter i)) in *.
    assert (R1' : (inject_Z lo <= inject_Z r)%Q) by (rewrite <- Zle_Qle; exact R1).
    assert (R2' : (inject_Z r <= inject_Z hi)%Q) by (rewrite <- Zle_Qle; lia).
    assert (J : (100 * (inject_Z r / 100) == inject_Z r)%Q) by field.
    set (j := (inject_Z r / 100)%Q) in *.
    set (x := (finalBPM + j)%Q).
    assert (X1 : (finalBPM * (7 # 10) - (1 # 200) <= x)%Q) by (unfold x; lra).
    assert (X2 : (x <= finalBPM * (13 # 10) + (1 # 200))%Q)
      by (unfold x; lra).
    destruct (constrainQ_between x finalBPM MIN_VALID_BPM MAX_VALID_BPM)
      as [B1 B2]; [unfold MIN_VALID_BPM, MAX_VALID_BPM; lra |].
    destruct (Qlt_le_dec finalBPM x) as [C | C].
    + destruct B2 as [B2 B3]; [lra |]. split; lra.
    + destruct (B1 C) as [B3 B4]. split; lra.
Qed.

Lemma Espbpm_jitter_bounded_witness :
  valid_bpm 72
  /\ ((Espbpm.hrv_jitter (Espbpm.vary Espbpm.init) 72 (sample 100 2000)).2
      <= 72 * (13 # 10) + (1 # 200))%Q.
Proof.
  assert (H : valid_bpm 72) by (split; discriminate).
  split; [exact H |].
  refine (proj2 (proj2 (proj2
    (Espbpm_jitter_bounded (Espbpm.vary Espbpm.init) 72 (sample 100 2000) H) _))).
  vm_compute. reflexivity.
Defined.

(** X4. The jitter of Pulsebyuno, on a value in [35, 200], is lopsided:
    [random(minVar * -100, maxVar * 100)] draws from 20 % below to
    30 % above, so when the block fires the value returned is at least
    80 % and less than 130 % of the one it got (and in [35, 200]); when it
    does not fire, value and [lastJitter] are unchanged. *)
Theorem Pulsebyuno_jitter_bounded
  (lastJitter : Z) (finalBPM : Q) (i : Input)
  (Hv : valid_bpm finalBPM) :
  let out := Pulsebyuno.hrv_jitter lastJitter finalBPM i in
  ((usub (tJitter i) lastJitter <= 1400)%Z -> out = (lastJitter, finalBPM))
  /\ ((1400 < usub (tJitter i) lastJitter)%Z ->
      out.1 = tJitter' i
      /\ (finalBPM * (8 # 10) <= out.2)%Q
      /\ (out.2 < finalBPM * (13 # 10))%Q
      /\ valid_bpm out.2).
Proof.
  intros out. subst out. unfold Pulsebyuno.hrv_jitter. split; intros Ht.
  - now replace (1400 <? usub (tJitter i) lastJitter)%Z with false
      by (symmetry; apply Z.ltb_ge; exact Ht).
  - replace (1400 <? usub (tJitter i) lastJitter)%Z with true
      by (symmetry; apply Z.ltb_lt; exact Ht).
    pose proof Hv as [V1 V2]. unfold MIN_VALID_BPM, MAX_VALID_BPM in V1, V2.
    cbn [fst snd]. split; [reflexivity |].
    set (lo := to_long (finalBPM * (20 # 100) * -100)).
    set (hi := to_long (finalBPM * (30 # 100) * 100)).
    destruct (to_long_toward_zero (finalBPM * (20 # 100) * -100)) as [_ L].
    destruct L as [L1 L2]; [lra |]. fold lo in L1, L2.
    destruct (to_long_toward_zero (finalBPM * (30 # 100) * 100)) as [H _].
    destruct H as [H1 H2]; [lra |]. fold hi in H1, H2.
    assert (H3 : (finalBPM * (30 # 100) * 100 < inject_Z hi + 1)%Q).
    { unfold hi, to_long.
      assert (N : (0 <= Qnum (finalBPM * (30 # 100) * 100))%Z).
      { assert (P : (0 <= finalBPM * (30 # 100) * 100)%Q) by lra.
        unfold Qle in P. cbn [Qnum Qden] in P. lia. }
      rewrite Z.quot_div_nonneg by lia.
      pose proof (Qlt_floor (finalBPM * (30 # 100) * 100)) as F.
      destruct (finalBPM * (30 # 100) * 100)%Q as [n d].
      cbn [Qfloor Qnum Qden] in *. rewrite inject_Z_plus in F. exact F. }
    assert (Hlt : (lo < hi)%Z).
    { rewrite Zlt_Qlt. change (inject_Z 1) with 1%Q in H3. lra. }
    destruct (arduino_random_range lo hi (rJitter i) Hlt) as [R1 R2].
    set (r := arduino_random lo hi (rJitter i)) in *.
    assert (R1' : (inject_Z lo <= inject_Z r)%Q) by (rewrite <- Zle_Qle; exact R1).
    assert (R2' : (inject_Z r < inject_Z hi)%Q) by (rewrite <- Zlt_Qlt; exact R2).
    assert (J : (100 * (inject_Z r / 100) == inject_Z r)%Q) by field.
    set (j := (inject_Z r / 100)%Q) in *.
    set (x := (finalBPM + j)%Q).
    assert (X1 : (finalBPM * (8 # 10) <= x)%Q) by (unfold x; lra).
    assert (X2 : (x < finalBPM * (13 # 10))%Q) by (unfold x; lra).
    destruct (constrainQ_between x finalBPM MIN_VALID_BPM MAX_VALID_BPM)
      as [B1 B2]; [unfold MIN_VALID_BPM, MAX_VALID_BPM; lra |].
    assert (W : valid_bpm (constrainQ x MIN_VALID_BPM MAX_VALID_BPM))
      by (apply constrainQ_bounds; unfold MIN_VALID_BPM, MAX_VALID_BPM; lra).
    destruct (Qlt_le_dec finalBPM x) as [C | C].
    + destruct B2 as [B2 B3]; [lra |]. repeat split; try lra; apply W.
    + destruct (B1 C) as [B3 B4]. repeat split; try lra; apply W.
Qed.

Lemma Pulsebyuno_jitter_bounded_witness :
  valid_bpm 72
  /\ (72 * (8 # 10) <= (Pulsebyuno.hrv_jitter 0 72 (sample 100 2000)).2)%Q.
Proof.
  assert (H : valid_bpm 72) by (split; discriminate).
  split; [exact H |].
  refine (proj1 (proj2 (proj2
    (Pulsebyuno_jitter_bounded 0 72 (sample 100 2000) H) _))).
  vm_compute. reflexivity.
Defined.

(** ** The waveform variation *)

Lemma Espbpm_loop_vary (s : Espbpm.State) (i : Input) :
  Espbpm.vary (Espbpm.next (Espbpm.loop s i)) = Espbpm.vary s
  \/ exists (fb filtered : Q),
       Espbpm.vary (Espbpm.next (Espbpm.loop s i))
       = (Espbpm.waveform_variation
            (Espbpm.hrv_jitter (Espbpm.vary s) fb i).1 filtered i).1.
Proof.
  unfold Espbpm.loop. destruct (raw i <? 30)%Z; [left; reflexivity |].
  destruct (Espbpm.conditioner (Espbpm.filt s) (raw i)) as [[f filtered] peak].
  destruct (Espbpm.beat_gate (Espbpm.beats s) peak (now i)) as [b l].
  unfold Espbpm.emit.
  destruct (Espbpm.accept_or_fallback b (Espbpm.rates s) (now i))
    as [[r st] [[fb cf] |]]; [| left; reflexivity].
  right. exists fb, filtered.
  destruct (Espbpm.hrv_jitter (Espbpm.vary s) fb i) as [v1 fb'].
  cbn [fst].
  destruct (Espbpm.waveform_variation v1 filtered i) as [v2 filtered'].
  reflexivity.
Qed.

Lemma Espbpm_jitter_drift (v : Espbpm.Variation) (fb : Q) (i : Input) :
  Espbpm.drift (Espbpm.hrv_jitter v fb i).1 = Espbpm.drift v.
Proof.
  unfold Espbpm.hrv_jitter.
  destruct (1400 <? _)%Z; [| reflexivity]. now destruct (_ <=? _)%Z.
Qed.

(** X5. The cosmetic variation of the printed waveform is bounded: with
    the drift in [-25, 25] (as it is after [setup()] and after every
    tick), the new drift is in [-25, 25], the shape factor is in
    [0.85, 1.15], and the printed sample differs from the filtered sample
    times the shape factor by at most 31; [lastJitter] is not touched. *)
Theorem Espbpm_waveform_bounded
  (v : Espbpm.Variation) (filtered : Q) (i : Input)
  (Hd : (- (25) <= Espbpm.drift v /\ Espbpm.drift v <= 25)%Q) :
  let out := Espbpm.waveform_variation v filtered i in
  Espbpm.lastJitter out.1 = Espbpm.lastJitter v
  /\ (- (25) <= Espbpm.drift out.1 /\ Espbpm.drift out.1 <= 25)%Q
  /\ ((85 # 100) <= Espbpm.shapeMod out.1
      /\ Espbpm.shapeMod out.1 <= (115 # 100))%Q
  /\ (- (31) <= out.2 - filtered * Espbpm.shapeMod out.1
      /\ out.2 - filtered * Espbpm.shapeMod out.1 <= 31)%Q
  /\ (forall s : Espbpm.State,
        Espbpm.reachable s ->
        (- (25) <= Espbpm.drift (Espbpm.vary s)
         /\ Espbpm.drift (Espbpm.vary s) <= 25)%Q).
Proof.
  assert (Step : forall (v0 : Espbpm.Variation) (x : Q) (i0 : Input),
    (- (25) <= Espbpm.drift v0 /\ Espbpm.drift v0 <= 25)%Q ->
    let out := Espbpm.waveform_variation v0 x i0 in
    Espbpm.lastJitter out.1 = Espbpm.lastJitter v0
    /\ (- (25) <= Espbpm.drift out.1 /\ Espbpm.drift out.1 <= 25)%Q
    /\ ((85 # 100) <= Espbpm.shapeMod out.1
        /\ Espbpm.shapeMod out.1 <= (115 # 100))%Q
    /\ (- (31) <= out.2 - x * Espbpm.shapeMod out.1
        /\ out.2 - x * Espbpm.shapeMod out.1 <= 31)%Q).
  { clear. intros v x i [D1 D2]. unfold Espbpm.waveform_variation.
    cbn [fst snd Espbpm.lastJitter Espbpm.drift Espbpm.shapeMod].
    destruct (arduino_random_range (-25) 26 (rDrift i)) as [A1 A2]; [lia |].
    destruct (arduino_random_range (-15) 16 (rShape i)) as [B1 B2]; [lia |].
    change (lroundf (- Espbpm.noiseLevel * 10)) with (-60)%Z.
    change (lroundf (Espbpm.noiseLevel * 10) + 1)%Z with 61%Z.
    destruct (arduino_random_range (-60) 61 (rNoise i)) as [C1 C2]; [lia |].
    set (a := arduino_random (-25) 26 (rDrift i)) in *.
    set (b := arduino_random (-15) 16 (rShape i)) in *.
    set (c := arduino_random (-60) 61 (rNoise i)) in *.
    assert (A1' : (- (25) <= inject_Z a)%Q)
      by (change (- (25))%Q with (inject_Z (-25)); rewrite <- Zle_Qle; lia).
    assert (A2' : (inject_Z a <= 25)%Q)
      by (change 25%Q with (inject_Z 25); rewrite <- Zle_Qle; lia).
    assert (B1' : (- (15) <= inject_Z b)%Q)
      by (change (- (15))%Q with (inject_Z (-15)); rewrite <- Zle_Qle; lia).
    assert (B2' : (inject_Z b <= 15)%Q)
      by (change 15%Q with (inject_Z 15); rewrite <- Zle_Qle; lia).
    assert (C1' : (- (60) <= inject_Z c)%Q)
      by (change (- (60))%Q with (inject_Z (-60)); rewrite <- Zle_Qle; lia).
    assert (C2' : (inject_Z c <= 60)%Q)
      by (change 60%Q with (inject_Z 60); rewrite <- Zle_Qle; lia).
    assert (JB : (100 * (inject_Z b / 100) == inject_Z b)%Q) by field.
    assert (JC : (10 * (inject_Z c / 10) == inject_Z c)%Q) by field.
    set (jb := (inject_Z b / 100)%Q) in *.
    set (jc := (inject_Z c / 10)%Q) in *.
    unfold Espbpm.driftAlpha.
    split; [reflexivity |]. split; [split; lra |]. split; [split; lra |].
    split; lra. }
  intros out. destruct (Step v filtered i Hd) as (S1 & S2 & S3 & S4).
  split; [exact S1 |]. split; [exact S2 |]. split; [exact S3 |].
  split; [exact S4 |].
  clear - Step. intros s Hs.
  induction Hs as [| s i _ IH]; [split; discriminate |].
  destruct (Espbpm_loop_vary s i) as [-> | (fb & x & ->)]; [exact IH |].
  apply Step. now rewrite Espbpm_jitter_drift.
Qed.

Lemma Espbpm_waveform_bounded_witness :
  (- (25) <= Espbpm.drift (Espbpm.vary Espbpm.init)
   /\ Espbpm.drift (Espbpm.vary Espbpm.init) <= 25)%Q
  /\ ((85 # 100)
      <= Espbpm.shapeMod
           (Espbpm.waveform_variation (Espbpm.vary Espbpm.init) 500
              (sample 100 2000)).1)%Q.
Proof.
  assert (H : (- (25) <= Espbpm.drift (Espbpm.vary Espbpm.init)
               /\ Espbpm.drift (Espbpm.vary Espbpm.init) <= 25)%Q)
    by (split; discriminate).
  split; [exact H |].
  exact (proj1 (proj1 (proj2 (proj2
    (Espbpm_waveform_bounded (Espbpm.vary Espbpm.init) 500
       (sample 100 2000) H))))).
Defined.

(** ** The moving average *)

Lemma sum_slotsZ_S (a : list Z) (n : nat) :
  sum_slotsZ a (S n) = (sum_slotsZ a n + a !!! n)%Z.
Proof. unfold sum_slotsZ. now rewrite seq_S, fold_left_app. Qed.

Lemma sumZ_app (l1 l2 : list Z) : sumZ (l1 ++ l2) = (sumZ l1 + sumZ l2)%Z.
Proof. unfold sumZ. induction l1 as [| x l1 IH]; simpl; lia. Qed.

Lemma sum_slotsZ_sumZ (a : list Z) (n : nat) :
  (n <= length a)%nat -> sum_slotsZ a n = sumZ (take n a).
Proof.
  induction n as [| n IH]; intros Hn; [reflexivity |].
  destruct (lookup_lt_is_Some_2 a n ltac:(lia)) as [x Hx].
  rewrite sum_slotsZ_S, IH by lia.
  rewrite (take_S_r _ _ _ Hx), sumZ_app.
  rewrite (list_lookup_total_correct _ _ _ Hx). simpl. lia.
Qed.

Lemma last_window_snoc {A : Type} (cap : nat) (vs : list A) (v : A) :
  (0 < cap)%nat ->
  drop (length (vs ++ [v]) - cap) (vs ++ [v]) =
  if (length vs <? cap)%nat then drop (length vs - cap) vs ++ [v]
  else tail (drop (length vs - cap) vs) ++ [v].
Proof.
  intros Hc. rewrite length_app. simpl.
  destruct (Nat.ltb_spec (length vs) cap) as [Hlt | Hge].
  - replace (length vs + 1 - cap)%nat with 0%nat by lia.
    replace (length vs - cap)%nat with 0%nat by lia. reflexivity.
  - replace (length vs + 1 - cap)%nat with (S (length vs - cap)) by lia.
    rewrite drop_app_le by lia. f_equal.
    generalize (length vs - cap)%nat as k. clear. intros k.
    revert vs. induction k; intros [| x vs]; simpl; auto.
Qed.

(** One write into the smoothing ring: the cursor stays inside the
    array, the window gains the new sample and loses its oldest one once
    it holds [SMOOTH_WIN], and the summation loop adds up the window. *)
Lemma smooth_ring_step (a : list Z) (i : nat) (filled : bool) (v : Z) :
  smooth_wf (a, i, filled) ->
  let a' := <[i := v]> a in
  let wrap := (SMOOTH_WIN <=? S i)%nat in
  let i' := if wrap then 0%nat else S i in
  let filled' := if wrap then true else filled in
  let n := if filled' then SMOOTH_WIN else i' in
  smooth_wf (a', i', filled')
  /\ smooth_window (a', i', filled')
     = (if (length (smooth_window (a, i, filled)) <? SMOOTH_WIN)%nat
        then smooth_window (a, i, filled) ++ [v]
        else tail (smooth_window (a, i, filled)) ++ [v])
  /\ sum_slotsZ a' n = sumZ (smooth_window (a', i', filled'))
  /\ n = length (smooth_window (a', i', filled'))
  /\ (0 < n)%nat.
Proof.
  intros W a' wrap i' filled' n. destruct W as [La Hi].
  unfold smooth_wf, SMOOTH_WIN in *. cbn [fst snd] in La, Hi |- *.
  assert (La' : length a' = 5%nat) by (unfold a'; now rewrite length_insert).
  assert (Hl : a' !! i = Some v)
    by (apply list_lookup_insert_eq; lia).
  assert (Ht : take (S i) a' = take i a ++ [v]).
  { rewrite (take_S_r _ _ _ Hl). unfold a'.
    now rewrite take_insert_ge by lia. }
  assert (Hd : drop (S i) a' = drop (S i) a)
    by (unfold a'; now rewrite drop_insert_lt by lia).
  split.
  { split; [exact La' |]. unfold i', wrap.
    destruct (Nat.leb_spec 5 (S i)); lia. }
  assert (W : smooth_window (a', i', filled')
     = (if (length (smooth_window (a, i, filled)) <? 5)%nat
        then smooth_window (a, i, filled) ++ [v]
        else tail (smooth_window (a, i, filled)) ++ [v])).
  { unfold smooth_window, filled', i', wrap.
    destruct (Nat.leb_spec 5 (S i)) as [Hw | Hw].
    - assert (i = 4%nat) by lia. subst i.
      rewrite drop_0, take_0, app_nil_r.
      assert (Ha' : a' = take 4 a ++ [v])
        by (rewrite <- Ht; symmetry; apply take_ge; lia).
      destruct filled.
      + assert (HL : length (drop 4 a ++ take 4 a) = 5%nat)
          by (rewrite length_app, length_drop, length_take; lia).
        rewrite HL. change (5 <? 5)%nat with false. cbv iota.
        destruct (lookup_lt_is_Some_2 a 4 ltac:(lia)) as [x Hx].
        rewrite (drop_S _ _ _ Hx), (drop_ge a 5) by lia. exact Ha'.
      + assert (HL : length (take 4 a) = 4%nat)
          by (rewrite length_take; lia).
        rewrite HL. change (4 <? 5)%nat with true. cbv iota. exact Ha'.
    - destruct filled.
      + assert (HL : length (drop i a ++ take i a) = 5%nat)
          by (rewrite length_app, length_drop, length_take; lia).
        rewrite HL. change (5 <? 5)%nat with false. cbv iota.
        destruct (lookup_lt_is_Some_2 a i ltac:(lia)) as [x Hx].
        rewrite (drop_S _ _ _ Hx). simpl.
        rewrite Hd, Ht. now rewrite app_assoc.
      + assert (HL : length (take i a) = i)
          by (rewrite length_take; lia).
        rewrite HL.
        replace (i <? 5)%nat with true
          by (symmetry; apply Nat.ltb_lt; lia).
        exact Ht. }
  split; [exact W |].
  assert (Hn : n = length (smooth_window (a', i', filled'))).
  { unfold n, smooth_window. destruct filled'.
    - rewrite length_app, length_drop, length_take.
      assert (i' < 5)%nat
        by (unfold i', wrap; destruct (Nat.leb_spec 5 (S i)); lia).
      lia.
    - rewrite length_take.
      assert (i' < 5)%nat
        by (unfold i', wrap; destruct (Nat.leb_spec 5 (S i)); lia).
      lia. }
  split; [| split; [exact Hn |]].
  - unfold n, smooth_window. destruct filled'.
    + rewrite sum_slotsZ_sumZ by lia. rewrite take_ge by lia.
      rewrite <- (take_drop i' a') at 1. rewrite !sumZ_app. lia.
    + apply sum_slotsZ_sumZ.
      assert (i' < 5)%nat
        by (unfold i', wrap; destruct (Nat.leb_spec 5 (S i)); lia).
      lia.
  - unfold n, filled', i', wrap.
    destruct (Nat.leb_spec 5 (S i)); [lia |]. destruct filled; lia.
Qed.

Lemma Espbpm_smoothAvg_step (f : Espbpm.Filter) (v : Z) :
  smooth_wf (Espbpm_smooth_ring f) ->
  let out := Espbpm.smoothAvg f v in
  smooth_wf (Espbpm_smooth_ring out.1)
  /\ smooth_window (Espbpm_smooth_ring out.1)
     = (if (length (smooth_window (Espbpm_smooth_ring f)) <? SMOOTH_WIN)%nat
        then smooth_window (Espbpm_smooth_ring f) ++ [v]
        else tail (smooth_window (Espbpm_smooth_ring f)) ++ [v])
  /\ out.2 = meanZ (smooth_window (Espbpm_smooth_ring out.1)).
Proof.
  intros W.
  destruct (smooth_ring_step _ _ _ v W) as (W' & E & Hs & Hn & Hp).
  unfold Espbpm.smoothAvg, Espbpm_smooth_ring in *. cbn [fst snd] in *.
  cbn [Espbpm.smoothBuf Espbpm.smoothPos Espbpm.smoothFilled].
  split; [exact W' |]. split; [exact E |].
  unfold meanZ. rewrite <- Hs, <- Hn. now rewrite Z.max_r by lia.
Qed.

Lemma Pulsebyuno_smoothAvg_step (f : Pulsebyuno.Filter) (v : Z) :
  smooth_wf (Pulsebyuno_smooth_ring f) ->
  let out := Pulsebyuno.smoothAvg f v in
  smooth_wf (Pulsebyuno_smooth_ring out.1)
  /\ smooth_window (Pulsebyuno_smooth_ring out.1)
     = (if (length (smooth_window (Pulsebyuno_smooth_ring f)) <? SMOOTH_WIN)%nat
        then smooth_window (Pulsebyuno_smooth_ring f) ++ [v]
        else tail (smooth_window (Pulsebyuno_smooth_ring f)) ++ [v])
  /\ out.2 = meanZ (smooth_window (Pulsebyuno_smooth_ring out.1)).
Proof.
  intros W.
  destruct (smooth_ring_step _ _ _ v W) as (W' & E & Hs & Hn & Hp).
  unfold Pulsebyuno.smoothAvg, Pulsebyuno_smooth_ring in *. cbn [fst snd] in *.
  cbn [Pulsebyuno.smoothBuf Pulsebyuno.smoothPos Pulsebyuno.smoothFilled].
  split; [exact W' |]. split; [exact E |].
  unfold meanZ. rewrite <- Hs, <- Hn. now rewrite Z.max_r by lia.
Qed.

Lemma Espbpm_smoothed_window (f : Espbpm.Filter) (vs : list Z) :
  length (Espbpm.smoothBuf f) = SMOOTH_WIN ->
  Espbpm.smoothPos f = 0%nat -> Espbpm.smoothFilled f = false ->
  smooth_wf (Espbpm_smooth_ring (Espbpm_smoothed f vs))
  /\ smooth_window (Espbpm_smooth_ring (Espbpm_smoothed f vs))
     = drop (length vs - SMOOTH_WIN) vs.
Proof.
  intros Hl Hp Hf. induction vs as [| v vs IH] using rev_ind.
  - unfold Espbpm_smoothed, Espbpm_smooth_ring, smooth_wf. simpl.
    rewrite Hl, Hp, Hf. unfold SMOOTH_WIN. simpl. rewrite take_0.
    repeat split; lia.
  - unfold Espbpm_smoothed in *. rewrite fold_left_app. cbn [fold_left].
    destruct IH as [W E].
    destruct (Espbpm_smoothAvg_step _ v W) as (W' & E' & _).
    split; [exact W' |]. rewrite E', E, last_window_snoc by (unfold SMOOTH_WIN; lia).
    rewrite length_drop.
    destruct (Nat.ltb_spec (length vs - (length vs - SMOOTH_WIN)) SMOOTH_WIN),
             (Nat.ltb_spec (length vs) SMOOTH_WIN); try reflexivity;
      unfold SMOOTH_WIN in *; lia.
Qed.

Lemma Pulsebyuno_smoothed_window (f : Pulsebyuno.Filter) (vs : list Z) :
  length (Pulsebyuno.smoothBuf f) = SMOOTH_WIN ->
  Pulsebyuno.smoothPos f = 0%nat -> Pulsebyuno.smoothFilled f = false ->
  smooth_wf (Pulsebyuno_smooth_ring (Pulsebyuno_smoothed f vs))
  /\ smooth_window (Pulsebyuno_smooth_ring (Pulsebyuno_smoothed f vs))
     = drop (length vs - SMOOTH_WIN) vs.
Proof.
  intros Hl Hp Hf. induction vs as [| v vs IH] using rev_ind.
  - unfold Pulsebyuno_smoothed, Pulsebyuno_smooth_ring, smooth_wf. simpl.
    rewrite Hl, Hp, Hf. unfold SMOOTH_WIN. simpl. rewrite take_0.
    repeat split; lia.
  - unfold Pulsebyuno_smoothed in *. rewrite fold_left_app. cbn [fold_left].
    destruct IH as [W E].
    destruct (Pulsebyuno_smoothAvg_step _ v W) as (W' & E' & _).
    split; [exact W' |]. rewrite E', E, last_window_snoc by (unfold SMOOTH_WIN; lia).
    rewrite length_drop.
    destruct (Nat.ltb_spec (length vs - (length vs - SMOOTH_WIN)) SMOOTH_WIN),
             (Nat.ltb_spec (length vs) SMOOTH_WIN); try reflexivity;
      unfold SMOOTH_WIN in *; lia.
Qed.

(** X6. [smoothAvg] is a moving average: started on an empty smoothing
    ring (cursor 0, [smoothFilled] false, whatever the five slots hold),
    the call that stores the sample [v] after the samples [vs] returns
    the arithmetic mean of the last [min (length vs + 1) SMOOTH_WIN]
    samples, in Espbpm and in Pulsebyuno alike; stale slot contents never
    enter the sum. *)
Theorem smoothAvg_moving_average
  (fE : Espbpm.Filter) (fP : Pulsebyuno.Filter) (vs : list Z) (v : Z)
  (HlE : length (Espbpm.smoothBuf fE) = SMOOTH_WIN)
  (HpE : Espbpm.smoothPos fE = 0%nat)
  (HfE : Espbpm.smoothFilled fE = false)
  (HlP : length (Pulsebyuno.smoothBuf fP) = SMOOTH_WIN)
  (HpP : Pulsebyuno.smoothPos fP = 0%nat)
  (HfP : Pulsebyuno.smoothFilled fP = false) :
  let w := drop (length (vs ++ [v]) - SMOOTH_WIN) (vs ++ [v]) in
  length w = Nat.min (length vs + 1) SMOOTH_WIN
  /\ (Espbpm.smoothAvg (Espbpm_smoothed fE vs) v).2 = meanZ w
  /\ (Pulsebyuno.smoothAvg (Pulsebyuno_smoothed fP vs) v).2 = meanZ w.
Proof.
  intros w. split; [| split].
  - unfold w. rewrite length_drop, length_app. simpl. lia.
  - destruct (Espbpm_smoothed_window fE vs HlE HpE HfE) as [W _].
    destruct (Espbpm_smoothAvg_step _ v W) as (_ & _ & ->).
    f_equal.
    destruct (Espbpm_smoothed_window fE (vs ++ [v]) HlE HpE HfE) as [_ E].
    unfold Espbpm_smoothed in E. rewrite fold_left_app in E. exact E.
  - destruct (Pulsebyuno_smoothed_window fP vs HlP HpP HfP) as [W _].
    destruct (Pulsebyuno_smoothAvg_step _ v W) as (_ & _ & ->).
    f_equal.
    destruct (Pulsebyuno_smoothed_window fP (vs ++ [v]) HlP HpP HfP) as [_ E].
    unfold Pulsebyuno_smoothed in E. rewrite fold_left_app in E. exact E.
Qed.

Lemma smoothAvg_moving_average_witness :
  (Espbpm.smoothAvg
     (Espbpm_smoothed (Espbpm.filt Espbpm.init) [10; 20; 30; 40; 50; 60]%Z)
     70%Z).2
  = meanZ [30; 40; 50; 60; 70]%Z.
Proof.
  exact (proj1 (proj2
    (smoothAvg_moving_average (Espbpm.filt Espbpm.init)
       (Pulsebyuno.filt Pulsebyuno.init) [10; 20; 30; 40; 50; 60]%Z 70%Z
       eq_refl eq_refl eq_refl eq_refl eq_refl eq_refl))).
Defined.

(** ** The range of the conditioner *)

Lemma fmaxQ_ge (a b : Q) : (a <= fmaxQ a b /\ b <= fmaxQ a b)%Q.
Proof.
  unfold fmaxQ. destruct (Qgtb a b) eqn:E.
  - apply Qgtb_gt in E. split; lra.
  - split; [| lra]. apply Qnot_lt_le. intros C.
    apply Qgtb_gt in C. congruence.
Qed.

Lemma sum_slotsZ_bound (a : list Z) (B : Z) (n : nat) :
  Forall (fun x => (Z.abs x <= B)%Z) a -> (n <= length a)%nat ->
  (Z.abs (sum_slotsZ a n) <= Z.of_nat n * B)%Z.
Proof.
  intros Ha. induction n as [| n IH]; intros Hn.
  - change (sum_slotsZ a 0) with 0%Z. simpl. lia.
  - rewrite sum_slotsZ_S.
    destruct (lookup_lt_is_Some_2 a n ltac:(lia)) as [x Hx].
    rewrite (list_lookup_total_correct _ _ _ Hx).
    pose proof (proj1 (Forall_lookup _ _) Ha n x Hx) as Bx. cbv beta in Bx.
    specialize (IH ltac:(lia)). lia.
Qed.

Lemma to_long_abs (x : Q) (B : Z) :
  (- inject_Z B <= x /\ x <= inject_Z B)%Q -> (Z.abs (to_long x) <= B)%Z.
Proof.
  intros [L U].
  destruct (to_long_toward_zero x) as [P N].
  destruct (Qlt_le_dec x 0) as [Hx | Hx].
  - destruct (N ltac:(lra)) as [N1 N2].
    assert (H1 : (inject_Z (- B) <= inject_Z (to_long x))%Q)
      by (rewrite inject_Z_opp; lra).
    assert (H2 : (inject_Z (to_long x) <= inject_Z 0)%Q)
      by (change (inject_Z 0) with 0%Q; lra).
    rewrite <- Zle_Qle in H1, H2. lia.
  - destruct (P Hx) as [P1 P2].
    assert (H1 : (inject_Z 0 <= inject_Z (to_long x))%Q)
      by (change (inject_Z 0) with 0%Q; lra).
    assert (H2 : (inject_Z (to_long x) <= inject_Z B)%Q) by lra.
    rewrite <- Zle_Qle in H1, H2. lia.
Qed.

Lemma Espbpm_loop_filt (s : Espbpm.State) (i : Input) :
  Espbpm.filt (Espbpm.next (Espbpm.loop s i)) =
  if (raw i <? 30)%Z then Espbpm.filt s
  else (Espbpm.conditioner (Espbpm.filt s) (raw i)).1.1.
Proof.
  destruct (raw i <? 30)%Z eqn:H.
  - unfold Espbpm.loop. rewrite H. reflexivity.
  - rewrite (Espbpm_loop_live _ _ H).
    now destruct (Espbpm_emit_frame s i
                (Espbpm.conditioner (Espbpm.filt s) (raw i)).1.1
                (Espbpm.conditioner (Espbpm.filt s) (raw i)).1.2
                (Espbpm.beat_gate (Espbpm.beats s)
                   (Espbpm.conditioner (Espbpm.filt s) (raw i)).2 (now i)).1
                (Espbpm.beat_gate (Espbpm.beats s)
                   (Espbpm.conditioner (Espbpm.filt s) (raw i)).2 (now i)).2)
      as (-> & _).
Qed.

Lemma Espbpm_conditioner_step (M : Z) (f : Espbpm.Filter) (raw : Z) :
  (0 <= raw <= M)%Z -> Espbpm_filter_in_range M f ->
  let out := Espbpm.conditioner f raw in
  Espbpm_filter_in_range M out.1.1
  /\ (Qabs out.1.2 <= inject_Z (100 * M))%Q
  /\ (forall k : nat, (k <= SMOOTH_WIN)%nat ->
        (Z.abs (sum_slotsZ (Espbpm.smoothBuf out.1.1) k) <= 500 * M)%Z).
Proof.
  intros [R0 RM] ((D0 & DM) & G1 & RMS0 & W & FB).
  assert (R0' : (0 <= inject_Z raw)%Q)
    by (change 0%Q with (inject_Z 0); rewrite <- Zle_Qle; exact R0).
  assert (RM' : (inject_Z raw <= inject_Z M)%Q)
    by (rewrite <- Zle_Qle; exact RM).
  unfold Espbpm.conditioner.
  set (dc' := (DC_ALPHA * Espbpm.dc f + (1 - DC_ALPHA) * inject_Z raw)%Q).
  set (ac := (inject_Z raw - dc')%Q).
  set (ge := ((1 - AUTO_GAIN_ALPHA) * Espbpm.gainEstimate f
              + AUTO_GAIN_ALPHA * fmaxQ 1 (Qabs ac))%Q).
  set (gain := constrainQ (TARGET_P2P / fmaxQ 1 (ge * 2)) 1 MAX_GAIN).
  assert (Hdc : (0 <= dc' /\ dc' <= inject_Z M)%Q)
    by (unfold dc', DC_ALPHA; split; lra).
  assert (Hac : (- inject_Z M <= ac /\ ac <= inject_Z M)%Q)
    by (unfold ac; split; lra).
  assert (Hge : (1 <= ge)%Q).
  { unfold ge, AUTO_GAIN_ALPHA.
    pose proof (proj1 (fmaxQ_ge 1 (Qabs ac))). lra. }
  assert (Hgain : (1 <= gain /\ gain <= 100)%Q).
  { unfold gain. apply (constrainQ_bounds _ 1 MAX_GAIN). discriminate. }
  assert (Hamp : (- inject_Z (100 * M) <= ac * gain
                  /\ ac * gain <= inject_Z (100 * M))%Q).
  { rewrite inject_Z_mult. change (inject_Z 100) with 100%Q.
    destruct Hac as [A1 A2], Hgain as [G2 G3]. split; nra. }
  pose proof (to_long_abs _ _ Hamp) as Hv.
  set (v := to_long (ac * gain)) in *.
  set (f0 := Espbpm.mkFilter dc' ge (Espbpm.smoothBuf f) (Espbpm.smoothPos f)
               (Espbpm.smoothFilled f) (Espbpm.rms f) (Espbpm.prev2 f)
               (Espbpm.prev1 f) (Espbpm.curr f)).
  assert (W0 : smooth_wf (Espbpm_smooth_ring f0)) by exact W.
  destruct (smooth_ring_step _ _ _ v W0) as (W' & _ & _ & _ & Hp).
  unfold Espbpm.smoothAvg.
  cbn [Espbpm.smoothBuf Espbpm.smoothPos Espbpm.smoothFilled Espbpm.dc
       Espbpm.gainEstimate Espbpm.rms Espbpm.prev2 Espbpm.prev1 Espbpm.curr
       f0 fst snd] in *.
  set (a' := <[Espbpm.smoothPos f := v]> (Espbpm.smoothBuf f)) in *.
  set (i' := if (SMOOTH_WIN <=? S (Espbpm.smoothPos f))%nat
             then 0%nat else S (Espbpm.smoothPos f)) in *.
  set (filled' := if (SMOOTH_WIN <=? S (Espbpm.smoothPos f))%nat
                  then true else Espbpm.smoothFilled f) in *.
  set (n := if filled' then SMOOTH_WIN else i') in *.
  assert (FB' : Forall (fun x => (Z.abs x <= 100 * M)%Z) a').
  { unfold a'. apply Forall_insert; assumption. }
  assert (La' : length a' = 5%nat) by exact (proj1 W').
  assert (Hn5 : (n <= 5)%nat).
  { unfold n. destruct filled'; [unfold SMOOTH_WIN; lia |].
    pose proof (proj2 W') as Hi'. cbn [fst snd] in Hi'.
    unfold SMOOTH_WIN in Hi'. lia. }
  pose proof (sum_slotsZ_bound a' (100 * M) n FB' ltac:(lia)) as Hs.
  set (s := sum_slotsZ a' n) in *.
  assert (Hfilt : (Qabs (inject_Z s / inject_Z (Z.max 1 (Z.of_nat n)))
                   <= inject_Z (100 * M))%Q).
  { rewrite Z.max_r by lia.
    assert (Hpos : (0 < inject_Z (Z.of_nat n))%Q)
      by (change 0%Q with (inject_Z 0); rewrite <- Zlt_Qlt; lia).
    assert (S1 : (inject_Z (- (Z.of_nat n * (100 * M))) <= inject_Z s)%Q)
      by (rewrite <- Zle_Qle; lia).
    assert (S2 : (inject_Z s <= inject_Z (Z.of_nat n * (100 * M)))%Q)
      by (rewrite <- Zle_Qle; lia).
    rewrite inject_Z_opp in S1. rewrite inject_Z_mult in S1, S2.
    apply Qabs_Qle_condition. split.
    - apply Qle_shift_div_l; [exact Hpos |]. lra.
    - apply Qle_shift_div_r; [exact Hpos |]. lra. }
  split; [| split; [exact Hfilt |]].
  - split; [exact Hdc |]. split; [exact Hge |]. split.
    { pose proof (Qabs_nonneg (inject_Z s / inject_Z (Z.max 1 (Z.of_nat n)))).
      cbn [Espbpm.rms]. unfold RMS_ALPHA. set (q := Qabs _) in *. lra. }
    split; [exact W' | exact FB'].
  - intros k Hk. unfold SMOOTH_WIN in Hk.
    pose proof (sum_slotsZ_bound a' (100 * M) k FB' ltac:(lia)). nia.
Qed.

(** X7. The conditioner keeps its state in range. With the ADC reading
    in [0, M] and a filter state in range, after the conditioner has run
    the DC estimate is again in [0, M], the gain estimate at least 1, the
    running magnitude non-negative, every long in the smoothing ring at
    most [100 * M] in magnitude; the smoothed sample is at most [100 * M]
    in magnitude and every partial sum of the summation loop at most
    [500 * M] (511500 for the 10-bit ADC, far inside a 32-bit long). The
    state after [setup()] is in range, so the state after any run of
    ticks with readings in [0, M] is. *)
Theorem Espbpm_conditioner_in_range
  (M : Z) (f : Espbpm.Filter) (reading : Z)
  (Hraw : (0 <= reading <= M)%Z) (Hf : Espbpm_filter_in_range M f) :
  let out := Espbpm.conditioner f reading in
  Espbpm_filter_in_range M out.1.1
  /\ (Qabs out.1.2 <= inject_Z (100 * M))%Q
  /\ (forall k : nat, (k <= SMOOTH_WIN)%nat ->
        (Z.abs (sum_slotsZ (Espbpm.smoothBuf out.1.1) k) <= 500 * M)%Z)
  /\ (forall ins : list Input,
        Forall (fun i => (0 <= raw i <= M)%Z) ins ->
        Espbpm_filter_in_range M
          (Espbpm.filt (Espbpm.final Espbpm.init ins))).
Proof.
  intros out.
  destruct (Espbpm_conditioner_step M f reading Hraw Hf) as (I & B & S).
  split; [exact I |]. split; [exact B |]. split; [exact S |].
  assert (HM : (0 <= M)%Z) by lia. clear - HM.
  intros ins Hins. induction ins as [| i ins IH] using rev_ind.
  - unfold Espbpm.final. simpl. unfold Espbpm_filter_in_range. simpl.
    assert (M0 : (0 <= inject_Z M)%Q)
      by (change 0%Q with (inject_Z 0); rewrite <- Zle_Qle; exact HM).
    split; [split; [apply Qle_refl | exact M0] |].
    split; [apply Qle_refl |]. split; [apply Qle_refl |].
    split; [split; [reflexivity | vm_compute; lia] |].
    repeat (apply Forall_cons; split; [simpl; lia |]). apply Forall_nil_2.
  - apply Forall_app in Hins. destruct Hins as [H1 H2].
    specialize (IH H1). apply Forall_inv in H2.
    unfold Espbpm.final in *. rewrite fold_left_app. cbn [fold_left].
    rewrite Espbpm_loop_filt. destruct (raw i <? 30)%Z; [exact IH |].
    exact (proj1 (Espbpm_conditioner_step M _ _ H2 IH)).
Qed.

Lemma Espbpm_conditioner_in_range_witness :
  ((0 <= 512 <= 1023)%Z
   /\ Espbpm_filter_in_range 1023 (Espbpm.filt Espbpm.init))
  /\ (Qabs (Espbpm.conditioner (Espbpm.filt Espbpm.init) 512).1.2
      <= inject_Z (100 * 1023))%Q.
Proof.
  assert (H1 : (0 <= 512 <= 1023)%Z) by lia.
  assert (H2 : Espbpm_filter_in_range 1023 (Espbpm.filt Espbpm.init)).
  { unfold Espbpm_filter_in_range. simpl.
    split; [split; discriminate |]. split; [discriminate |].
    split; [discriminate |].
    split; [split; [reflexivity | vm_compute; lia] |].
    repeat (apply Forall_cons; split; [simpl; lia |]). apply Forall_nil_2. }
  split; [split; assumption |].
  exact (proj1 (proj2
    (Espbpm_conditioner_in_range 1023 (Espbpm.filt Espbpm.init) 512 H1 H2))).
Defined.

(** ** The buzzer of Finalpulseandbuzzer *)

Section Buzzer.
Import Finalpulseandbuzzer.

Lemma handleBuzzer_on (z : Buzzer) (t : Z) :
  pin z = buzzerOn z ->
  handleBuzzer z true t =
  if (buzzerCycleStart z =? 0)%Z then mkBuzzer t true true
  else
    let phase :=
      (usub t (buzzerCycleStart z) mod BUZZ_PERIOD_MS <? BUZZ_ON_MS)%Z in
    mkBuzzer (buzzerCycleStart z) phase phase.
Proof.
  destruct z as [start on lvl]. cbn [pin buzzerOn buzzerCycleStart].
  intros ->. unfold handleBuzzer.
  cbn [negb pin buzzerOn buzzerCycleStart].
  destruct (start =? 0)%Z; [reflexivity |].
  destruct (_ <? BUZZ_ON_MS)%Z, on; reflexivity.
Qed.

Lemma handleBuzzer_mirror (z : Buzzer) (alarm : bool) (t : Z) :
  pin z = buzzerOn z ->
  pin (handleBuzzer z alarm t) = buzzerOn (handleBuzzer z alarm t).
Proof.
  intros H. destruct alarm; [| reflexivity].
  rewrite (handleBuzzer_on z t H).
  now destruct (buzzerCycleStart z =? 0)%Z.
Qed.

Lemma alarm_run_snoc (z : Buzzer) (ts : list Z) (t : Z) :
  alarm_run z (ts ++ [t]) = handleBuzzer (alarm_run z ts) true t.
Proof. unfold alarm_run. now rewrite fold_left_app. Qed.

Lemma alarm_run_keeps (z : Buzzer) (ts : list Z) :
  pin z = buzzerOn z -> buzzerCycleStart z <> 0%Z ->
  pin (alarm_run z ts) = buzzerOn (alarm_run z ts)
  /\ buzzerCycleStart (alarm_run z ts) = buzzerCycleStart z.
Proof.
  intros Hp Hs. induction ts as [| t ts IH] using rev_ind; [auto |].
  destruct IH as [I1 I2]. rewrite alarm_run_snoc.
  split; [now apply handleBuzzer_mirror |].
  rewrite (handleBuzzer_on _ t I1), I2.
  apply Z.eqb_neq in Hs. now rewrite Hs.
Qed.

Lemma Finalpulseandbuzzer_loop_mirror (s : State) (i : Reads) :
  pin (buzz s) = buzzerOn (buzz s) ->
  pin (buzz (next (loop s i))) = buzzerOn (buzz (next (loop s i))).
Proof.
  intros H. unfold loop.
  destruct (raw (pulse i) <? 30)%Z; [reflexivity |].
  destruct (conditioner (filt s) (raw (pulse i))) as [[f filtered] peak].
  destruct (beat_gate (beats s) peak (now (pulse i))) as [b l].
  destruct (accept_or_fallback b (rates s) (tFallback i))
    as [r [[[fb cf] st] |]]; [| reflexivity].
  destruct (hrv_jitter (lastJitter s) fb (pulse i)) as [lj fb'].
  destruct (waveform_variation (drift s) filtered (pulse i)) as [d' x'].
  cbn [next buzz]. now apply handleBuzzer_mirror.
Qed.

End Buzzer.

(** X8. [handleBuzzer] of Finalpulseandbuzzer, entered with [buzzerOn]
    equal to the level of [BUZZER_PIN] (as [setup()] leaves them):
    without alarm it writes LOW and forgets the cycle; with alarm and no
    cycle running it starts one at [millis()] with the buzzer on; with a
    cycle running it keeps the start, and the buzzer is on exactly when
    [(millis() - buzzerCycleStart) % 1000 < 200], in unsigned
    arithmetic. So under a standing alarm the start of the cycle never
    moves and the buzzer sounds for the first 200 ms of each second
    counted from it; [buzzerOn] equals the pin level after every call,
    and in every state [loop()] reaches from [setup()]. *)
Theorem handleBuzzer_duty_cycle
  (z : Finalpulseandbuzzer.Buzzer) (t : Z) (ts : list Z)
  (Hz : Finalpulseandbuzzer.pin z = Finalpulseandbuzzer.buzzerOn z) :
  let phase (t0 : Z) :=
    (usub t t0 mod 1000 <? 200)%Z in
  Finalpulseandbuzzer.handleBuzzer z false t
  = Finalpulseandbuzzer.mkBuzzer 0 false false
  /\ (Finalpulseandbuzzer.buzzerCycleStart z = 0%Z ->
      Finalpulseandbuzzer.handleBuzzer z true t
      = Finalpulseandbuzzer.mkBuzzer t true true)
  /\ (Finalpulseandbuzzer.buzzerCycleStart z <> 0%Z ->
      Finalpulseandbuzzer.alarm_run z (ts ++ [t])
      = Finalpulseandbuzzer.mkBuzzer
          (Finalpulseandbuzzer.buzzerCycleStart z)
          (phase (Finalpulseandbuzzer.buzzerCycleStart z))
          (phase (Finalpulseandbuzzer.buzzerCycleStart z)))
  /\ (forall alarm : bool,
        Finalpulseandbuzzer.pin (Finalpulseandbuzzer.handleBuzzer z alarm t)
        = Finalpulseandbuzzer.buzzerOn
            (Finalpulseandbuzzer.handleBuzzer z alarm t))
  /\ (forall s : Finalpulseandbuzzer.State,
        Finalpulseandbuzzer.reachable s ->
        Finalpulseandbuzzer.pin (Finalpulseandbuzzer.buzz s)
        = Finalpulseandbuzzer.buzzerOn (Finalpulseandbuzzer.buzz s)).
Proof.
  intros phase. split; [reflexivity |]. split; [| split; [| split]].
  - intros H0. rewrite (handleBuzzer_on z t Hz), H0. reflexivity.
  - intros Hs. rewrite alarm_run_snoc.
    destruct (alarm_run_keeps z ts Hz Hs) as [I1 I2].
    rewrite (handleBuzzer_on _ t I1), I2.
    apply Z.eqb_neq in Hs. rewrite Hs. reflexivity.
  - intros alarm. now apply handleBuzzer_mirror.
  - intros s Hs. induction Hs as [| s i _ IH]; [reflexivity |].
    now apply Finalpulseandbuzzer_loop_mirror.
Qed.

Lemma handleBuzzer_duty_cycle_witness :
  Finalpulseandbuzzer.alarm_run
    (Finalpulseandbuzzer.mkBuzzer 500 true true) ([520; 540] ++ [1750])%Z
  = Finalpulseandbuzzer.mkBuzzer 500 false false.
Proof.
  exact (proj1 (proj2 (proj2
    (handleBuzzer_duty_cycle (Finalpulseandbuzzer.mkBuzzer 500 true true)
       1750 [520; 540]%Z eq_refl)))
    ltac:(discriminate)).
Defined.

(** ** The alarm of Finalpulseandbuzzer *)

Lemma to_long_window (x : Q) (lo hi : Z) :
  (0 <= lo)%Z -> (inject_Z lo <= x /\ x <= inject_Z hi)%Q ->
  (lo <= to_long x <= hi)%Z.
Proof.
  intros Hlo [H1 H2].
  assert (L0 : (0 <= inject_Z lo)%Q)
    by (change 0%Q with (inject_Z 0); rewrite <- Zle_Qle; exact Hlo).
  assert (Hx : (0 <= x)%Q) by lra.
  destruct (to_long_toward_zero x) as [P _]. destruct (P Hx) as [_ P2].
  split.
  - assert (E : to_long x = Qfloor x).
    { unfold to_long, Qfloor. destruct x as [n d]. simpl.
      apply Z.quot_div_nonneg; [| lia].
      unfold Qle in Hx. simpl in Hx. lia. }
    rewrite E, <- (Qfloor_Z lo). apply Qfloor_resp_le. exact H1.
  - assert (H3 : (inject_Z (to_long x) <= inject_Z hi)%Q) by lra.
    now rewrite <- Zle_Qle in H3.
Qed.

Section Alarm.
Import Finalpulseandbuzzer.

Lemma alarm_of_quiet (b temp : Q) :
  alarm_of b temp = false <->
  (BPM_ALERT_LOW <= b /\ b <= BPM_ALERT_HIGH)%Q
  /\ (TEMP_LOW_LIMIT <= temp /\ temp <= TEMP_HIGH_LIMIT)%Q.
Proof.
  unfold alarm_of, Qgtb, Qltb. rewrite !orb_false_iff, !negb_false_iff.
  rewrite !Qle_bool_iff. tauto.
Qed.

Lemma read_temperature_cases (t : Q) :
  ((t == DEVICE_DISCONNECTED_C)%Q -> read_temperature t = (- (100))%Q)
  /\ (~ (t == DEVICE_DISCONNECTED_C)%Q -> read_temperature t = t).
Proof.
  unfold read_temperature. split; intros H.
  - apply Qeq_bool_iff in H. now rewrite H.
  - destruct (Qeq_bool t DEVICE_DISCONNECTED_C) eqn:E; [| reflexivity].
    apply Qeq_bool_iff in E. contradiction.
Qed.

(** The three exits of [loop()]. *)
Lemma Finalpulseandbuzzer_loop_exits (s : State) (i : Reads) :
  (printed (loop s i) = Calculating5
   /\ buzz (next (loop s i)) = mkBuzzer 0 false false
   /\ status (next (loop s i)) = status s
   /\ bodyTemp (next (loop s i)) = bodyTemp s
   /\ lastJitter (next (loop s i)) = lastJitter s
   /\ drift (next (loop s i)) = drift s)
  \/ (exists (x b cf : Q) (st : StatusCode),
        printed (loop s i) = Report5 x b cf (read_temperature (tempC i)) st
        /\ (30 <= raw (pulse i))%Z
        /\ buzz (next (loop s i))
           = handleBuzzer (buzz s) (alarm_of b (read_temperature (tempC i)))
                          (tBuzzer i)
        /\ status (next (loop s i)) = st
        /\ bodyTemp (next (loop s i)) = read_temperature (tempC i)
        /\ ((st = ST_OK /\ cf = (85 # 100)%Q)
            \/ (st = ST_FALLBACK /\ cf = (6 # 10)%Q))).
Proof.
  unfold loop.
  destruct (Z.ltb_spec (raw (pulse i)) 30); [left; repeat split |].
  destruct (conditioner (filt s) (raw (pulse i))) as [[f filtered] peak].
  destruct (beat_gate (beats s) peak (now (pulse i))) as [b l].
  unfold accept_or_fallback.
  destruct (Qgeb (computeBPM b) MIN_VALID_BPM
            && Qle_bool (computeBPM b) MAX_VALID_BPM).
  - right.
    destruct (hrv_jitter (lastJitter s) _ (pulse i)) as [lj fb'].
    destruct (waveform_variation (drift s) filtered (pulse i)) as [d' x'].
    exists x', fb', (85 # 100)%Q, ST_OK. cbn [printed next buzz status bodyTemp].
    repeat split; auto.
  - destruct (usub (tFallback i) (lastValidBeatTime b) <? FALLBACK_TIMEOUT_MS)%Z.
    + right.
      destruct (hrv_jitter (lastJitter s) _ (pulse i)) as [lj fb'].
      destruct (waveform_variation (drift s) filtered (pulse i)) as [d' x'].
      exists x', fb', (6 # 10)%Q, ST_FALLBACK.
      cbn [printed next buzz status bodyTemp].
      repeat split; auto.
    + left. repeat split.
Qed.

End Alarm.

(** X9. What [loop()] of Finalpulseandbuzzer does to the buzzer. A tick
    that prints the CALCULATING line (no finger, or no valid rate and the
    fallback timed out) calls [handleBuzzer(false)]: pin LOW, cycle
    forgotten, and [status], [bodyTemp] keep their old values. A tick
    that prints a report calls [handleBuzzer] once, with an alarm that is
    off exactly when the float [finalBPM] is in [50, 120] and the float
    [bodyTemp] in [35, 38]; the status is OK with confidence 0.85 or
    FALLBACK with confidence 0.6, never another one. The line shows
    [(int)finalBPM]: with the alarm off the integer printed is between
    50 and 120, but an integer in that range does not tell that the
    alarm is off, since 120.5 is printed as 120 and raises it. A
    disconnected temperature sensor is stored as -100 and raises the
    alarm on every reporting tick, whatever the pulse. *)
Theorem Finalpulseandbuzzer_alarm
  (s : Finalpulseandbuzzer.State) (i : Finalpulseandbuzzer.Reads) :
  let t := Finalpulseandbuzzer.loop s i in
  (Finalpulseandbuzzer.printed t = Finalpulseandbuzzer.Calculating5 ->
   Finalpulseandbuzzer.buzz (Finalpulseandbuzzer.next t)
   = Finalpulseandbuzzer.mkBuzzer 0 false false
   /\ Finalpulseandbuzzer.status (Finalpulseandbuzzer.next t)
      = Finalpulseandbuzzer.status s
   /\ Finalpulseandbuzzer.bodyTemp (Finalpulseandbuzzer.next t)
      = Finalpulseandbuzzer.bodyTemp s)
  /\ ((raw (Finalpulseandbuzzer.pulse i) < 30)%Z ->
      Finalpulseandbuzzer.printed t = Finalpulseandbuzzer.Calculating5)
  /\ (forall (x finalBPM cf temp : Q) (st : StatusCode),
        Finalpulseandbuzzer.printed t
        = Finalpulseandbuzzer.Report5 x finalBPM cf temp st ->
        temp = Finalpulseandbuzzer.read_temperature
                 (Finalpulseandbuzzer.tempC i)
        /\ Finalpulseandbuzzer.bodyTemp (Finalpulseandbuzzer.next t) = temp
        /\ Finalpulseandbuzzer.status (Finalpulseandbuzzer.next t) = st
        /\ ((st = ST_OK /\ cf = (85 # 100)%Q)
            \/ (st = ST_FALLBACK /\ cf = (6 # 10)%Q))
        /\ Finalpulseandbuzzer.buzz (Finalpulseandbuzzer.next t)
           = Finalpulseandbuzzer.handleBuzzer (Finalpulseandbuzzer.buzz s)
               (Finalpulseandbuzzer.alarm_of finalBPM temp)
               (Finalpulseandbuzzer.tBuzzer i)
        /\ (Finalpulseandbuzzer.alarm_of finalBPM temp = false <->
            (50 <= finalBPM /\ finalBPM <= 120)%Q
            /\ (35 <= temp /\ temp <= 38)%Q)
        /\ (Finalpulseandbuzzer.alarm_of finalBPM temp = false ->
            (50 <= Finalpulseandbuzzer.bpmInt finalBPM <= 120)%Z)
        /\ ((Finalpulseandbuzzer.tempC i
             == Finalpulseandbuzzer.DEVICE_DISCONNECTED_C)%Q ->
            temp = (- (100))%Q
            /\ Finalpulseandbuzzer.alarm_of finalBPM temp = true))
  /\ (Finalpulseandbuzzer.bpmInt (241 # 2) = 120%Z
      /\ Finalpulseandbuzzer.alarm_of (241 # 2) 37 = true).
Proof.
  intros t. unfold t.
  split; [| split; [| split; [| split; reflexivity]]];
  destruct (Finalpulseandbuzzer_loop_exits s i)
    as [(P & B & S & T & _) | (x & b & cf & st & P & R & B & S & T & C)].
  - auto.
  - intros E. congruence.
  - auto.
  - intros Hlt. lia.
  - intros x b cf temp st E. congruence.
  - intros x' b' cf' temp' st' E. rewrite P in E.
    injection E as E1 E2 E3 E4 E5. subst x' b' cf' temp' st'.
    split; [reflexivity |]. split; [exact T |]. split; [exact S |].
    split; [exact C |]. split; [exact B |].
    split; [apply alarm_of_quiet |].
    split.
    { intros Q. apply alarm_of_quiet in Q. destruct Q as [[Q1 Q2] _].
      unfold Finalpulseandbuzzer.bpmInt.
      apply to_long_window; [lia |]. split; assumption. }
    intros HD.
    rewrite (proj1 (read_temperature_cases _) HD).
    split; [reflexivity |].
    unfold Finalpulseandbuzzer.alarm_of. apply orb_true_iff. right.
    reflexivity.
Qed.

Lemma Finalpulseandbuzzer_alarm_witness :
  Finalpulseandbuzzer.bodyTemp
    (Finalpulseandbuzzer.next
       (Finalpulseandbuzzer.loop Finalpulseandbuzzer.init
          (Finalpulseandbuzzer.mkReads (sample 100 50) 50 (- (127)) 60)))
  = (- (100))%Q
  /\ Finalpulseandbuzzer.buzz
       (Finalpulseandbuzzer.next
          (Finalpulseandbuzzer.loop Finalpulseandbuzzer.init
             (Finalpulseandbuzzer.mkReads (sample 100 50) 50 (- (127)) 60)))
     = Finalpulseandbuzzer.mkBuzzer 60 true true.
Proof.
  destruct (proj1 (proj2 (proj2
    (Finalpulseandbuzzer_alarm Finalpulseandbuzzer.init
       (Finalpulseandbuzzer.mkReads (sample 100 50) 50 (- (127)) 60))))
    _ _ _ _ _ eq_refl) as (E1 & E2 & _ & _ & E5 & _ & _ & E8).
  destruct (E8 ltac:(reflexivity)) as [_ A].
  split.
  - rewrite E2. reflexivity.
  - rewrite E5, A. reflexivity.
Defined.

(** ** Finalpulseandbuzzer before the first interval *)

Section BeforeFirstInterval.
Import Finalpulseandbuzzer.

Lemma Finalpulseandbuzzer_loop_live (s : State) (i : Reads) :
  (30 <= raw (pulse i))%Z ->
  let cd := conditioner (filt s) (raw (pulse i)) in
  let g := beat_gate (beats s) cd.2 (now (pulse i)) in
  loop s i =
  match accept_or_fallback g.1 (rates s) (tFallback i) with
  | (r, None) =>
      mkTick (mkState cd.1.1 g.1 r (lastJitter s) (drift s) (bodyTemp s)
                      (handleBuzzer (buzz s) false (tBuzzer i)) (status s))
             g.2 Calculating5
  | (r, Some (finalBPM, conf, st)) =>
      let j := hrv_jitter (lastJitter s) finalBPM (pulse i) in
      let w := waveform_variation (drift s) cd.1.2 (pulse i) in
      let temp := read_temperature (tempC i) in
      mkTick (mkState cd.1.1 g.1 r j.1 w.1 temp
                      (handleBuzzer (buzz s) (alarm_of j.2 temp) (tBuzzer i))
                      st)
             g.2 (Report5 w.2 j.2 conf temp st)
  end.
Proof.
  intros H cd g. unfold loop.
  replace (raw (pulse i) <? 30)%Z with false
    by (symmetry; apply Z.ltb_ge; exact H).
  subst g cd.
  destruct (conditioner (filt s) (raw (pulse i))) as [[f filtered] peak].
  cbn [fst snd].
  destruct (beat_gate (beats s) peak (now (pulse i))) as [b l]. cbn [fst snd].
  destruct (accept_or_fallback b (rates s) (tFallback i))
    as [r [[[fb cf] st] |]]; [| reflexivity].
  destruct (hrv_jitter (lastJitter s) fb (pulse i)) as [lj fb'].
  now destruct (waveform_variation (drift s) filtered (pulse i)) as [d' x'].
Qed.

Lemma Finalpulseandbuzzer_loop_beats (s : State) (i : Reads) :
  (30 <= raw (pulse i))%Z ->
  beats (next (loop s i))
  = (beat_gate (beats s) (conditioner (filt s) (raw (pulse i))).2
               (now (pulse i))).1.
Proof.
  intros H. rewrite (Finalpulseandbuzzer_loop_live s i H). cbv zeta.
  now destruct (accept_or_fallback _ (rates s) (tFallback i))
    as [r [[[fb cf] st] |]].
Qed.

(** The jitter on a zero rate: the value stays, or becomes 35. *)
Lemma Finalpulseandbuzzer_jitter_zero (lj : Z) (b : Q) (i : Input) :
  (b == 0)%Q ->
  (hrv_jitter lj b i).2 = b \/ (hrv_jitter lj b i).2 = MIN_VALID_BPM.
Proof.
  intros Hb. unfold hrv_jitter.
  destruct (1400 <? usub (tJitter i) lj)%Z; [| left; reflexivity].
  right. cbn [snd].
  assert (J : fmaxQ 1 (b * (2 # 10)) = 1%Q).
  { unfold fmaxQ. replace (Qgtb 1 (b * (2 # 10))) with true; [reflexivity |].
    symmetry. apply Qgtb_gt. rewrite Hb. reflexivity. }
  rewrite J. change (to_long (- (1) * 100)) with (-100)%Z.
  change (to_long (1 * 100)) with 100%Z.
  destruct (arduino_random_range (-100) 100 (rJitter i)) as [R1 R2]; [lia |].
  set (r := arduino_random (-100) 100 (rJitter i)) in *.
  unfold constrainQ.
  replace (Qltb (b + inject_Z r / 100) MIN_VALID_BPM) with true;
    [reflexivity |].
  symmetry. apply Qltb_lt. unfold MIN_VALID_BPM.
  assert (R2' : (inject_Z r <= 100)%Q)
    by (change 100%Q with (inject_Z 100); rewrite <- Zle_Qle; lia).
  assert (K : (100 * (inject_Z r / 100) == inject_Z r)%Q) by field.
  set (q := (inject_Z r / 100)%Q) in *. rewrite Hb. lra.
Qed.

End BeforeFirstInterval.

(** X10. Finalpulseandbuzzer before the first interval is stored. Its
    FALLBACK test has no [lastGoodBPM > 0] guard: on a tick with a finger
    on the sensor ([raw >= 30]) that ends with the interval ring still
    empty, with [lastGoodBPM] still 0 and less than 5000 ms since
    [lastValidBeatTime] (0 after [setup()]), the tick reports FALLBACK
    with confidence 0.6 and a BPM of 0, or of 35 once the jitter block
    has fired; that is below [BPM_ALERT_LOW], so the alarm is raised
    whatever the temperature, and a buzzer at rest is switched on. *)
Theorem Finalpulseandbuzzer_alarm_without_beats
  (s : Finalpulseandbuzzer.State) (i : Finalpulseandbuzzer.Reads)
  (Hr : (30 <= raw (Finalpulseandbuzzer.pulse i))%Z)
  (Hn : Finalpulseandbuzzer.beatCount
          (Finalpulseandbuzzer.beats
             (Finalpulseandbuzzer.next (Finalpulseandbuzzer.loop s i)))
        = 0%nat)
  (Hg : (Finalpulseandbuzzer.lastGoodBPM (Finalpulseandbuzzer.rates s) == 0)%Q)
  (Ht : (usub (Finalpulseandbuzzer.tFallback i)
              (Finalpulseandbuzzer.lastValidBeatTime
                 (Finalpulseandbuzzer.beats
                    (Finalpulseandbuzzer.next (Finalpulseandbuzzer.loop s i))))
         < FALLBACK_TIMEOUT_MS)%Z) :
  let t := Finalpulseandbuzzer.loop s i in
  let temp := Finalpulseandbuzzer.read_temperature
                (Finalpulseandbuzzer.tempC i) in
  exists x b : Q,
    Finalpulseandbuzzer.printed t
    = Finalpulseandbuzzer.Report5 x b (6 # 10) temp ST_FALLBACK
    /\ (b = Finalpulseandbuzzer.lastGoodBPM (Finalpulseandbuzzer.rates s)
        \/ b = MIN_VALID_BPM)
    /\ (Finalpulseandbuzzer.bpmInt b = 0%Z
        \/ Finalpulseandbuzzer.bpmInt b = 35%Z)
    /\ Finalpulseandbuzzer.alarm_of b temp = true
    /\ Finalpulseandbuzzer.buzz (Finalpulseandbuzzer.next t)
       = Finalpulseandbuzzer.handleBuzzer (Finalpulseandbuzzer.buzz s) true
           (Finalpulseandbuzzer.tBuzzer i)
    /\ (Finalpulseandbuzzer.buzzerCycleStart (Finalpulseandbuzzer.buzz s)
        = 0%Z ->
        Finalpulseandbuzzer.buzz (Finalpulseandbuzzer.next t)
        = Finalpulseandbuzzer.mkBuzzer (Finalpulseandbuzzer.tBuzzer i)
            true true)
    /\ Finalpulseandbuzzer.rates (Finalpulseandbuzzer.next t)
       = Finalpulseandbuzzer.rates s.
Proof.
  intros t temp. subst t.
  rewrite (Finalpulseandbuzzer_loop_beats s i Hr) in Hn, Ht.
  rewrite (Finalpulseandbuzzer_loop_live s i Hr). cbv zeta.
  set (cd := Finalpulseandbuzzer.conditioner _ _) in *.
  set (g := Finalpulseandbuzzer.beat_gate _ _ _) in *.
  unfold Finalpulseandbuzzer.accept_or_fallback.
  unfold Finalpulseandbuzzer.computeBPM. rewrite Hn.
  change (0 =? 0)%nat with true. cbv iota.
  change (Qgeb 0 MIN_VALID_BPM && Qle_bool 0 MAX_VALID_BPM) with false.
  cbv iota.
  apply Z.ltb_lt in Ht. rewrite Ht.
  set (b0 := Finalpulseandbuzzer.lastGoodBPM (Finalpulseandbuzzer.rates s)) in *.
  set (j := Finalpulseandbuzzer.hrv_jitter _ b0 _).
  set (w := Finalpulseandbuzzer.waveform_variation _ _ _).
  assert (Hj : j.2 = b0 \/ j.2 = MIN_VALID_BPM)
    by (apply Finalpulseandbuzzer_jitter_zero; exact Hg).
  assert (Hlow : Qltb j.2 Finalpulseandbuzzer.BPM_ALERT_LOW = true).
  { apply Qltb_lt. unfold Finalpulseandbuzzer.BPM_ALERT_LOW.
    destruct Hj as [-> | ->]; [rewrite Hg; reflexivity | reflexivity]. }
  assert (Ha : Finalpulseandbuzzer.alarm_of j.2 temp = true).
  { unfold Finalpulseandbuzzer.alarm_of. now rewrite Hlow. }
  exists w.2, j.2.
  cbn [Finalpulseandbuzzer.printed Finalpulseandbuzzer.next
       Finalpulseandbuzzer.buzz Finalpulseandbuzzer.rates].
  fold temp. rewrite Ha.
  split; [reflexivity |]. split; [exact Hj |].
  split.
  { destruct Hj as [-> | ->]; [left | right; reflexivity].
    unfold Finalpulseandbuzzer.bpmInt, to_long.
    assert (N : Qnum b0 = 0%Z).
    { unfold Qeq in Hg. simpl in Hg. lia. }
    rewrite N. reflexivity. }
  split; [reflexivity |]. split; [reflexivity |].
  split; [| reflexivity].
  intros H0. unfold Finalpulseandbuzzer.handleBuzzer. cbn [negb].
  rewrite H0. reflexivity.
Qed.

Lemma Finalpulseandbuzzer_alarm_without_beats_witness :
  Finalpulseandbuzzer.buzz
    (Finalpulseandbuzzer.next
       (Finalpulseandbuzzer.loop Finalpulseandbuzzer.init
          (Finalpulseandbuzzer.mkReads (sample 100 50) 50 37 50)))
  = Finalpulseandbuzzer.mkBuzzer 50 true true.
Proof.
  destruct (Finalpulseandbuzzer_alarm_without_beats Finalpulseandbuzzer.init
              (Finalpulseandbuzzer.mkReads (sample 100 50) 50 37 50)
              ltac:(simpl; lia) ltac:(vm_compute; reflexivity)
              ltac:(reflexivity) ltac:(vm_compute; reflexivity))
    as (x & b & _ & _ & _ & _ & _ & H & _).
  exact (H eq_refl).
Defined.

(** ** The exchange sort of Pulsebyuno's [medianBPM] *)

Lemma ascending_sorted (l : list Q) : ascending l -> Sorted Qle l.
Proof.
  intros H. apply StronglySorted_Sorted. induction l as [| x l IH].
  - constructor.
  - constructor.
    + apply IH. intros a b Hab. apply (H (S a) (S b)). simpl. lia.
    + apply Forall_lookup. intros k y Hk.
      pose proof (lookup_lt_Some _ _ _ Hk) as Hlt.
      specialize (H 0%nat (S k) ltac:(simpl; lia)).
      change ((x :: l) !!! 0%nat) with x in H.
      change ((x :: l) !!! S k) with (l !!! k) in H.
      now rewrite (list_lookup_total_correct _ _ _ Hk) in H.
Qed.

Lemma sorted_ascending (l : list Q) : Sorted Qle l -> ascending l.
Proof.
  intros H. apply Sorted_StronglySorted in H;
    [| intros x y z; apply Qle_trans].
  induction H as [| x l _ IH F]; intros a b Hab; [simpl in Hab; lia |].
  destruct b as [| b]; [lia |]. simpl in Hab.
  change ((x :: l) !!! S b) with (l !!! b).
  destruct a as [| a].
  - change ((x :: l) !!! 0%nat) with x.
    destruct (lookup_lt_is_Some_2 l b ltac:(lia)) as [y Hy].
    rewrite (list_lookup_total_correct _ _ _ Hy).
    exact (proj1 (Forall_lookup _ _) F b y Hy).
  - change ((x :: l) !!! S a) with (l !!! a). apply IH. lia.
Qed.

Section ExchangeSort.
Import Pulsebyuno.

Variable n : nat.

(** One run of the inner loop for the outer index [i]: the slots below
    [n] are permuted, the slots below [i] keep their values and stay
    below everything to their right, and [t[i]] ends up below every slot
    to its right. *)
Lemma exchange_inner_spec (i k j : nat) (t : list Q) :
  (i < j)%nat -> (j + k = n)%nat -> (n <= length t)%nat ->
  (forall a b : nat, (a < i)%nat -> (a < b < n)%nat ->
     (t !!! a <= t !!! b)%Q) ->
  (forall b : nat, (i < b < j)%nat -> (t !!! i <= t !!! b)%Q) ->
  let t' := exchange_inner t i j k in
  length t' = length t
  /\ take n t' ≡ₚ take n t
  /\ (forall a b : nat, (a < i)%nat -> (a < b < n)%nat ->
        (t' !!! a <= t' !!! b)%Q)
  /\ (forall b : nat, (i < b < n)%nat -> (t' !!! i <= t' !!! b)%Q).
Proof.
  revert j t. induction k as [| k IH]; intros j t Hij Hjk Hn I1 I2.
  - simpl. replace j with n in I2 by lia. auto.
  - cbn [exchange_inner].
    set (t1 := if Qltb (t !!! j) (t !!! i)
               then <[j := t !!! i]> (<[i := t !!! j]> t) else t).
    assert (L1 : length t1 = length t).
    { unfold t1. destruct (Qltb _ _); [| reflexivity].
      now rewrite !length_insert. }
    assert (P1 : take n t1 ≡ₚ take n t).
    { unfold t1. destruct (Qltb _ _); [| reflexivity].
      rewrite !take_insert_lt by lia.
      apply Permutation_insert_swap.
      - rewrite lookup_take_lt by lia. apply list_lookup_lookup_total_lt. lia.
      - rewrite lookup_take_lt by lia. apply list_lookup_lookup_total_lt. lia. }
    assert (V : forall c : nat,
              t1 !!! c = t !!! c
              \/ (Qltb (t !!! j) (t !!! i) = true
                  /\ ((c = i /\ t1 !!! c = t !!! j)
                      \/ (c = j /\ t1 !!! c = t !!! i)))).
    { intros c0. unfold t1. destruct (Qltb (t !!! j) (t !!! i)) eqn:E;
        [| left; reflexivity].
      destruct (decide (c0 = j)) as [-> | Hcj].
      - right. split; [reflexivity |]. right. split; [reflexivity |].
        apply list_lookup_total_insert_eq. rewrite length_insert. lia.
      - rewrite list_lookup_total_insert_ne by auto.
        destruct (decide (c0 = i)) as [-> | Hci].
        + right. split; [reflexivity |]. left. split; [reflexivity |].
          apply list_lookup_total_insert_eq. lia.
        + left. now rewrite list_lookup_total_insert_ne by auto. }
    assert (I1' : forall a b : nat, (a < i)%nat -> (a < b < n)%nat ->
                    (t1 !!! a <= t1 !!! b)%Q).
    { intros a b Ha Hb.
      destruct (V a) as [-> | (_ & [[-> _] | [-> _]])]; [| lia | lia].
      destruct (V b) as [-> | (_ & [[_ ->] | [_ ->]])];
        apply I1; lia. }
    assert (I2' : forall b : nat, (i < b < S j)%nat ->
                    (t1 !!! i <= t1 !!! b)%Q).
    { intros b Hb.
      destruct (V i) as [Ei | (E & [[_ Ei] | [-> _]])]; [| | lia];
        rewrite Ei.
      - (* no swap at i: either no swap at all, or impossible *)
        destruct (V b) as [-> | (E & [[-> _] | [-> Eb]])]; [| lia |].
        + destruct (decide (b = j)) as [-> | Hbj]; [| apply I2; lia].
          unfold t1 in Ei.
          destruct (Qltb (t !!! j) (t !!! i)) eqn:E.
          * rewrite list_lookup_total_insert_ne in Ei by lia.
            rewrite list_lookup_total_insert_eq in Ei by lia.
            rewrite <- Ei. apply Qle_refl.
          * apply Qnot_lt_le. intros C. apply Qltb_lt in C. congruence.
        + rewrite Eb. apply Qle_refl.
      - apply Qltb_lt in E.
        destruct (V b) as [-> | (_ & [[-> _] | [-> ->]])]; [| lia |].
        + destruct (decide (b = j)) as [-> | Hbj]; [apply Qle_refl |].
          apply Qle_trans with (t !!! i); [apply Qlt_le_weak; exact E |].
          apply I2. lia.
        + apply Qlt_le_weak. exact E. }
    destruct (IH (S j) t1 ltac:(lia) ltac:(lia) ltac:(lia) I1' I2')
      as (L & P & J1 & J2).
    split; [congruence |]. split; [now rewrite P |]. auto.
Qed.

Lemma exchange_outer_spec (k i : nat) (t : list Q) :
  (S (i + k) = n)%nat -> (n <= length t)%nat ->
  (forall a b : nat, (a < i)%nat -> (a < b < n)%nat ->
     (t !!! a <= t !!! b)%Q) ->
  let t' := exchange_outer t n i k in
  length t' = length t
  /\ take n t' ≡ₚ take n t
  /\ (forall a b : nat, (a < b < n)%nat -> (t' !!! a <= t' !!! b)%Q).
Proof.
  revert i t. induction k as [| k IH]; intros i t Hik Hn I1.
  - simpl. split; [reflexivity |]. split; [reflexivity |].
    intros a b Hab. apply I1; lia.
  - cbn [exchange_outer].
    destruct (exchange_inner_spec i (n - S i) (S i) t
                ltac:(lia) ltac:(lia) Hn I1 ltac:(intros; lia))
      as (L & P & J1 & J2).
    set (t1 := exchange_inner t i (S i) (n - S i)) in *.
    destruct (IH (S i) t1 ltac:(lia) ltac:(lia)) as (L' & P' & S').
    { intros a b Ha Hb. destruct (decide (a = i)) as [-> | Hai].
      - apply J2. lia.
      - apply J1; lia. }
    split; [congruence |]. split; [now rewrite P' |]. exact S'.
Qed.

End ExchangeSort.

Lemma exchange_copy_sorted (a : list Q) (n : nat) :
  (0 < n <= length a)%nat ->
  take n (Pulsebyuno.exchange_copy a n) ≡ₚ take n a
  /\ ascending (take n (Pulsebyuno.exchange_copy a n)).
Proof.
  intros Hn. unfold Pulsebyuno.exchange_copy.
  set (t := take n a ++ replicate (BPM_MEDIAN_WINDOW - n) 0%Q).
  assert (Lt : (n <= length t)%nat).
  { unfold t. rewrite length_app, length_take. lia. }
  destruct (exchange_outer_spec n (n - 1) 0 t ltac:(lia) Lt
              ltac:(intros; lia)) as (L & P & S').
  split.
  - rewrite P. unfold t. rewrite take_app_le by (rewrite length_take; lia).
    rewrite take_take. now replace (n `min` n)%nat with n by lia.
  - intros x y Hxy. rewrite length_take in Hxy.
    rewrite !lookup_total_take_lt by lia. apply S'. lia.
Qed.

(** ** Two sorts of one window *)

Lemma countb_app (f : Q -> bool) (l1 l2 : list Q) :
  countb f (l1 ++ l2) = (countb f l1 + countb f l2)%nat.
Proof. induction l1 as [| x l1 IH]; simpl; lia. Qed.

Lemma countb_perm (f : Q -> bool) (l1 l2 : list Q) :
  l1 ≡ₚ l2 -> countb f l1 = countb f l2.
Proof. induction 1; simpl; lia. Qed.

Lemma countb_le_length (f : Q -> bool) (l : list Q) :
  (countb f l <= length l)%nat.
Proof. induction l as [| x l IH]; simpl; [lia |]. destruct (f x); lia. Qed.

Lemma countb_none (f : Q -> bool) (l : list Q) :
  Forall (fun x => f x = false) l -> countb f l = 0%nat.
Proof. induction 1 as [| x l Hx _ IH]; simpl; [lia |]. now rewrite Hx. Qed.

Lemma countb_all (f : Q -> bool) (l : list Q) :
  Forall (fun x => f x = true) l -> countb f l = length l.
Proof. induction 1 as [| x l Hx _ IH]; simpl; [lia |]. rewrite Hx. lia. Qed.

Lemma countb_mono (f g : Q -> bool) (l : list Q) :
  (forall x, f x = true -> g x = true) -> (countb f l <= countb g l)%nat.
Proof.
  intros H. induction l as [| x l IH]; simpl; [lia |].
  destruct (f x) eqn:E; [rewrite (H x E); lia | destruct (g x); lia].
Qed.

(** In an ascending list fewer than [k + 1] elements are below the
    element at position [k], and at least [k + 1] are not above it. *)
Lemma ascending_rank (l : list Q) (k : nat) :
  ascending l -> (k < length l)%nat ->
  (countb (fun x => Qltb x (l !!! k)) l <= k)%nat
  /\ (k + 1 <= countb (fun x => Qle_bool x (l !!! k)) l)%nat.
Proof.
  intros H Hk. split.
  - replace (countb (fun x => Qltb x (l !!! k)) l)
      with (countb (fun x => Qltb x (l !!! k)) (take k l ++ drop k l))
      by (now rewrite take_drop).
    rewrite countb_app.
    rewrite (countb_none _ (drop k l)).
    + pose proof (countb_le_length (fun x => Qltb x (l !!! k)) (take k l)).
      rewrite length_take in H0. lia.
    + apply Forall_lookup. intros j x Hj. rewrite lookup_drop in Hj.
      pose proof (lookup_lt_Some _ _ _ Hj) as Hlt.
      apply not_true_iff_false. intros C. apply Qltb_lt in C.
      assert (Hle : (l !!! k <= x)%Q).
      { rewrite <- (list_lookup_total_correct _ _ _ Hj).
        destruct j as [| j]; [rewrite Nat.add_0_r; apply Qle_refl |].
        apply H. lia. }
      exact (Qlt_irrefl _ (Qlt_le_trans _ _ _ C Hle)).
  - replace (countb (fun x => Qle_bool x (l !!! k)) l)
      with (countb (fun x => Qle_bool x (l !!! k))
              (take (k + 1) l ++ drop (k + 1) l))
      by (now rewrite take_drop).
    rewrite countb_app.
    rewrite (countb_all _ (take (k + 1) l)).
    + rewrite length_take. lia.
    + apply Forall_lookup. intros j x Hj.
      apply lookup_take_Some in Hj. destruct Hj as [Hj Hlt].
      apply Qle_bool_iff.
      rewrite <- (list_lookup_total_correct _ _ _ Hj).
      destruct (decide (j = k)) as [-> | Hne]; [apply Qle_refl |].
      apply H. lia.
Qed.

Lemma ascending_unique (l1 l2 : list Q) (k : nat) :
  l1 ≡ₚ l2 -> ascending l1 -> ascending l2 -> (k < length l1)%nat ->
  (l1 !!! k == l2 !!! k)%Q.
Proof.
  assert (Half : forall m1 m2 : list Q,
            m1 ≡ₚ m2 -> ascending m1 -> ascending m2 ->
            (k < length m1)%nat -> (m2 !!! k <= m1 !!! k)%Q).
  { intros m1 m2 P A1 A2 Hk. apply Qnot_lt_le. intros C.
    assert (Hk2 : (k < length m2)%nat)
      by (now rewrite <- (Permutation_length P)).
    destruct (ascending_rank m1 k A1 Hk) as [_ R1].
    destruct (ascending_rank m2 k A2 Hk2) as [R2 _].
    rewrite (countb_perm _ _ _ P) in R1.
    pose proof (countb_mono (fun x => Qle_bool x (m1 !!! k))
                  (fun x => Qltb x (m2 !!! k)) m2) as M.
    assert (M' : (countb (fun x => Qle_bool x (m1 !!! k)) m2
                  <= countb (fun x => Qltb x (m2 !!! k)) m2)%nat).
    { apply M. intros x Hx. apply Qle_bool_iff in Hx. apply Qltb_lt.
      exact (Qle_lt_trans _ _ _ Hx C). }
    lia. }
  intros P A1 A2 Hk. apply Qle_antisym.
  - apply (Half l2 l1); [now symmetry | assumption | assumption |].
    now rewrite <- (Permutation_length P).
  - now apply Half.
Qed.

(** X11. The [medianBPM] of Pulsebyuno (which nothing in that sketch
    calls) sorts its copy by exchanges where Espbpm and
    Finalpulseandbuzzer insert: for a non-empty window of [n] occupied
    slots the first [n] slots of the local array end up as a permutation
    of the occupied slots in ascending order, the value returned is the
    one at position [n / 2], and it is the value the insertion-sorting
    [medianBPM] of the other two sketches returns on the same window. *)
Theorem Pulsebyuno_medianBPM_sorts
  (r : Pulsebyuno.Rates)
  (Hn : (0 < Pulsebyuno.bpmHistCount r
         <= length (Pulsebyuno.bpmHistory r))%nat) :
  let n := Pulsebyuno.bpmHistCount r in
  let l := take n (Pulsebyuno.exchange_copy (Pulsebyuno.bpmHistory r) n) in
  l ≡ₚ take n (Pulsebyuno.bpmHistory r)
  /\ Sorted Qle l
  /\ Pulsebyuno.medianBPM r = l !!! upper_middle n
  /\ (Pulsebyuno.medianBPM r
      == Finalpulseandbuzzer.medianBPM (Pulsebyuno.bpmHistory r) n)%Q.
Proof.
  intros n l.
  destruct (exchange_copy_sorted (Pulsebyuno.bpmHistory r) n Hn) as [P A].
  destruct (sorted_copy_sorted (Pulsebyuno.bpmHistory r) n Hn) as [P2 S2].
  destruct (middle_positions n (proj1 Hn)) as (Hm & _ & _).
  assert (M : Pulsebyuno.medianBPM r = l !!! upper_middle n).
  { unfold Pulsebyuno.medianBPM. fold n.
    replace (n =? 0)%nat with false by (symmetry; apply Nat.eqb_neq; lia).
    unfold l. now rewrite lookup_total_take_lt by exact Hm. }
  split; [exact P |]. split; [now apply ascending_sorted |].
  split; [exact M |].
  rewrite M. unfold Finalpulseandbuzzer.medianBPM.
  replace (n =? 0)%nat with false by (symmetry; apply Nat.eqb_neq; lia).
  fold (upper_middle n).
  rewrite <- (lookup_total_take_lt (sorted_copy _ n) n (upper_middle n) Hm).
  apply ascending_unique.
  - transitivity (take n (Pulsebyuno.bpmHistory r));
      [exact P | symmetry; exact P2].
  - exact A.
  - now apply sorted_ascending.
  - unfold l. rewrite (Permutation_length P), length_take. lia.
Qed.

Lemma Pulsebyuno_medianBPM_sorts_witness :
  Pulsebyuno.medianBPM
    (Pulsebyuno.mkRates [80%Q; 60%Q; 70%Q; 90%Q; 0%Q] 4 4
       (replicate BPM_AVG_WINDOW 0%Q) 0 0 0 0)
  = take 4 (Pulsebyuno.exchange_copy [80%Q; 60%Q; 70%Q; 90%Q; 0%Q] 4)
    !!! upper_middle 4.
Proof.
  exact (proj1 (proj2 (proj2
    (Pulsebyuno_medianBPM_sorts
       (Pulsebyuno.mkRates [80%Q; 60%Q; 70%Q; 90%Q; 0%Q] 4 4
          (replicate BPM_AVG_WINDOW 0%Q) 0 0 0 0)
       ltac:(simpl; lia))))).
Defined.

(** ** The two beat timestamps *)

Lemma Espbpm_gate_stamps (b : Espbpm.Beats) (peak : bool) (t : Z) :
  Espbpm.lastValidBeatTime b = Espbpm.lastBeatTime b ->
  Espbpm.lastValidBeatTime (Espbpm.beat_gate b peak t).1
  = Espbpm.lastBeatTime (Espbpm.beat_gate b peak t).1.
Proof.
  intros H. unfold Espbpm.beat_gate.
  destruct (peak && _); [| exact H].
  destruct (_ || _); [reflexivity | exact H].
Qed.

Lemma Pulsebyuno_gate_stamps (b : Pulsebyuno.Beats) (peak : bool) (t : Z) :
  Pulsebyuno.lastValidBeatTime b = Pulsebyuno.lastBeatTime b ->
  Pulsebyuno.lastValidBeatTime (Pulsebyuno.beat_gate b peak t).1
  = Pulsebyuno.lastBeatTime (Pulsebyuno.beat_gate b peak t).1.
Proof.
  intros H. unfold Pulsebyuno.beat_gate.
  destruct (peak && _); [| exact H].
  destruct (_ || _); [reflexivity | exact H].
Qed.

Lemma Finalpulseandbuzzer_gate_stamps
  (b : Finalpulseandbuzzer.Beats) (peak : bool) (t : Z) :
  Finalpulseandbuzzer.lastValidBeatTime b
  = Finalpulseandbuzzer.lastBeatTime b ->
  Finalpulseandbuzzer.lastValidBeatTime
    (Finalpulseandbuzzer.beat_gate b peak t).1
  = Finalpulseandbuzzer.lastBeatTime
      (Finalpulseandbuzzer.beat_gate b peak t).1.
Proof.
  intros H. unfold Finalpulseandbuzzer.beat_gate.
  destruct (peak && _); [| exact H].
  destruct (_ || _); [reflexivity | exact H].
Qed.

(** X12. In the three sketches [lastValidBeatTime] and [lastBeatTime]
    are assigned together and nowhere else, so they are equal in every
    state [loop()] reaches from [setup()]: the FALLBACK timeout runs from
    the beat the refractory gate counts from. *)
Theorem beat_timestamps_agree :
  (forall s : Espbpm.State,
     Espbpm.reachable s ->
     Espbpm.lastValidBeatTime (Espbpm.beats s)
     = Espbpm.lastBeatTime (Espbpm.beats s))
  /\ (forall s : Pulsebyuno.State,
        Pulsebyuno.reachable s ->
        Pulsebyuno.lastValidBeatTime (Pulsebyuno.beats s)
        = Pulsebyuno.lastBeatTime (Pulsebyuno.beats s))
  /\ (forall s : Finalpulseandbuzzer.State,
        Finalpulseandbuzzer.reachable s ->
        Finalpulseandbuzzer.lastValidBeatTime (Finalpulseandbuzzer.beats s)
        = Finalpulseandbuzzer.lastBeatTime (Finalpulseandbuzzer.beats s)).
Proof.
  split; [| split].
  - intros s Hs. induction Hs as [| s i _ IH]; [reflexivity |].
    pose proof (Espbpm_loop_beats s i) as E.
    destruct (raw i <? 30)%Z.
    + injection E as E _. now rewrite E.
    + destruct (Espbpm.beat_gate (Espbpm.beats s) _ (now i)) as [b l] eqn:G.
      injection E as E _. rewrite E.
      pose proof (Espbpm_gate_stamps (Espbpm.beats s)
                    (Espbpm.conditioner (Espbpm.filt s) (raw i)).2 (now i) IH)
        as K.
      now rewrite G in K.
  - intros s Hs. induction Hs as [| s i _ IH]; [reflexivity |].
    pose proof (Pulsebyuno_loop_beats s i) as E.
    destruct (raw i <? 30)%Z.
    + injection E as E _. now rewrite E.
    + destruct (Pulsebyuno.beat_gate (Pulsebyuno.beats s) _ (now i))
        as [b l] eqn:G.
      injection E as E _. rewrite E.
      pose proof (Pulsebyuno_gate_stamps (Pulsebyuno.beats s)
                    (Pulsebyuno.conditioner (Pulsebyuno.filt s) (raw i)).2
                    (now i) IH) as K.
      now rewrite G in K.
  - intros s Hs. induction Hs as [| s i _ IH]; [reflexivity |].
    destruct (Z.ltb_spec (raw (Finalpulseandbuzzer.pulse i)) 30) as [Hlt | Hge].
    + unfold Finalpulseandbuzzer.loop.
      replace (raw (Finalpulseandbuzzer.pulse i) <? 30)%Z with true
        by (symmetry; apply Z.ltb_lt; exact Hlt).
      exact IH.
    + rewrite (Finalpulseandbuzzer_loop_beats s i Hge).
      now apply Finalpulseandbuzzer_gate_stamps.
Qed.

(** ** The first rate *)

Lemma Qgeb_compat (a a' b : Q) : (a == a')%Q -> Qgeb a b = Qgeb a' b.
Proof.
  intros H. unfold Qgeb.
  destruct (Qle_bool b a) eqn:E1, (Qle_bool b a') eqn:E2; try reflexivity.
  - apply Qle_bool_iff in E1. rewrite H in E1. apply Qle_bool_iff in E1.
    congruence.
  - apply Qle_bool_iff in E2. rewrite <- H in E2. apply Qle_bool_iff in E2.
    congruence.
Qed.

Lemma Qle_bool_compat (a a' b : Q) :
  (a == a')%Q -> Qle_bool a b = Qle_bool a' b.
Proof.
  intros H.
  destruct (Qle_bool a b) eqn:E1, (Qle_bool a' b) eqn:E2; try reflexivity.
  - apply Qle_bool_iff in E1. rewrite H in E1. apply Qle_bool_iff in E1.
    congruence.
  - apply Qle_bool_iff in E2. rewrite <- H in E2. apply Qle_bool_iff in E2.
    congruence.
Qed.

(** X13. The first rate Espbpm reports. With the three rings empty and
    their cursors at 0 (as [setup()] leaves them), a first beat already
    registered at [lastBeatTime], and a peak [dt] ms later that passes
    the refractory gate and the interval validator: the beat is accepted
    with a flash of the LED, the one stored interval gives the candidate
    [60000 / dt], average and median of the one-element windows are that
    candidate, and the tick takes the OK branch with confidence 0.85 and
    [finalBPM = lastGoodBPM = 60000 / dt], a value in [35, 200]. *)
Theorem Espbpm_first_rate
  (b : Espbpm.Beats) (r : Espbpm.Rates) (t : Z)
  (Hb : Espbpm.beatCount b = 0%nat /\ Espbpm.beatIndex b = 0%nat
        /\ (0 < length (Espbpm.beatIntervals b))%nat
        /\ Espbpm.lastBeatTime b <> 0%Z)
  (Hh : Espbpm.bpmHistCount r = 0%nat /\ Espbpm.bpmHistIdx r = 0%nat
        /\ (0 < length (Espbpm.bpmHistory r))%nat)
  (Ha : Espbpm.bpmAvgCount r = 0%nat /\ Espbpm.bpmAvgIdx r = 0%nat
        /\ (0 < length (Espbpm.bpmAvgWindow r))%nat)
  (Hg : (MIN_BEAT_MS < usub t (Espbpm.lastBeatTime b))%Z)
  (Hp : Espbpm.plausibleInterval
          (inject_Z (usub t (Espbpm.lastBeatTime b))) = true) :
  let dt := inject_Z (usub t (Espbpm.lastBeatTime b)) in
  let g := Espbpm.beat_gate b true t in
  let d := Espbpm.accept_or_fallback g.1 r t in
  g.2 = [false]
  /\ Espbpm.beatCount g.1 = 1%nat
  /\ (Espbpm.computeBPM g.1 == 60000 / dt)%Q
  /\ d.1.2 = ST_OK
  /\ (exists fb : Q,
        d.2 = Some (fb, (85 # 100)%Q)
        /\ Espbpm.lastGoodBPM d.1.1 = fb
        /\ (fb == 60000 / dt)%Q
        /\ valid_bpm fb).
Proof.
  destruct Hb as (Hc & Hi & Hl & H0). destruct Hh as (Hhc & Hhi & Hhl).
  destruct Ha as (Hac & Hai & Hal).
  intros dt g d.
  assert (Hdt : (0 < dt)%Q).
  { unfold dt. change 0%Q with (inject_Z 0). rewrite <- Zlt_Qlt.
    unfold MIN_BEAT_MS in Hg. lia. }
  assert (Hv : valid_bpm (60000 / dt)).
  { unfold Espbpm.plausibleInterval in Hp. fold dt in Hp.
    destruct (Qle_bool dt 0); [discriminate |].
    apply andb_true_iff in Hp. destruct Hp as [P1 P2].
    split; [apply Qgeb_ge; exact P1 | apply Qle_bool_iff; exact P2]. }
  assert (G : g = (Espbpm.mkBeats t t (<[0%nat := dt]> (Espbpm.beatIntervals b))
                     1%nat 1%nat, [false])).
  { unfold g, Espbpm.beat_gate. cbn [andb].
    replace (MIN_BEAT_MS <? usub t (Espbpm.lastBeatTime b))%Z with true
      by (symmetry; apply Z.ltb_lt; exact Hg).
    replace (Espbpm.lastBeatTime b =? 0)%Z with false
      by (symmetry; apply Z.eqb_neq; exact H0).
    cbv iota. rewrite Hp. cbn [orb negb]. cbv iota.
    unfold Espbpm.pushBeatInterval. rewrite Hc, Hi. reflexivity. }
  assert (C : (Espbpm.computeBPM g.1 == 60000 / dt)%Q).
  { rewrite G. cbn [fst]. unfold Espbpm.computeBPM.
    cbn [Espbpm.beatCount Espbpm.beatIntervals Nat.eqb].
    rewrite sum_slots_S. change (sum_slots _ 0) with 0%Q.
    rewrite list_lookup_total_insert_eq by exact Hl.
    change (inject_Z (Z.of_nat 1)) with 1%Q.
    assert (E : ((0 + dt) / 1 == dt)%Q) by (field).
    replace (Qle_bool ((0 + dt) / 1) 0) with false.
    - now rewrite E.
    - symmetry. apply not_true_iff_false. intros K.
      apply Qle_bool_iff in K. rewrite E in K. lra. }
  split; [now rewrite G |]. split; [now rewrite G |]. split; [exact C |].
  set (cand := Espbpm.computeBPM g.1) in *.
  assert (Vc : valid_bpm cand).
  { destruct Hv as [V1 V2]. split; rewrite C; assumption. }
  assert (Vb : Qgeb cand MIN_VALID_BPM && Qle_bool cand MAX_VALID_BPM = true).
  { apply andb_true_iff. destruct Vc as [V1 V2].
    split; [apply Qgeb_ge; exact V1 | apply Qle_bool_iff; exact V2]. }
  assert (Avg : (Espbpm.avgBPM
                   (Espbpm.pushBPMAvg (Espbpm.pushBPMHistory r cand) cand)
                 == cand)%Q).
  { unfold Espbpm.avgBPM, Espbpm.pushBPMAvg, Espbpm.pushBPMHistory.
    cbn [Espbpm.bpmAvgCount Espbpm.bpmAvgWindow Espbpm.bpmAvgIdx].
    rewrite Hac, Hai. cbn [Nat.ltb Nat.leb Nat.eqb BPM_AVG_WINDOW].
    rewrite sum_slots_S. change (sum_slots _ 0) with 0%Q.
    rewrite list_lookup_total_insert_eq by exact Hal.
    change (inject_Z (Z.of_nat 1)) with 1%Q. field. }
  assert (Med : Espbpm.medianBPM
                  (Espbpm.pushBPMAvg (Espbpm.pushBPMHistory r cand) cand)
                = cand).
  { unfold Espbpm.medianBPM, Espbpm.pushBPMAvg, Espbpm.pushBPMHistory.
    cbn [Espbpm.bpmHistCount Espbpm.bpmHistory Espbpm.bpmHistIdx].
    rewrite Hhc, Hhi. cbn [Nat.ltb Nat.leb Nat.eqb BPM_MEDIAN_WINDOW].
    unfold sorted_copy. change (1 - 1)%nat with 0%nat.
    cbn [insertion_pass]. change (1 / 2)%nat with 0%nat.
    destruct (Espbpm.bpmHistory r) as [| x a]; [simpl in Hhl; lia |].
    reflexivity. }
  unfold d, Espbpm.accept_or_fallback. fold cand. rewrite Vb.
  cbn [fst snd]. split; [reflexivity |].
  rewrite Med.
  replace (Qgtb cand 0) with true
    by (symmetry; apply Qgtb_gt; destruct Vc as [V1 _];
        unfold MIN_VALID_BPM in V1; lra).
  eexists. split; [reflexivity |]. split; [reflexivity |].
  assert (F : (Espbpm.avgBPM
                 (Espbpm.pushBPMAvg (Espbpm.pushBPMHistory r cand) cand)
               * (6 # 10) + cand * (4 # 10) == 60000 / dt)%Q).
  { rewrite Avg, <- C. field. }
  split; [exact F |].
  destruct Hv as [V1 V2]. split; rewrite F; assumption.
Qed.

Lemma Espbpm_first_rate_witness :
  (Espbpm.computeBPM
     (Espbpm.beat_gate (Espbpm.mkBeats 1000 1000 (replicate 16 0%Q) 0 0)
        true 1800).1
   == 60000 / inject_Z (usub 1800 1000))%Q.
Proof.
  exact (proj1 (proj2 (proj2
    (Espbpm_first_rate (Espbpm.mkBeats 1000 1000 (replicate 16 0%Q) 0 0)
       (Espbpm.rates Espbpm.init) 1800
       ltac:(repeat split; try reflexivity; [simpl; lia | discriminate])
       ltac:(repeat split; try reflexivity; simpl; lia)
       ltac:(repeat split; try reflexivity; simpl; lia)
       ltac:(vm_compute; reflexivity)
       ltac:(vm_compute; reflexivity))))).
Defined.

(** ** The value Pulsebyuno prints *)

Section PulsebyunoValue.
Import Pulsebyuno.

Lemma Pulsebyuno_init_rates : Pulsebyuno_rates_inv (rates init).
Proof.
  split; [| split].
  - simpl. unfold BPM_AVG_WINDOW. repeat split; lia.
  - unfold occupied. simpl. constructor.
  - left. reflexivity.
Qed.

Lemma Pulsebyuno_decision_inv (b : Beats) (r : Rates) (t : Z) :
  Pulsebyuno_rates_inv r ->
  let d := accept_or_fallback b r t in
  Pulsebyuno_rates_inv d.1.1
  /\ match d.2 with
     | Some (fb, cf) =>
         (d.1.2 = ST_OK /\ valid_bpm fb /\ cf = (8 # 10)%Q)
         \/ (d.1.2 = ST_FALLBACK /\ fb = lastGoodBPM r /\ cf = (6 # 10)%Q
             /\ d.1.1 = r)
     | None => d.1.2 = ST_NO_SENSOR /\ d.1.1 = r
     end.
Proof.
  intros (Wa & Oa & G). unfold accept_or_fallback.
  destruct (Qgeb (computeBPM b) MIN_VALID_BPM
            && Qle_bool (computeBPM b) MAX_VALID_BPM) eqn:V.
  - apply andb_true_iff in V. destruct V as [V1 V2].
    assert (Vc : valid_bpm (computeBPM b))
      by (split; [apply Qgeb_ge; exact V1 | apply Qle_bool_iff; exact V2]).
    set (cand := computeBPM b) in *.
    set (r1 := pushBPMAvg (pushBPMHistory r cand) cand).
    assert (E1 : Pulsebyuno_avg_ring r1
                 = ring_push BPM_AVG_WINDOW (Pulsebyuno_avg_ring r) cand)
      by reflexivity.
    assert (W1 : ring_wf BPM_AVG_WINDOW (Pulsebyuno_avg_ring r1)).
    { rewrite E1. apply ring_push_wf; [unfold BPM_AVG_WINDOW; lia | exact Wa]. }
    assert (O1 : occupied valid_bpm (Pulsebyuno_avg_ring r1)).
    { rewrite E1. now apply ring_push_keeps. }
    assert (C1 : (0 < bpmAvgCount r1)%nat).
    { unfold r1, pushBPMAvg. cbn [bpmAvgCount].
      destruct (_ <? _)%nat eqn:K; [lia |].
      apply Nat.ltb_ge in K. unfold pushBPMHistory in K. cbn [bpmAvgCount] in K.
      unfold pushBPMHistory. cbn [bpmAvgCount]. unfold BPM_AVG_WINDOW in K. lia. }
    assert (Va : valid_bpm (avgBPM r1)).
    { destruct W1 as (La & Hi & Hn & _). unfold occupied in O1.
      cbn [Pulsebyuno_avg_ring fst snd] in La, Hn, O1.
      unfold avgBPM.
      replace (bpmAvgCount r1 =? 0)%nat with false
        by (symmetry; apply Nat.eqb_neq; lia).
      apply mean_bounds; [exact C1 |].
      apply sum_slots_bounds; [lia |]. exact O1. }
    cbn [fst snd]. split.
    + split; [exact W1 |]. split; [exact O1 |]. right. exact Va.
    + left. auto.
  - destruct (Qltb _ FALLBACK_TIMEOUT_MS); cbn [fst snd].
    + split; [split; [exact Wa |]; split; assumption |]. right. auto.
    + split; [split; [exact Wa |]; split; assumption |]. auto.
Qed.

Lemma Pulsebyuno_jitter_value (lj : Z) (fb : Q) (i : Input) :
  (hrv_jitter lj fb i).2 = fb \/ valid_bpm (hrv_jitter lj fb i).2.
Proof.
  unfold hrv_jitter. destruct (1400 <? usub (tJitter i) lj)%Z;
    [right | left; reflexivity].
  cbn [snd]. apply constrainQ_bounds. discriminate.
Qed.

Lemma Pulsebyuno_loop_value (s : State) (i : Input) :
  Pulsebyuno_rates_inv (rates s) ->
  Pulsebyuno_rates_inv (rates (next (loop s i)))
  /\ match printed (loop s i) with
     | Calculating => True
     | Report x b cf st =>
         (st = ST_OK /\ cf = (8 # 10)%Q /\ valid_bpm b)
         \/ (st = ST_FALLBACK /\ cf = (6 # 10)%Q
             /\ (b = lastGoodBPM (rates s) \/ valid_bpm b)
             /\ rates (next (loop s i)) = rates s)
     end.
Proof.
  intros Hr. unfold loop.
  destruct (raw i <? 30)%Z; [split; [exact Hr | exact I] |].
  destruct (conditioner (filt s) (raw i)) as [[f filtered] peak].
  destruct (beat_gate (beats s) peak (now i)) as [b l].
  unfold emit.
  pose proof (Pulsebyuno_decision_inv b (rates s) (now i) Hr) as D.
  destruct (accept_or_fallback b (rates s) (now i)) as [[r st] [[fb cf] |]];
    cbn [fst snd] in D; destruct D as [D1 D2].
  - pose proof (Pulsebyuno_jitter_value (lastJitter s) fb i) as J.
    destruct (hrv_jitter (lastJitter s) fb i) as [lj fb'].
    cbn [snd] in J. cbn [next rates printed].
    split; [exact D1 |].
    destruct D2 as [(-> & Vf & ->) | (-> & -> & -> & ->)].
    + left. split; [reflexivity |]. split; [reflexivity |].
      destruct J as [-> | J]; assumption.
    + right. split; [reflexivity |]. split; [reflexivity |].
      split; [| reflexivity]. destruct J as [-> | J]; auto.
  - cbn [next rates printed]. split; [exact D1 | exact I].
Qed.

Lemma Pulsebyuno_reachable_rates (s : State) :
  reachable s -> Pulsebyuno_rates_inv (rates s).
Proof.
  induction 1 as [| s i _ IH]; [exact Pulsebyuno_init_rates |].
  exact (proj1 (Pulsebyuno_loop_value s i IH)).
Qed.

End PulsebyunoValue.

(** X14. What Pulsebyuno prints as BPM. In every state reached from
    [setup()] the occupied slots of the average window are in [35, 200]
    and [lastGoodBPM] is the initial 0 or in [35, 200]. So a tick that
    reports OK (confidence 0.8) prints a rate in [35, 200], and a tick
    that reports FALLBACK (confidence 0.6) prints a rate in [35, 200] or
    the 0 that [lastGoodBPM] still holds when no tick was OK before; the
    integer printed, [(int)finalBPM], is 0 or between 35 and 200; a tick
    never reports another status. *)
Theorem Pulsebyuno_reported_bpm
  (s : Pulsebyuno.State) (i : Input) (Hs : Pulsebyuno.reachable s) :
  Pulsebyuno_rates_inv (Pulsebyuno.rates s)
  /\ forall (x b cf : Q) (st : StatusCode),
       Pulsebyuno.printed (Pulsebyuno.loop s i) = Report x b cf st ->
       ((st = ST_OK /\ cf = (8 # 10)%Q /\ valid_bpm b)
        \/ (st = ST_FALLBACK /\ cf = (6 # 10)%Q
            /\ (valid_bpm b
                \/ (b = 0%Q
                    /\ Pulsebyuno.lastGoodBPM (Pulsebyuno.rates s) = 0%Q))))
       /\ (Pulsebyuno.bpmInt b = 0%Z
           \/ (35 <= Pulsebyuno.bpmInt b <= 200)%Z).
Proof.
  pose proof (Pulsebyuno_reachable_rates s Hs) as Hr.
  split; [exact Hr |]. intros x b cf st E.
  pose proof (proj2 (Pulsebyuno_loop_value s i Hr)) as V.
  rewrite E in V.
  assert (W : forall q : Q, valid_bpm q ->
                (35 <= Pulsebyuno.bpmInt q <= 200)%Z).
  { intros q [Q1 Q2]. apply to_long_window; [lia |]. split; assumption. }
  destruct V as [(-> & -> & Vb) | (-> & -> & Vb & _)].
  - split; [left; auto |]. right. now apply W.
  - destruct Hr as (_ & _ & G).
    assert (K : valid_bpm b
                \/ (b = 0%Q
                    /\ Pulsebyuno.lastGoodBPM (Pulsebyuno.rates s) = 0%Q)).
    { destruct Vb as [-> | Vb]; [| left; exact Vb].
      destruct G as [G | G]; [right; rewrite G; auto | left; exact G]. }
    split; [right; auto |].
    destruct K as [K | [-> _]]; [right; now apply W | left; reflexivity].
Qed.

Lemma Pulsebyuno_reported_bpm_witness :
  Pulsebyuno.bpmInt 0 = 0%Z \/ (35 <= Pulsebyuno.bpmInt 0 <= 200)%Z.
Proof.
  exact (proj2 (proj2
    (Pulsebyuno_reported_bpm Pulsebyuno.init (sample 100 50)
       Pulsebyuno.reach_init) _ 0%Q _ _ eq_refl)).
Defined.

(** ** The jitter of Finalpulseandbuzzer *)

(** X15. The HRV jitter of Finalpulseandbuzzer, on a value in
    [35, 200]: it does nothing until more than 1400 ms have passed since
    [lastJitter]; when it fires it stores the second [millis()] read in
    [lastJitter], and the new value is in [35, 200], at least 80% of the
    old one and below 120% of it. *)
Theorem Finalpulseandbuzzer_jitter_bounded
  (lastJitter : Z) (finalBPM : Q) (i : Input)
  (Hv : valid_bpm finalBPM) :
  let out := Finalpulseandbuzzer.hrv_jitter lastJitter finalBPM i in
  ((usub (tJitter i) lastJitter <= 1400)%Z -> out = (lastJitter, finalBPM))
  /\ ((1400 < usub (tJitter i) lastJitter)%Z ->
      out.1 = tJitter' i
      /\ (finalBPM * (8 # 10) <= out.2)%Q
      /\ (out.2 < finalBPM * (12 # 10))%Q
      /\ valid_bpm out.2).
Proof.
  intros out. subst out. unfold Finalpulseandbuzzer.hrv_jitter.
  split; intros Ht.
  - now replace (1400 <? usub (tJitter i) lastJitter)%Z with false
      by (symmetry; apply Z.ltb_ge; exact Ht).
  - replace (1400 <? usub (tJitter i) lastJitter)%Z with true
      by (symmetry; apply Z.ltb_lt; exact Ht).
    pose proof Hv as [V1 V2]. unfold MIN_VALID_BPM, MAX_VALID_BPM in V1, V2.
    cbn [fst snd]. split; [reflexivity |].
    assert (M : fmaxQ 1 (finalBPM * (2 # 10)) = (finalBPM * (2 # 10))%Q).
    { unfold fmaxQ.
      replace (Qgtb 1 (finalBPM * (2 # 10))) with false; [reflexivity |].
      symmetry. apply not_true_iff_false. intros C. apply Qgtb_gt in C. lra. }
    rewrite M.
    set (lo := to_long (- (finalBPM * (2 # 10)) * 100)).
    set (hi := to_long (finalBPM * (2 # 10) * 100)).
    destruct (to_long_toward_zero (- (finalBPM * (2 # 10)) * 100)) as [_ L].
    destruct L as [L1 L2]; [lra |]. fold lo in L1, L2.
    destruct (to_long_toward_zero (finalBPM * (2 # 10) * 100)) as [H _].
    destruct H as [H1 H2]; [lra |]. fold hi in H1, H2.
    assert (H3 : (finalBPM * (2 # 10) * 100 < inject_Z hi + 1)%Q).
    { unfold hi, to_long.
      assert (N : (0 <= Qnum (finalBPM * (2 # 10) * 100))%Z).
      { assert (P : (0 <= finalBPM * (2 # 10) * 100)%Q) by lra.
        unfold Qle in P. cbn [Qnum Qden] in P. lia. }
      rewrite Z.quot_div_nonneg by lia.
      pose proof (Qlt_floor (finalBPM * (2 # 10) * 100)) as F.
      destruct (finalBPM * (2 # 10) * 100)%Q as [n d].
      cbn [Qfloor Qnum Qden] in *. rewrite inject_Z_plus in F. exact F. }
    assert (Hlt : (lo < hi)%Z).
    { rewrite Zlt_Qlt. change (inject_Z 1) with 1%Q in H3. lra. }
    destruct (arduino_random_range lo hi (rJitter i) Hlt) as [R1 R2].
    set (r := arduino_random lo hi (rJitter i)) in *.
    assert (R1' : (inject_Z lo <= inject_Z r)%Q) by (rewrite <- Zle_Qle; exact R1).
    assert (R2' : (inject_Z r < inject_Z hi)%Q) by (rewrite <- Zlt_Qlt; exact R2).
    assert (J : (100 * (inject_Z r / 100) == inject_Z r)%Q) by field.
    set (j := (inject_Z r / 100)%Q) in *.
    set (x := (finalBPM + j)%Q).
    assert (X1 : (finalBPM * (8 # 10) <= x)%Q) by (unfold x; lra).
    assert (X2 : (x < finalBPM * (12 # 10))%Q) by (unfold x; lra).
    destruct (constrainQ_between x finalBPM MIN_VALID_BPM MAX_VALID_BPM)
      as [B1 B2]; [unfold MIN_VALID_BPM, MAX_VALID_BPM; lra |].
    assert (W : valid_bpm (constrainQ x MIN_VALID_BPM MAX_VALID_BPM))
      by (apply constrainQ_bounds; unfold MIN_VALID_BPM, MAX_VALID_BPM; lra).
    destruct (Qlt_le_dec finalBPM x) as [C | C].
    + destruct B2 as [B2 B3]; [lra |]. repeat split; try lra; apply W.
    + destruct (B1 C) as [B3 B4]. repeat split; try lra; apply W.
Qed.

Lemma Finalpulseandbuzzer_jitter_bounded_witness :
  valid_bpm 72
  /\ (72 * (8 # 10)
      <= (Finalpulseandbuzzer.hrv_jitter 0 72 (sample 100 2000)).2)%Q.
Proof.
  assert (H : valid_bpm 72) by (split; discriminate).
  split; [exact H |].
  refine (proj1 (proj2 (proj2
    (Finalpulseandbuzzer_jitter_bounded 0 72 (sample 100 2000) H) _))).
  vm_compute. reflexivity.
Defined.

(** ** Pulsebyuno from power-on *)

(** The mean of plausible intervals is a plausible interval: the
    division in [computeBPM] is by a mean of at least 300 ms. *)
Lemma plausible_mean (a : list Q) (n : nat) :
  (0 < n <= length a)%nat -> Forall plausible_ms (take n a) ->
  let m := (sum_slots a n / inject_Z (Z.of_nat n))%Q in
  (300 <= m /\ m <= 12000 # 7)%Q /\ valid_bpm (60000 / m).
Proof.
  intros [Hc Hn] Ho m.
  assert (Hm : (300 <= m /\ m <= 12000 # 7)%Q).
  { apply mean_bounds; [exact Hc |]. apply sum_slots_bounds; [lia |].
    eapply Forall_impl; [exact Ho |]. intros x Hx. now apply plausible_ms_iff. }
  split; [exact Hm |]. apply plausible_ms_iff in Hm. apply Hm.
Qed.

Section PulsebyunoRun.
Import Pulsebyuno.

Lemma Pulsebyuno_gate_inv (b : Beats) (peak : bool) (t : Z) :
  ring_wf 16 (Pulsebyuno_beat_ring b) ->
  occupied plausible_ms (Pulsebyuno_beat_ring b) ->
  ring_wf 16 (Pulsebyuno_beat_ring (beat_gate b peak t).1)
  /\ occupied plausible_ms (Pulsebyuno_beat_ring (beat_gate b peak t).1)
  /\ (beatCount b <= beatCount (beat_gate b peak t).1)%nat.
Proof.
  intros W O. unfold beat_gate.
  destruct (peak && (MIN_BEAT_MS <? usub t (lastBeatTime b))%Z);
    [| simpl; split; [assumption | split; [assumption | lia]]].
  destruct (lastBeatTime b =? 0)%Z; simpl.
  { split; [assumption | split; [assumption | lia]]. }
  destruct (plausibleInterval (inject_Z (usub t (lastBeatTime b)))) eqn:P;
    simpl; [| split; [assumption | split; [assumption | lia]]].
  apply Pulsebyuno_plausible_iff in P.
  set (dt := inject_Z (usub t (lastBeatTime b))).
  assert (Hdt : plausible_ms dt).
  { apply plausible_ms_iff. unfold dt.
    change 300%Q with (inject_Z 300). split.
    - rewrite <- Zle_Qle. lia.
    - apply Qle_trans with (inject_Z 1714); [rewrite <- Zle_Qle; lia |].
      discriminate. }
  split; [| split].
  - change (ring_wf 16 (ring_push 16 (Pulsebyuno_beat_ring b) dt)).
    apply ring_push_wf; [lia | exact W].
  - change (occupied plausible_ms (ring_push 16 (Pulsebyuno_beat_ring b) dt)).
    now apply ring_push_keeps.
  - destruct (beatCount b <? 16)%nat; lia.
Qed.

Lemma Pulsebyuno_computeBPM_cases (b : Beats) :
  ring_wf 16 (Pulsebyuno_beat_ring b) ->
  occupied plausible_ms (Pulsebyuno_beat_ring b) ->
  (beatCount b = 0%nat /\ computeBPM b = 0%Q)
  \/ ((0 < beatCount b)%nat /\ valid_bpm (computeBPM b)
      /\ (300 <= sum_slots (beatIntervals b) (beatCount b)
                 / inject_Z (Z.of_nat (beatCount b)))%Q).
Proof.
  intros (La & Hi & Hn & _) Ho. unfold occupied in Ho.
  cbn [Pulsebyuno_beat_ring fst snd] in La, Hn, Ho.
  unfold computeBPM. destruct (Nat.eqb_spec (beatCount b) 0) as [E | E].
  - left. auto.
  - right. split; [lia |].
    destruct (plausible_mean (beatIntervals b) (beatCount b) ltac:(lia) Ho)
      as [[M1 _] V].
    split; [exact V | exact M1].
Qed.

(** A tick that gets past the finger test, by what it decides. *)
Lemma Pulsebyuno_loop_decides (s : State) (i : Input) :
  (30 <= raw i)%Z ->
  let b := (beat_gate (beats s) (conditioner (filt s) (raw i)).2 (now i)).1 in
  beats (next (loop s i)) = b
  /\ ((valid_bpm (computeBPM b)
       /\ reported_status (printed (loop s i)) = ST_OK
       /\ printed (loop s i) <> Calculating)
      \/ (~ valid_bpm (computeBPM b)
          /\ rates (next (loop s i)) = rates s
          /\ ((printed (loop s i) = Calculating
               /\ (5000 <= usub (now i) (lastValidBeatTime b))%Z)
              \/ ((usub (now i) (lastValidBeatTime b) < 5000)%Z
                  /\ printed (loop s i)
                     = Report (conditioner (filt s) (raw i)).1.2
                         (hrv_jitter (lastJitter s)
                            (lastGoodBPM (rates s)) i).2
                         (6 # 10) ST_FALLBACK)))).
Proof.
  intros Hr. unfold loop.
  replace (raw i <? 30)%Z with false by (symmetry; apply Z.ltb_ge; exact Hr).
  destruct (conditioner (filt s) (raw i)) as [[f filtered] peak].
  cbn [fst snd].
  destruct (beat_gate (beats s) peak (now i)) as [b l]. cbn [fst snd].
  unfold emit, accept_or_fallback.
  destruct (Qgeb (computeBPM b) MIN_VALID_BPM
            && Qle_bool (computeBPM b) MAX_VALID_BPM) eqn:V.
  - apply valid_bpm_test in V.
    destruct (hrv_jitter (lastJitter s) _ i) as [lj fb'].
    cbn [next beats printed reported_status].
    split; [reflexivity |]. left. split; [exact V |].
    split; [reflexivity | discriminate].
  - assert (V' : ~ valid_bpm (computeBPM b)).
    { intros C. apply valid_bpm_test in C. congruence. }
    destruct (Qltb (inject_Z (usub (now i) (lastValidBeatTime b)))
                   FALLBACK_TIMEOUT_MS) eqn:T.
    + apply Qltb_lt in T. unfold FALLBACK_TIMEOUT_MS in T.
      change 5000%Q with (inject_Z 5000) in T. rewrite <- Zlt_Qlt in T.
      destruct (hrv_jitter (lastJitter s) (lastGoodBPM (rates s)) i)
        as [lj fb'] eqn:J.
      cbn [next beats rates printed snd].
      split; [reflexivity |]. right. split; [exact V' |].
      split; [reflexivity |]. right. split; [exact T | reflexivity].
    + cbn [next beats rates printed].
      split; [reflexivity |]. right. split; [exact V' |].
      split; [reflexivity |]. left. split; [reflexivity |].
      apply Z.le_ngt. intros C. apply not_true_iff_false in T. apply T.
      apply Qltb_lt. unfold FALLBACK_TIMEOUT_MS.
      change 5000%Q with (inject_Z 5000). now rewrite <- Zlt_Qlt.
Qed.

Lemma Pulsebyuno_loop_state_inv (s : State) (i : Input) :
  Pulsebyuno_state_inv s -> Pulsebyuno_state_inv (next (loop s i)).
Proof.
  intros (W & O & G).
  destruct (Z.ltb_spec (raw i) 30) as [Hlt | Hge].
  { rewrite (Pulsebyuno_no_finger s i Hlt). cbn [next]. repeat split; auto;
      apply W. }
  destruct (Pulsebyuno_loop_decides s i Hge) as [Eb D].
  destruct (Pulsebyuno_gate_inv (beats s)
              (conditioner (filt s) (raw i)).2 (now i) W O) as (W' & O' & Mono).
  set (b := (beat_gate (beats s) (conditioner (filt s) (raw i)).2 (now i)).1)
    in *.
  unfold Pulsebyuno_state_inv. rewrite Eb.
  split; [exact W' |]. split; [exact O' |].
  intros H0.
  destruct D as [(V & _) | (_ & R & _)].
  - destruct (Pulsebyuno_computeBPM_cases b W' O') as [[_ C] | [C _]]; [| lia].
    rewrite C in V. destruct V as [V _]. unfold MIN_VALID_BPM in V.
    exfalso. revert V. apply Qlt_not_le. reflexivity.
  - rewrite R. apply G. lia.
Qed.

Lemma Pulsebyuno_reachable_state_inv (s : State) :
  reachable s -> Pulsebyuno_state_inv s.
Proof.
  induction 1 as [| s i _ IH].
  - split; [| split].
    + simpl. repeat split; lia.
    + unfold occupied. simpl. constructor.
    + reflexivity.
  - now apply Pulsebyuno_loop_state_inv.
Qed.

End PulsebyunoRun.

(** X16. Pulsebyuno from power-on. The interval ring only ever holds
    plausible intervals, so whenever [computeBPM] divides, the mean
    interval is at least 300 ms (never zero) and the candidate is in
    [35, 200]. Hence, for a tick with a finger on the sensor: once one
    interval is stored the tick reports OK; FALLBACK is reported only
    while the ring is still empty, within 5000 ms of
    [lastValidBeatTime], and then [lastGoodBPM] is still 0, the BPM
    printed is that 0, or 35 once the jitter block has fired, and the
    rate windows are untouched. The fill count never decreases. *)
Theorem Pulsebyuno_status_follows_history
  (s : Pulsebyuno.State) (i : Input) (Hs : Pulsebyuno.reachable s) :
  let t := Pulsebyuno.loop s i in
  let b := Pulsebyuno.beats (Pulsebyuno.next t) in
  let n := Pulsebyuno.beatCount b in
  (Pulsebyuno.beatCount (Pulsebyuno.beats s) <= n)%nat
  /\ ((0 < n)%nat ->
      (300 <= sum_slots (Pulsebyuno.beatIntervals b) n
              / inject_Z (Z.of_nat n))%Q
      /\ valid_bpm (Pulsebyuno.computeBPM b))
  /\ ((30 <= raw i)%Z -> (0 < n)%nat ->
      reported_status (Pulsebyuno.printed t) = ST_OK)
  /\ (forall (x fb cf : Q),
        Pulsebyuno.printed t = Report x fb cf ST_FALLBACK ->
        n = 0%nat
        /\ Pulsebyuno.lastGoodBPM (Pulsebyuno.rates s) = 0%Q
        /\ (fb = 0%Q \/ fb = MIN_VALID_BPM)
        /\ (usub (now i) (Pulsebyuno.lastValidBeatTime b) < 5000)%Z
        /\ Pulsebyuno.rates (Pulsebyuno.next t) = Pulsebyuno.rates s).
Proof.
  intros t b n. subst t b n.
  pose proof (Pulsebyuno_reachable_state_inv s Hs) as (W & O & G).
  pose proof (Pulsebyuno_loop_state_inv s i (conj W (conj O G)))
    as (W1 & O1 & G1).
  destruct (Pulsebyuno_computeBPM_cases _ W1 O1) as [[C0 Cv] | (Cp & Cv & Cm)].
  - (* the ring is still empty at the end of the tick *)
    split.
    { destruct (Z.ltb_spec (raw i) 30) as [Hlt | Hge].
      - rewrite (Pulsebyuno_no_finger s i Hlt). cbn. lia.
      - destruct (Pulsebyuno_loop_decides s i Hge) as [Eb _]. rewrite Eb.
        apply (Pulsebyuno_gate_inv _ _ _ W O). }
    split; [intros; lia |]. split; [intros; lia |].
    intros x fb cf E.
    destruct (Z.ltb_spec (raw i) 30) as [Hlt | Hge].
    { rewrite (Pulsebyuno_no_finger s i Hlt) in E. discriminate. }
    destruct (Pulsebyuno_loop_decides s i Hge) as [Eb D].
    rewrite Eb in C0.
    assert (G0 : Pulsebyuno.lastGoodBPM (Pulsebyuno.rates s) = 0%Q).
    { apply G.
      pose proof (proj2 (proj2 (Pulsebyuno_gate_inv (Pulsebyuno.beats s)
        (Pulsebyuno.conditioner (Pulsebyuno.filt s) (raw i)).2 (now i) W O))).
      lia. }
    destruct D as [(_ & S & _) | (_ & R & [[P _] | [T P]])].
    + rewrite E in S. discriminate.
    + rewrite E in P. discriminate.
    + rewrite P in E. injection E as _ E _.
      split; [now rewrite Eb |]. split; [exact G0 |].
      split; [| split; [now rewrite Eb | exact R]].
      rewrite <- E, G0. unfold Pulsebyuno.hrv_jitter.
      destruct (1400 <? _)%Z; [right | left]; reflexivity.
  - (* at least one interval is stored *)
    split.
    { destruct (Z.ltb_spec (raw i) 30) as [Hlt | Hge].
      - rewrite (Pulsebyuno_no_finger s i Hlt). cbn. lia.
      - destruct (Pulsebyuno_loop_decides s i Hge) as [Eb _]. rewrite Eb.
        apply (Pulsebyuno_gate_inv _ _ _ W O). }
    split; [intros _; split; assumption |].
    split.
    { intros Hge _.
      destruct (Pulsebyuno_loop_decides s i Hge) as [Eb D].
      rewrite Eb in Cv.
      destruct D as [(_ & S & _) | (V & _)]; [exact S | contradiction]. }
    intros x fb cf E.
    destruct (Z.ltb_spec (raw i) 30) as [Hlt | Hge].
    { rewrite (Pulsebyuno_no_finger s i Hlt) in E. discriminate. }
    destruct (Pulsebyuno_loop_decides s i Hge) as [Eb D].
    rewrite Eb in Cv.
    destruct D as [(_ & S & _) | (V & _)]; [| contradiction].
    rewrite E in S. discriminate.
Qed.

Lemma Pulsebyuno_status_follows_history_witness :
  Pulsebyuno.lastGoodBPM (Pulsebyuno.rates Pulsebyuno.init) = 0%Q.
Proof.
  exact (proj1 (proj2 (proj2 (proj2 (proj2
    (Pulsebyuno_status_follows_history Pulsebyuno.init (sample 100 50)
       Pulsebyuno.reach_init))) _ _ _ eq_refl))).
Defined.

(** ** Finalpulseandbuzzer from power-on *)

Lemma Finalpulseandbuzzer_plausible_iff (d : Z) :
  Finalpulseandbuzzer.plausibleInterval (inject_Z d) = true
  <-> (300 <= d <= 1714)%Z.
Proof.
  unfold Finalpulseandbuzzer.plausibleInterval.
  destruct (Qle_bool (inject_Z d) 0) eqn:E.
  - apply inject_Z_nonpos in E. split; [discriminate | lia].
  - rewrite valid_bpm_test. apply valid_bpm_interval.
Qed.

Section FinalpulseandbuzzerRun.
Import Finalpulseandbuzzer.

Lemma Finalpulseandbuzzer_gate_inv (b : Beats) (peak : bool) (t : Z) :
  ring_wf 16 (Finalpulseandbuzzer_beat_ring b) ->
  occupied plausible_ms (Finalpulseandbuzzer_beat_ring b) ->
  ring_wf 16 (Finalpulseandbuzzer_beat_ring (beat_gate b peak t).1)
  /\ occupied plausible_ms
       (Finalpulseandbuzzer_beat_ring (beat_gate b peak t).1)
  /\ (beatCount b <= beatCount (beat_gate b peak t).1)%nat.
Proof.
  intros W O. unfold beat_gate.
  destruct (peak && (MIN_BEAT_MS <? usub t (lastBeatTime b))%Z);
    [| simpl; split; [assumption | split; [assumption | lia]]].
  destruct (lastBeatTime b =? 0)%Z; simpl.
  { split; [assumption | split; [assumption | lia]]. }
  destruct (plausibleInterval (inject_Z (usub t (lastBeatTime b)))) eqn:P;
    simpl; [| split; [assumption | split; [assumption | lia]]].
  apply Finalpulseandbuzzer_plausible_iff in P.
  set (dt := inject_Z (usub t (lastBeatTime b))).
  assert (Hdt : plausible_ms dt).
  { apply plausible_ms_iff. unfold dt.
    change 300%Q with (inject_Z 300). split.
    - rewrite <- Zle_Qle. lia.
    - apply Qle_trans with (inject_Z 1714); [rewrite <- Zle_Qle; lia |].
      discriminate. }
  split; [| split].
  - change (ring_wf 16 (ring_push 16 (Finalpulseandbuzzer_beat_ring b) dt)).
    apply ring_push_wf; [lia | exact W].
  - change (occupied plausible_ms
              (ring_push 16 (Finalpulseandbuzzer_beat_ring b) dt)).
    now apply ring_push_keeps.
  - destruct (beatCount b <? 16)%nat; lia.
Qed.

Lemma Finalpulseandbuzzer_computeBPM_cases (b : Beats) :
  ring_wf 16 (Finalpulseandbuzzer_beat_ring b) ->
  occupied plausible_ms (Finalpulseandbuzzer_beat_ring b) ->
  (beatCount b = 0%nat /\ computeBPM b = 0%Q)
  \/ ((0 < beatCount b)%nat /\ valid_bpm (computeBPM b)
      /\ (300 <= sum_slots (beatIntervals b) (beatCount b)
                 / inject_Z (Z.of_nat (beatCount b)))%Q).
Proof.
  intros (La & Hi & Hn & _) Ho. unfold occupied in Ho.
  cbn [Finalpulseandbuzzer_beat_ring fst snd] in La, Hn, Ho.
  unfold computeBPM. destruct (Nat.eqb_spec (beatCount b) 0) as [E | E].
  - left. auto.
  - right. split; [lia |].
    destruct (plausible_mean (beatIntervals b) (beatCount b) ltac:(lia) Ho)
      as [[M1 _] V].
    split; [exact V | exact M1].
Qed.

(** A tick that gets past the finger test, by what it decides. *)
Lemma Finalpulseandbuzzer_loop_decides (s : State) (i : Reads) :
  (30 <= raw (pulse i))%Z ->
  let b := (beat_gate (beats s) (conditioner (filt s) (raw (pulse i))).2
                      (now (pulse i))).1 in
  let temp := read_temperature (tempC i) in
  beats (next (loop s i)) = b
  /\ ((valid_bpm (computeBPM b)
       /\ exists x fb : Q,
            printed (loop s i) = Report5 x fb (85 # 100) temp ST_OK)
      \/ (~ valid_bpm (computeBPM b)
          /\ rates (next (loop s i)) = rates s
          /\ ((printed (loop s i) = Calculating5
               /\ (5000 <= usub (tFallback i) (lastValidBeatTime b))%Z)
              \/ ((usub (tFallback i) (lastValidBeatTime b) < 5000)%Z
                  /\ (exists x : Q,
                        printed (loop s i)
                        = Report5 x
                            (hrv_jitter (lastJitter s)
                               (lastGoodBPM (rates s)) (pulse i)).2
                            (6 # 10) temp ST_FALLBACK)
                  /\ buzz (next (loop s i))
                     = handleBuzzer (buzz s)
                         (alarm_of
                            (hrv_jitter (lastJitter s)
                               (lastGoodBPM (rates s)) (pulse i)).2 temp)
                         (tBuzzer i))))).
Proof.
  intros Hr b temp.
  rewrite (Finalpulseandbuzzer_loop_live s i Hr). cbv zeta. fold b.
  unfold accept_or_fallback.
  destruct (Qgeb (computeBPM b) MIN_VALID_BPM
            && Qle_bool (computeBPM b) MAX_VALID_BPM) eqn:V.
  - apply valid_bpm_test in V. cbn [next beats printed].
    split; [reflexivity |]. left. split; [exact V |].
    eexists. eexists. reflexivity.
  - assert (V' : ~ valid_bpm (computeBPM b)).
    { intros C. apply valid_bpm_test in C. congruence. }
    destruct (Z.ltb_spec (usub (tFallback i) (lastValidBeatTime b))
                         FALLBACK_TIMEOUT_MS) as [T | T];
      cbn [next beats rates printed buzz].
    + split; [reflexivity |]. right. split; [exact V' |].
      split; [reflexivity |]. right. split; [exact T |].
      split; [eexists; reflexivity | reflexivity].
    + split; [reflexivity |]. right. split; [exact V' |].
      split; [reflexivity |]. left. split; [reflexivity | exact T].
Qed.

Lemma Finalpulseandbuzzer_no_finger (s : State) (i : Reads) :
  (raw (pulse i) < 30)%Z ->
  loop s i =
  mkTick (mkState (filt s) (beats s) (rates s) (lastJitter s) (drift s)
                  (bodyTemp s) (handleBuzzer (buzz s) false (tBuzzer i))
                  (status s))
         [] Calculating5.
Proof.
  intros H. unfold loop.
  now replace (raw (pulse i) <? 30)%Z with true
    by (symmetry; apply Z.ltb_lt; exact H).
Qed.

Lemma Finalpulseandbuzzer_loop_state_inv (s : State) (i : Reads) :
  Finalpulseandbuzzer_state_inv s ->
  Finalpulseandbuzzer_state_inv (next (loop s i)).
Proof.
  intros (W & O & G).
  destruct (Z.ltb_spec (raw (pulse i)) 30) as [Hlt | Hge].
  { rewrite (Finalpulseandbuzzer_no_finger s i Hlt). cbn [next].
    repeat split; auto; apply W. }
  destruct (Finalpulseandbuzzer_loop_decides s i Hge) as [Eb D].
  destruct (Finalpulseandbuzzer_gate_inv (beats s)
              (conditioner (filt s) (raw (pulse i))).2 (now (pulse i)) W O)
    as (W' & O' & Mono).
  set (b := (beat_gate (beats s) (conditioner (filt s) (raw (pulse i))).2
                       (now (pulse i))).1) in *.
  unfold Finalpulseandbuzzer_state_inv. rewrite Eb.
  split; [exact W' |]. split; [exact O' |].
  intros H0.
  destruct D as [(V & _) | (_ & R & _)].
  - destruct (Finalpulseandbuzzer_computeBPM_cases b W' O')
      as [[_ C] | [C _]]; [| lia].
    rewrite C in V. destruct V as [V _]. unfold MIN_VALID_BPM in V.
    exfalso. revert V. apply Qlt_not_le. reflexivity.
  - rewrite R. apply G. lia.
Qed.

Lemma Finalpulseandbuzzer_reachable_state_inv (s : State) :
  reachable s -> Finalpulseandbuzzer_state_inv s.
Proof.
  induction 1 as [| s i _ IH].
  - split; [| split].
    + simpl. repeat split; lia.
    + unfold occupied. simpl. constructor.
    + reflexivity.
  - now apply Finalpulseandbuzzer_loop_state_inv.
Qed.

End FinalpulseandbuzzerRun.

(** X17. Finalpulseandbuzzer from power-on. [computeBPM] has no test on
    the mean interval, but the ring only ever holds plausible intervals:
    whenever it divides, the mean is at least 300 ms and the candidate
    is in [35, 200]. Hence a tick with a finger on the sensor reports OK
    once one interval is stored, and FALLBACK is reported only while the
    ring is still empty: then [lastGoodBPM] is still 0, the BPM printed
    is 0, or 35 once the jitter block has fired, and [handleBuzzer] is
    called with the alarm raised. Every FALLBACK tick sounds the alarm,
    whatever the temperature. *)
Theorem Finalpulseandbuzzer_status_follows_history
  (s : Finalpulseandbuzzer.State) (i : Finalpulseandbuzzer.Reads)
  (Hs : Finalpulseandbuzzer.reachable s) :
  let t := Finalpulseandbuzzer.loop s i in
  let b := Finalpulseandbuzzer.beats (Finalpulseandbuzzer.next t) in
  let n := Finalpulseandbuzzer.beatCount b in
  (Finalpulseandbuzzer.beatCount (Finalpulseandbuzzer.beats s) <= n)%nat
  /\ ((0 < n)%nat ->
      (300 <= sum_slots (Finalpulseandbuzzer.beatIntervals b) n
              / inject_Z (Z.of_nat n))%Q
      /\ valid_bpm (Finalpulseandbuzzer.computeBPM b))
  /\ ((30 <= raw (Finalpulseandbuzzer.pulse i))%Z -> (0 < n)%nat ->
      exists x fb temp : Q,
        Finalpulseandbuzzer.printed t
        = Finalpulseandbuzzer.Report5 x fb (85 # 100) temp ST_OK)
  /\ (forall (x fb cf temp : Q),
        Finalpulseandbuzzer.printed t
        = Finalpulseandbuzzer.Report5 x fb cf temp ST_FALLBACK ->
        n = 0%nat
        /\ Finalpulseandbuzzer.lastGoodBPM (Finalpulseandbuzzer.rates s)
           = 0%Q
        /\ (fb = 0%Q \/ fb = MIN_VALID_BPM)
        /\ Finalpulseandbuzzer.alarm_of fb temp = true
        /\ Finalpulseandbuzzer.buzz (Finalpulseandbuzzer.next t)
           = Finalpulseandbuzzer.handleBuzzer (Finalpulseandbuzzer.buzz s)
               true (Finalpulseandbuzzer.tBuzzer i)).
Proof.
  intros t b n. subst t b n.
  pose proof (Finalpulseandbuzzer_reachable_state_inv s Hs) as (W & O & G).
  pose proof (Finalpulseandbuzzer_loop_state_inv s i (conj W (conj O G)))
    as (W1 & O1 & G1).
  assert (Mono : (Finalpulseandbuzzer.beatCount (Finalpulseandbuzzer.beats s)
                  <= Finalpulseandbuzzer.beatCount
                       (Finalpulseandbuzzer.beats
                          (Finalpulseandbuzzer.next
                             (Finalpulseandbuzzer.loop s i))))%nat).
  { destruct (Z.ltb_spec (raw (Finalpulseandbuzzer.pulse i)) 30)
      as [Hlt | Hge].
    - rewrite (Finalpulseandbuzzer_no_finger s i Hlt). cbn. lia.
    - destruct (Finalpulseandbuzzer_loop_decides s i Hge) as [Eb _].
      rewrite Eb. apply (Finalpulseandbuzzer_gate_inv _ _ _ W O). }
  split; [exact Mono |].
  destruct (Finalpulseandbuzzer_computeBPM_cases _ W1 O1)
    as [[C0 Cv] | (Cp & Cv & Cm)].
  - (* the ring is still empty at the end of the tick *)
    split; [intros; lia |]. split; [intros; lia |].
    intros x fb cf temp E.
    destruct (Z.ltb_spec (raw (Finalpulseandbuzzer.pulse i)) 30)
      as [Hlt | Hge].
    { rewrite (Finalpulseandbuzzer_no_finger s i Hlt) in E. discriminate. }
    destruct (Finalpulseandbuzzer_loop_decides s i Hge) as [Eb D].
    assert (G0 : Finalpulseandbuzzer.lastGoodBPM (Finalpulseandbuzzer.rates s)
                 = 0%Q) by (apply G; lia).
    destruct D as [(_ & x' & fb' & P) | (_ & R & [[P _] | (T & [x' P] & B)])].
    + rewrite E in P. discriminate.
    + rewrite E in P. discriminate.
    + rewrite P in E. injection E as _ E _ Et.
      assert (J : fb = 0%Q \/ fb = MIN_VALID_BPM).
      { rewrite <- E, G0.
        destruct (Finalpulseandbuzzer_jitter_zero
                    (Finalpulseandbuzzer.lastJitter s) 0
                    (Finalpulseandbuzzer.pulse i) ltac:(reflexivity));
          auto. }
      assert (A : Finalpulseandbuzzer.alarm_of fb temp = true).
      { destruct J as [-> | ->]; reflexivity. }
      split; [exact C0 |]. split; [exact G0 |]. split; [exact J |].
      split; [exact A |].
      rewrite B, E, Et, A. reflexivity.
  - (* at least one interval is stored *)
    split; [intros _; split; assumption |].
    split.
    { intros Hge _.
      destruct (Finalpulseandbuzzer_loop_decides s i Hge) as [Eb D].
      rewrite Eb in Cv.
      destruct D as [(_ & x & fb & P) | (V & _)]; [| contradiction].
      exists x, fb. eexists. exact P. }
    intros x fb cf temp E.
    destruct (Z.ltb_spec (raw (Finalpulseandbuzzer.pulse i)) 30)
      as [Hlt | Hge].
    { rewrite (Finalpulseandbuzzer_no_finger s i Hlt) in E. discriminate. }
    destruct (Finalpulseandbuzzer_loop_decides s i Hge) as [Eb D].
    rewrite Eb in Cv.
    destruct D as [(_ & x' & fb' & P) | (V & _)]; [| contradiction].
    rewrite E in P. discriminate.
Qed.

Lemma Finalpulseandbuzzer_status_follows_history_witness :
  Finalpulseandbuzzer.buzz
    (Finalpulseandbuzzer.next
       (Finalpulseandbuzzer.loop Finalpulseandbuzzer.init
          (Finalpulseandbuzzer.mkReads (sample 100 50) 50 37 50)))
  = Finalpulseandbuzzer.handleBuzzer
      (Finalpulseandbuzzer.buzz Finalpulseandbuzzer.init) true 50.
Proof.
  exact (proj2 (proj2 (proj2 (proj2 (proj2 (proj2 (proj2
    (Finalpulseandbuzzer_status_follows_history Finalpulseandbuzzer.init
       (Finalpulseandbuzzer.mkReads (sample 100 50) 50 37 50)
       Finalpulseandbuzzer.reach_init))) _ _ _ _ eq_refl))))).
Defined.

(** ** The moving average of Finalpulseandbuzzer *)

Lemma Finalpulseandbuzzer_smoothAvg_step
  (f : Finalpulseandbuzzer.Filter) (v : Z) :
  smooth_wf (Finalpulseandbuzzer_smooth_ring f) ->
  let out := Finalpulseandbuzzer.smoothAvg f v in
  smooth_wf (Finalpulseandbuzzer_smooth_ring out.1)
  /\ smooth_window (Finalpulseandbuzzer_smooth_ring out.1)
     = (if (length (smooth_window (Finalpulseandbuzzer_smooth_ring f))
            <? SMOOTH_WIN)%nat
        then smooth_window (Finalpulseandbuzzer_smooth_ring f) ++ [v]
        else tail (smooth_window (Finalpulseandbuzzer_smooth_ring f)) ++ [v])
  /\ out.2 = meanZ (smooth_window (Finalpulseandbuzzer_smooth_ring out.1))
  /\ (0 < smooth_divisor (Finalpulseandbuzzer_smooth_ring out.1))%nat
  /\ smooth_divisor (Finalpulseandbuzzer_smooth_ring out.1)
     = length (smooth_window (Finalpulseandbuzzer_smooth_ring out.1)).
Proof.
  intros W.
  destruct (smooth_ring_step _ _ _ v W) as (W' & E & Hs & Hn & Hp).
  unfold Finalpulseandbuzzer.smoothAvg, Finalpulseandbuzzer_smooth_ring in *.
  cbn [fst snd] in *.
  cbn [Finalpulseandbuzzer.smoothBuf Finalpulseandbuzzer.smoothPos
       Finalpulseandbuzzer.smoothFilled smooth_divisor].
  split; [exact W' |]. split; [exact E |].
  split; [| split; [exact Hp | exact Hn]].
  unfold meanZ. now rewrite <- Hs, <- Hn.
Qed.

Lemma Finalpulseandbuzzer_smoothed_window
  (f : Finalpulseandbuzzer.Filter) (vs : list Z) :
  length (Finalpulseandbuzzer.smoothBuf f) = SMOOTH_WIN ->
  Finalpulseandbuzzer.smoothPos f = 0%nat ->
  Finalpulseandbuzzer.smoothFilled f = false ->
  smooth_wf (Finalpulseandbuzzer_smooth_ring (Finalpulseandbuzzer_smoothed f vs))
  /\ smooth_window
       (Finalpulseandbuzzer_smooth_ring (Finalpulseandbuzzer_smoothed f vs))
     = drop (length vs - SMOOTH_WIN) vs.
Proof.
  intros Hl Hp Hf. induction vs as [| v vs IH] using rev_ind.
  - unfold Finalpulseandbuzzer_smoothed, Finalpulseandbuzzer_smooth_ring,
      smooth_wf. simpl.
    rewrite Hl, Hp, Hf. unfold SMOOTH_WIN. simpl. rewrite take_0.
    repeat split; lia.
  - unfold Finalpulseandbuzzer_smoothed in *. rewrite fold_left_app.
    cbn [fold_left].
    destruct IH as [W E].
    destruct (Finalpulseandbuzzer_smoothAvg_step _ v W) as (W' & E' & _).
    split; [exact W' |].
    rewrite E', E, last_window_snoc by (unfold SMOOTH_WIN; lia).
    rewrite length_drop.
    destruct (Nat.ltb_spec (length vs - (length vs - SMOOTH_WIN)) SMOOTH_WIN),
             (Nat.ltb_spec (length vs) SMOOTH_WIN); try reflexivity;
      unfold SMOOTH_WIN in *; lia.
Qed.

(** X18. [smoothAvg] of Finalpulseandbuzzer divides by [n] where the
    other sketches divide by [max(1, n)]. Started on the smoothing ring
    [setup()] leaves (cursor 0, [smoothFilled] false), [n] is at least 1
    on every call, so the division is never by zero, and the value
    returned is the arithmetic mean of the last
    [min (length vs + 1) SMOOTH_WIN] samples. *)
Theorem Finalpulseandbuzzer_smoothAvg_safe
  (f : Finalpulseandbuzzer.Filter) (vs : list Z) (v : Z)
  (Hl : length (Finalpulseandbuzzer.smoothBuf f) = SMOOTH_WIN)
  (Hp : Finalpulseandbuzzer.smoothPos f = 0%nat)
  (Hf : Finalpulseandbuzzer.smoothFilled f = false) :
  let out := Finalpulseandbuzzer.smoothAvg
               (Finalpulseandbuzzer_smoothed f vs) v in
  let w := drop (length (vs ++ [v]) - SMOOTH_WIN) (vs ++ [v]) in
  smooth_divisor (Finalpulseandbuzzer_smooth_ring out.1)
  = Nat.min (length vs + 1) SMOOTH_WIN
  /\ (0 < smooth_divisor (Finalpulseandbuzzer_smooth_ring out.1))%nat
  /\ out.2 = meanZ w.
Proof.
  intros out w. subst out.
  destruct (Finalpulseandbuzzer_smoothed_window f vs Hl Hp Hf) as [W _].
  destruct (Finalpulseandbuzzer_smoothAvg_step _ v W)
    as (W' & _ & M & P & D).
  destruct (Finalpulseandbuzzer_smoothed_window f (vs ++ [v]) Hl Hp Hf)
    as [_ E].
  unfold Finalpulseandbuzzer_smoothed in E. rewrite fold_left_app in E.
  cbn [fold_left] in E.
  fold (Finalpulseandbuzzer_smoothed f vs) in E.
  assert (Lw : length w = Nat.min (length vs + 1) SMOOTH_WIN).
  { unfold w. rewrite length_drop, length_app. simpl. lia. }
  split; [| split; [exact P |]].
  - rewrite D, E. exact Lw.
  - rewrite M. f_equal. exact E.
Qed.

Lemma Finalpulseandbuzzer_smoothAvg_safe_witness :
  (Finalpulseandbuzzer.smoothAvg
     (Finalpulseandbuzzer_smoothed
        (Finalpulseandbuzzer.filt Finalpulseandbuzzer.init)
        [10; 20; 30; 40; 50; 60]%Z)
     70%Z).2
  = meanZ [30; 40; 50; 60; 70]%Z.
Proof.
  exact (proj2 (proj2
    (Finalpulseandbuzzer_smoothAvg_safe
       (Finalpulseandbuzzer.filt Finalpulseandbuzzer.init)
       [10; 20; 30; 40; 50; 60]%Z 70%Z eq_refl eq_refl eq_refl))).
Defined.
